(** * The slab allocator with magazines (kern/src/slab.c)

    A shallow embedding of one [struct kmem_cache] and of the functions of
    slab.c that operate on it.  The model is sequential: interrupt masking
    and spin locks are not represented, except for the contention
    accounting of [lock_depot], whose outcome depends on whether the
    try-lock succeeded.

    Everything the cache calls but does not define is the environment: the
    source arena, the base allocator, the three metadata caches
    (kmem_magazine_cache, kmem_slab_cache, kmem_bufctl_cache), the clock,
    the constructor and the destructor.  Calls to the environment are
    logged in a trace, and the values they return are read from reply
    queues carried by the state. *)

From stdpp Require Import base gmap list.

Local Open Scope Z_scope.

(** ** Machine integers

    Counters are unsigned machine integers; [wrap max z] is the value an
    unsigned type with largest value [max] holds after computing [z]. *)

Definition wrap (max z : Z) : Z := z mod (max + 1).

Definition UINT64_MAX : Z := 2 ^ 64 - 1.

Definition ROUNDDOWN (a n : Z) : Z := a - a mod n.
Definition ROUNDUP (a n : Z) : Z := ROUNDDOWN (a + n - 1) n.
Definition ROUNDUPPWR2 (x : Z) : Z := 2 ^ Z.log2_up x.
Definition MIN (a b : Z) : Z := if a <? b then a else b.

(** ** Tunables (slab.c, lines 94-95) *)

Definition resize_timeout_ns : Z := 1000000000.
Definition resize_threshold : Z := 1.

(** ** Data *)

Record hash_helper := {
  nr_hash_lists : Z;
  nr_hash_bits : Z;
  nr_items : Z;
  load_limit : Z;
}.

(** The constants, type widths and hash helpers come from headers
    (slab.h, hash.h, the architecture's page size) that are not part of
    the sources at hand; they are parameters of the development. *)
Class Platform := {
  PGSIZE : Z;
  SIZE_MAX : Z;              (* size_t, unsigned long *)
  UINT_MAX : Z;              (* unsigned int *)
  sizeof_kmem_slab : Z;
  num_cores : nat;
  KMC_MAG_MIN_SZ : Z;
  KMC_MAG_MAX_SZ : Z;
  NUM_BUF_PER_SLAB : Z;
  SLAB_LARGE_CUTOFF : Z;
  KMC_QCACHE : Z;
  KMC_NOTOUCH : Z;
  __KMC_USE_BUFCTL : Z;
  MEM_ATOMIC : Z;
  MEM_WAIT : Z;
  MEM_ERROR : Z;
  hash_init_hh : hash_helper;
  hash_ptr : Z → Z → Z;
  hash_needs_more : hash_helper → bool;
  hash_next_nr_lists : hash_helper → Z;
  hash_incr_nr_lists : hash_helper → hash_helper;
  hash_reset_load_limit : hash_helper → hash_helper;
}.

(** A magazine: [rounds] is the array, [nr_rounds] the number of slots in
    use.  Magazines, slabs and bufctls are referred to by address. *)
Record kmem_magazine := {
  nr_rounds : Z;
  rounds : list Z;
}.

Record kmem_pcpu_cache := {
  magsize : Z;
  loaded : Z;
  prev : Z;
  nr_allocs_ever : Z;
}.

Record kmem_depot := {
  not_empty : list Z;
  depot_empty : list Z;
  depot_magsize : Z;
  nr_empty : Z;
  nr_not_empty : Z;
  busy_count : Z;
  busy_start : Z;
}.

Record kmem_bufctl := {
  buf_addr : Z;
  my_slab : Z;
}.

(** In C [bufctl_freelist] and [free_small_obj] share storage; a cache
    uses only the one that belongs to its layout. *)
Record kmem_slab := {
  num_busy_obj : Z;
  num_total_obj : Z;
  bufctl_freelist : list Z;
  free_small_obj : Z;
}.

Record kmem_cache := {
  obj_size : Z;
  import_amt : Z;
  align : Z;
  flags : Z;
  full_slab_list : list Z;
  partial_slab_list : list Z;
  empty_slab_list : list Z;
  ctor : option (Z → Z → Z);     (* object, flags; non-zero is failure *)
  dtor : bool;                   (* whether a destructor is set *)
  nr_cur_alloc : Z;
  hh : hash_helper;
  alloc_hash : list (list Z);
  alloc_hash_is_static : bool;   (* alloc_hash == static_hash *)
  depot : kmem_depot;
  pcpu_caches : list kmem_pcpu_cache;
}.

Inductive meta_cache := kmem_magazine_cache | kmem_slab_cache | kmem_bufctl_cache.

Inductive event :=
| EvArenaAlloc (size reply : Z)
| EvArenaFree (addr size : Z)
| EvCacheAlloc (c : meta_cache) (reply : Z)
| EvCacheFree (c : meta_cache) (addr : Z)
| EvBaseZalloc (nr_lists : Z) (reply : bool)
| EvBaseFree
| EvCtor (obj fl ret : Z)
| EvDtor (obj : Z)
| EvWarn.

(** What the environment will answer, call by call.  Pointers are
    addresses, NULL is 0.  An exhausted queue answers: lock free, base
    allocator out of memory, NULL from the arena and from the slab and
    bufctl caches, magazine cache out of memory.  A reply of the magazine
    cache comes with the magazine as handed out. *)
Record environment := {
  env_trylock : list (option Z);   (* [Some t]: contended, nsec() was t *)
  env_arena : list Z;
  env_base : list bool;
  env_magazine : list (Z * kmem_magazine);
  env_slab : list Z;
  env_bufctl : list Z;
}.

Record state := {
  cache : kmem_cache;
  slabs : gmap Z kmem_slab;
  bufctls : gmap Z kmem_bufctl;
  magazines : gmap Z kmem_magazine;
  mem : gmap Z Z;                  (* first word of each object slot *)
  env : environment;
  trace : list event;
}.

(** ** Record updates *)

Definition set_nr_rounds (n : Z) (m : kmem_magazine) : kmem_magazine :=
  {| nr_rounds := n; rounds := rounds m |}.
Definition set_rounds (r : list Z) (m : kmem_magazine) : kmem_magazine :=
  {| nr_rounds := nr_rounds m; rounds := r |}.

Definition set_magsize (n : Z) (p : kmem_pcpu_cache) : kmem_pcpu_cache :=
  {| magsize := n; loaded := loaded p; prev := prev p;
     nr_allocs_ever := nr_allocs_ever p |}.
Definition set_loaded_prev (l p' : Z) (p : kmem_pcpu_cache) : kmem_pcpu_cache :=
  {| magsize := magsize p; loaded := l; prev := p';
     nr_allocs_ever := nr_allocs_ever p |}.
Definition set_nr_allocs_ever (n : Z) (p : kmem_pcpu_cache) : kmem_pcpu_cache :=
  {| magsize := magsize p; loaded := loaded p; prev := prev p;
     nr_allocs_ever := n |}.

Definition set_not_empty (l : list Z) (n : Z) (d : kmem_depot) : kmem_depot :=
  {| not_empty := l; depot_empty := depot_empty d;
     depot_magsize := depot_magsize d; nr_empty := nr_empty d;
     nr_not_empty := n; busy_count := busy_count d;
     busy_start := busy_start d |}.
Definition set_depot_empty (l : list Z) (n : Z) (d : kmem_depot) : kmem_depot :=
  {| not_empty := not_empty d; depot_empty := l;
     depot_magsize := depot_magsize d; nr_empty := n;
     nr_not_empty := nr_not_empty d; busy_count := busy_count d;
     busy_start := busy_start d |}.
Definition set_busy (count start : Z) (d : kmem_depot) : kmem_depot :=
  {| not_empty := not_empty d; depot_empty := depot_empty d;
     depot_magsize := depot_magsize d; nr_empty := nr_empty d;
     nr_not_empty := nr_not_empty d; busy_count := count;
     busy_start := start |}.
Definition set_depot_magsize (n : Z) (d : kmem_depot) : kmem_depot :=
  {| not_empty := not_empty d; depot_empty := depot_empty d;
     depot_magsize := n; nr_empty := nr_empty d;
     nr_not_empty := nr_not_empty d; busy_count := busy_count d;
     busy_start := busy_start d |}.

Definition set_num_busy_obj (n : Z) (s : kmem_slab) : kmem_slab :=
  {| num_busy_obj := n; num_total_obj := num_total_obj s;
     bufctl_freelist := bufctl_freelist s;
     free_small_obj := free_small_obj s |}.
Definition set_bufctl_freelist (l : list Z) (s : kmem_slab) : kmem_slab :=
  {| num_busy_obj := num_busy_obj s; num_total_obj := num_total_obj s;
     bufctl_freelist := l; free_small_obj := free_small_obj s |}.
Definition set_free_small_obj (p : Z) (s : kmem_slab) : kmem_slab :=
  {| num_busy_obj := num_busy_obj s; num_total_obj := num_total_obj s;
     bufctl_freelist := bufctl_freelist s; free_small_obj := p |}.

Definition set_slab_lists (f p e : list Z) (c : kmem_cache) : kmem_cache :=
  {| obj_size := obj_size c; import_amt := import_amt c; align := align c;
     flags := flags c; full_slab_list := f; partial_slab_list := p;
     empty_slab_list := e; ctor := ctor c; dtor := dtor c;
     nr_cur_alloc := nr_cur_alloc c; hh := hh c;
     alloc_hash := alloc_hash c;
     alloc_hash_is_static := alloc_hash_is_static c;
     depot := depot c; pcpu_caches := pcpu_caches c |}.
Definition set_nr_cur_alloc (n : Z) (c : kmem_cache) : kmem_cache :=
  {| obj_size := obj_size c; import_amt := import_amt c; align := align c;
     flags := flags c; full_slab_list := full_slab_list c;
     partial_slab_list := partial_slab_list c;
     empty_slab_list := empty_slab_list c; ctor := ctor c; dtor := dtor c;
     nr_cur_alloc := n; hh := hh c; alloc_hash := alloc_hash c;
     alloc_hash_is_static := alloc_hash_is_static c;
     depot := depot c; pcpu_caches := pcpu_caches c |}.
Definition set_hash (h : hash_helper) (t : list (list Z)) (st : bool)
    (c : kmem_cache) : kmem_cache :=
  {| obj_size := obj_size c; import_amt := import_amt c; align := align c;
     flags := flags c; full_slab_list := full_slab_list c;
     partial_slab_list := partial_slab_list c;
     empty_slab_list := empty_slab_list c; ctor := ctor c; dtor := dtor c;
     nr_cur_alloc := nr_cur_alloc c; hh := h; alloc_hash := t;
     alloc_hash_is_static := st;
     depot := depot c; pcpu_caches := pcpu_caches c |}.
Definition set_depot (d : kmem_depot) (c : kmem_cache) : kmem_cache :=
  {| obj_size := obj_size c; import_amt := import_amt c; align := align c;
     flags := flags c; full_slab_list := full_slab_list c;
     partial_slab_list := partial_slab_list c;
     empty_slab_list := empty_slab_list c; ctor := ctor c; dtor := dtor c;
     nr_cur_alloc := nr_cur_alloc c; hh := hh c;
     alloc_hash := alloc_hash c;
     alloc_hash_is_static := alloc_hash_is_static c;
     depot := d; pcpu_caches := pcpu_caches c |}.
Definition set_pcpu_caches (p : list kmem_pcpu_cache) (c : kmem_cache)
    : kmem_cache :=
  {| obj_size := obj_size c; import_amt := import_amt c; align := align c;
     flags := flags c; full_slab_list := full_slab_list c;
     partial_slab_list := partial_slab_list c;
     empty_slab_list := empty_slab_list c; ctor := ctor c; dtor := dtor c;
     nr_cur_alloc := nr_cur_alloc c; hh := hh c;
     alloc_hash := alloc_hash c;
     alloc_hash_is_static := alloc_hash_is_static c;
     depot := depot c; pcpu_caches := p |}.

Definition set_env_trylock (q : list (option Z)) (e : environment) : environment :=
  {| env_trylock := q; env_arena := env_arena e; env_base := env_base e;
     env_magazine := env_magazine e; env_slab := env_slab e;
     env_bufctl := env_bufctl e |}.
Definition set_env_arena (q : list Z) (e : environment) : environment :=
  {| env_trylock := env_trylock e; env_arena := q; env_base := env_base e;
     env_magazine := env_magazine e; env_slab := env_slab e;
     env_bufctl := env_bufctl e |}.
Definition set_env_base (q : list bool) (e : environment) : environment :=
  {| env_trylock := env_trylock e; env_arena := env_arena e; env_base := q;
     env_magazine := env_magazine e; env_slab := env_slab e;
     env_bufctl := env_bufctl e |}.
Definition set_env_magazine (q : list (Z * kmem_magazine)) (e : environment)
    : environment :=
  {| env_trylock := env_trylock e; env_arena := env_arena e;
     env_base := env_base e; env_magazine := q; env_slab := env_slab e;
     env_bufctl := env_bufctl e |}.
Definition set_env_slab (q : list Z) (e : environment) : environment :=
  {| env_trylock := env_trylock e; env_arena := env_arena e;
     env_base := env_base e; env_magazine := env_magazine e; env_slab := q;
     env_bufctl := env_bufctl e |}.
Definition set_env_bufctl (q : list Z) (e : environment) : environment :=
  {| env_trylock := env_trylock e; env_arena := env_arena e;
     env_base := env_base e; env_magazine := env_magazine e;
     env_slab := env_slab e; env_bufctl := q |}.

Definition set_cache (c : kmem_cache) (s : state) : state :=
  {| cache := c; slabs := slabs s; bufctls := bufctls s;
     magazines := magazines s; mem := mem s; env := env s;
     trace := trace s |}.
Definition set_slabs (m : gmap Z kmem_slab) (s : state) : state :=
  {| cache := cache s; slabs := m; bufctls := bufctls s;
     magazines := magazines s; mem := mem s; env := env s;
     trace := trace s |}.
Definition set_bufctls (m : gmap Z kmem_bufctl) (s : state) : state :=
  {| cache := cache s; slabs := slabs s; bufctls := m;
     magazines := magazines s; mem := mem s; env := env s;
     trace := trace s |}.
Definition set_magazines (m : gmap Z kmem_magazine) (s : state) : state :=
  {| cache := cache s; slabs := slabs s; bufctls := bufctls s;
     magazines := m; mem := mem s; env := env s; trace := trace s |}.
Definition set_mem (m : gmap Z Z) (s : state) : state :=
  {| cache := cache s; slabs := slabs s; bufctls := bufctls s;
     magazines := magazines s; mem := m; env := env s; trace := trace s |}.
Definition set_env (e : environment) (s : state) : state :=
  {| cache := cache s; slabs := slabs s; bufctls := bufctls s;
     magazines := magazines s; mem := mem s; env := e; trace := trace s |}.
Definition set_trace (t : list event) (s : state) : state :=
  {| cache := cache s; slabs := slabs s; bufctls := bufctls s;
     magazines := magazines s; mem := mem s; env := env s; trace := t |}.

(** ** The monad: state, and the ways a call does not return *)

Inductive fault :=
| Panic        (* panic() or a failed assert() *)
| Enomem       (* error(ENOMEM, ...) *)
| Undefined    (* the C code has no defined behaviour here *)
| OutOfFuel.   (* the model's loop bound was reached *)

Inductive result (A : Type) :=
| Ok (a : A) (s : state)
| Fault (f : fault).
Arguments Ok {A} a s.
Arguments Fault {A} f.

Definition M (A : Type) : Type := state → result A.

Definition ret {A} (a : A) : M A := λ s, Ok a s.
Definition bind {A B} (m : M A) (k : A → M B) : M B :=
  λ s, match m s with
       | Ok a s' => k a s'
       | Fault f => Fault f
       end.
Definition fail {A} (f : fault) : M A := λ _, Fault f.
Definition get : M state := λ s, Ok s s.
Definition modify (f : state → state) : M unit := λ s, Ok tt (f s).

Notation "'let*' x ':=' m 'in' k" := (bind m (λ x, k))
  (at level 10, x name, m at level 100, k at level 200, only parsing).
Notation "m ';;' k" := (bind m (λ _, k))
  (at level 100, k at level 200, right associativity, only parsing).

(** A read through a pointer that does not point to an object. *)
Definition defined {A} (o : option A) : M A :=
  match o with
  | Some a => ret a
  | None => fail Undefined
  end.

Definition get_cache : M kmem_cache := λ s, Ok (cache s) s.
Definition modify_cache (f : kmem_cache → kmem_cache) : M unit :=
  modify (λ s, set_cache (f (cache s)) s).
Definition emit (e : event) : M unit :=
  modify (λ s, set_trace (trace s ++ [e]) s).

Definition read_slab (a : Z) : M kmem_slab :=
  let* s := get in defined (slabs s !! a).
Definition write_slab (a : Z) (v : kmem_slab) : M unit :=
  modify (λ s, set_slabs (<[a:=v]> (slabs s)) s).
Definition read_bufctl (a : Z) : M kmem_bufctl :=
  let* s := get in defined (bufctls s !! a).
Definition write_bufctl (a : Z) (v : kmem_bufctl) : M unit :=
  modify (λ s, set_bufctls (<[a:=v]> (bufctls s)) s).
Definition read_mag (a : Z) : M kmem_magazine :=
  let* s := get in defined (magazines s !! a).
Definition write_mag (a : Z) (v : kmem_magazine) : M unit :=
  modify (λ s, set_magazines (<[a:=v]> (magazines s)) s).
Definition read_mem (a : Z) : M Z :=
  let* s := get in defined (mem s !! a).
Definition write_mem (a v : Z) : M unit :=
  modify (λ s, set_mem (<[a:=v]> (mem s)) s).
Definition read_pcc (cpu : nat) : M kmem_pcpu_cache :=
  let* c := get_cache in defined (pcpu_caches c !! cpu).
Definition write_pcc (cpu : nat) (p : kmem_pcpu_cache) : M unit :=
  modify_cache (λ c, set_pcpu_caches (<[cpu:=p]> (pcpu_caches c)) c).
Definition modify_depot (f : kmem_depot → kmem_depot) : M unit :=
  modify_cache (λ c, set_depot (f (depot c)) c).

(** Replies of the environment. *)
Definition spin_trylock_irqsave : M (option Z) := λ s,
  Ok (hd None (env_trylock (env s)))
     (set_env (set_env_trylock (tl (env_trylock (env s))) (env s)) s).

Definition arena_alloc (size : Z) : M Z := λ s,
  let r := hd 0 (env_arena (env s)) in
  Ok r (set_trace (trace s ++ [EvArenaAlloc size r])
          (set_env (set_env_arena (tl (env_arena (env s))) (env s)) s)).

Definition arena_free (addr size : Z) : M unit := emit (EvArenaFree addr size).

Definition base_zalloc (nr_lists : Z) : M bool := λ s,
  let r := hd false (env_base (env s)) in
  Ok r (set_trace (trace s ++ [EvBaseZalloc nr_lists r])
          (set_env (set_env_base (tl (env_base (env s))) (env s)) s)).

(** kmem_cache_alloc(kmem_magazine_cache, fl) and the slab allocation
    from the magazine cache in [build_pcpu_caches].  The magazine cache
    is a cache of this allocator, and its constructor [__mag_ctor] always
    returns 0, so the call has no NULL to give: when the magazine cache
    has no object left and cannot grow, [__kmem_alloc_from_slab] raises
    ENOMEM under MEM_ERROR and panics otherwise (lines 511-518).  The
    environment's queue says what the magazine cache has: an empty queue
    or a NULL entry is a magazine cache out of memory; otherwise the
    magazine handed out is what memory holds at the returned address. *)
Definition magazine_cache_alloc `{Platform} (fl : Z) : M Z := λ s,
  let s' := set_env (set_env_magazine (tl (env_magazine (env s))) (env s)) s in
  let oom := if Z.land fl MEM_ERROR =? 0 then Panic else Enomem in
  match env_magazine (env s) with
  | [] => Fault oom
  | (a, m) :: _ =>
      if a =? 0 then Fault oom
      else Ok a (set_trace (trace s ++ [EvCacheAlloc kmem_magazine_cache a])
                   (set_magazines (<[a:=m]> (magazines s)) s'))
  end.

(** [__mag_ctor], the constructor of the magazine cache: it empties the
    magazine it is given, a store to the object itself, and returns 0 on
    every object. *)
Definition __mag_ctor (obj flags : Z) : Z := 0.

Definition slab_cache_alloc : M Z := λ s,
  let r := hd 0 (env_slab (env s)) in
  Ok r (set_trace (trace s ++ [EvCacheAlloc kmem_slab_cache r])
          (set_env (set_env_slab (tl (env_slab (env s))) (env s)) s)).

Definition bufctl_cache_alloc : M Z := λ s,
  let r := hd 0 (env_bufctl (env s)) in
  Ok r (set_trace (trace s ++ [EvCacheAlloc kmem_bufctl_cache r])
          (set_env (set_env_bufctl (tl (env_bufctl (env s))) (env s)) s)).

Definition meta_cache_free (c : meta_cache) (a : Z) : M unit :=
  emit (EvCacheFree c a).

(** Unlinking an element of a queue(3) list: [None] when it is not on
    the list. *)
Fixpoint unlink (elm : Z) (l : list Z) : option (list Z) :=
  match l with
  | [] => None
  | x :: l' => if x =? elm then Some l' else (x ::.) <$> unlink elm l'
  end.

(** ** The functions of slab.c *)

Section slab.
Context `{Platform}.

Definition __use_bufctls (cp : kmem_cache) : bool :=
  negb (Z.land (flags cp) __KMC_USE_BUFCTL =? 0).

(** [lock_depot] after the try-lock failed: [time] is nsec() as read
    before spinning, [depot] the depot as found once the lock is held. *)
Definition lock_depot_contended (time : Z) (depot : kmem_depot) : kmem_depot :=
  if nr_not_empty depot =? 0 then depot
  else
    let depot :=
      if resize_timeout_ns <? wrap UINT64_MAX (time - busy_start depot)
      then set_busy 0 time depot
      else depot in
    let depot :=
      set_busy (wrap UINT_MAX (busy_count depot + 1)) (busy_start depot) depot in
    if resize_threshold <? busy_count depot
    then set_depot_magsize
           (MIN KMC_MAG_MAX_SZ (wrap UINT_MAX (depot_magsize depot + 1)))
           (set_busy 0 (busy_start depot) depot)
    else depot.

Definition lock_depot : M unit :=
  let* r := spin_trylock_irqsave in
  match r with
  | None => ret tt
  | Some time => modify_depot (lock_depot_contended time)
  end.

Definition depot_init : kmem_depot :=
  {| not_empty := []; depot_empty := []; depot_magsize := KMC_MAG_MIN_SZ;
     nr_empty := 0; nr_not_empty := 0; busy_count := 0; busy_start := 0 |}.

Definition mag_is_empty (mag : kmem_magazine) : bool := nr_rounds mag =? 0.

Definition __swap_mags (cpu : nat) : M unit :=
  let* pcc := read_pcc cpu in
  write_pcc cpu (set_loaded_prev (prev pcc) (loaded pcc) pcc).

Definition __return_to_depot (mag : Z) : M unit :=
  let* m := read_mag mag in
  if mag_is_empty m
  then modify_depot (λ d, set_depot_empty (mag :: depot_empty d)
                            (wrap UINT_MAX (nr_empty d + 1)) d)
  else modify_depot (λ d, set_not_empty (mag :: not_empty d)
                            (wrap UINT_MAX (nr_not_empty d + 1)) d).

(** TAILQ_REMOVE(head, elm, link) for an element that is on that list.
    On any other element the macro unlinks it from wherever it is and may
    leave [head] pointing at it; the model stops there. *)
Definition TAILQ_REMOVE (head : list Z) (elm : Z) : M (list Z) :=
  defined (unlink elm head).

(** *** The bufctl hash *)

(** BSD_LIST_INSERT_HEAD(&cp->alloc_hash[hash_idx], bc, link), the index
    being the hash of the bufctl's buffer address. *)
Definition hash_insert (bc : Z) : M unit :=
  let* b := read_bufctl bc in
  let* cp := get_cache in
  let hash_idx := Z.to_nat (hash_ptr (buf_addr b) (nr_hash_bits (hh cp))) in
  let* bucket := defined (alloc_hash cp !! hash_idx) in
  modify_cache (set_hash (hh cp) (<[hash_idx := bc :: bucket]> (alloc_hash cp))
                         (alloc_hash_is_static cp)).

Fixpoint rehash_list (l : list Z) : M unit :=
  match l with
  | [] => ret tt
  | bc_i :: l => hash_insert bc_i;; rehash_list l
  end.

Fixpoint rehash_table (old_tbl : list (list Z)) : M unit :=
  match old_tbl with
  | [] => ret tt
  | b :: t => rehash_list b;; rehash_table t
  end.

Definition __try_hash_resize : M unit :=
  let* cp := get_cache in
  if negb (hash_needs_more (hh cp)) then ret tt
  else
    let new_tbl_nr_lists := hash_next_nr_lists (hh cp) in
    let* new_tbl := base_zalloc new_tbl_nr_lists in
    if negb new_tbl then ret tt
    else
      let old_tbl := alloc_hash cp in
      let old_tbl_nr_lists := nr_hash_lists (hh cp) in
      let old_static := alloc_hash_is_static cp in
      if Z.of_nat (length old_tbl) <? old_tbl_nr_lists then fail Undefined
      else
        modify_cache (set_hash (hash_incr_nr_lists (hh cp))
                         (replicate (Z.to_nat new_tbl_nr_lists) []) false);;
        rehash_table (take (Z.to_nat old_tbl_nr_lists) old_tbl);;
        modify_cache (λ c, set_hash (hash_reset_load_limit (hh c))
                                    (alloc_hash c) (alloc_hash_is_static c) c);;
        if old_static then ret tt else emit EvBaseFree.

Definition hash_count_item (h : hash_helper) : hash_helper :=
  {| nr_hash_lists := nr_hash_lists h; nr_hash_bits := nr_hash_bits h;
     nr_items := wrap SIZE_MAX (nr_items h + 1); load_limit := load_limit h |}.

Definition __track_alloc (bc : Z) : M unit :=
  hash_insert bc;;
  modify_cache (λ c, set_hash (hash_count_item (hh c)) (alloc_hash c)
                              (alloc_hash_is_static c) c);;
  __try_hash_resize.

(** The walk of BSD_LIST_FOREACH in [__yank_bufctl]: the first bufctl of
    the bucket whose [buf_addr] is [buf], and the bucket without it. *)
Fixpoint yank_from (bucket : list Z) (buf : Z) : M (option (Z * list Z)) :=
  match bucket with
  | [] => ret None
  | bc_i :: rest =>
      let* b := read_bufctl bc_i in
      if buf_addr b =? buf then ret (Some (bc_i, rest))
      else
        let* r := yank_from rest buf in
        match r with
        | None => ret None
        | Some (bc, rest') => ret (Some (bc, bc_i :: rest'))
        end
  end.

Definition __yank_bufctl (buf : Z) : M Z :=
  let* cp := get_cache in
  let hash_idx := Z.to_nat (hash_ptr buf (nr_hash_bits (hh cp))) in
  let* bucket := defined (alloc_hash cp !! hash_idx) in
  let* r := yank_from bucket buf in
  match r with
  | None => fail Panic
  | Some (bc_i, rest) =>
      modify_cache (set_hash (hh cp) (<[hash_idx := rest]> (alloc_hash cp))
                             (alloc_hash_is_static cp));;
      ret bc_i
  end.

(** *** Back end *)

(** The loop of the small-object branch of [kmem_cache_grow]: each slot
    stores the address of the next one. *)
Fixpoint link_objects (n : nat) (buf step : Z) : M Z :=
  match n with
  | O => ret buf
  | S n => write_mem buf (buf + step);; link_objects n (buf + step) step
  end.

(** The loop of the bufctl branch.  The source does not check the bufctl
    cache's reply for NULL before writing through it. *)
Fixpoint make_bufctls (n : nat) (a_slab buf step : Z) : M unit :=
  match n with
  | O => ret tt
  | S n =>
      let* a_bufctl := bufctl_cache_alloc in
      if a_bufctl =? 0 then fail Undefined
      else
        let* s := read_slab a_slab in
        write_slab a_slab
          (set_bufctl_freelist (a_bufctl :: bufctl_freelist s) s);;
        write_bufctl a_bufctl {| buf_addr := buf; my_slab := a_slab |};;
        make_bufctls n a_slab (buf + step) step
  end.

(** The two branches of [kmem_cache_grow]: the new slab, or NULL. *)
Definition grow_small : M Z :=
  let* cp := get_cache in
  let* a_page := arena_alloc PGSIZE in
  if a_page =? 0 then ret 0
  else
    let a_slab := a_page + PGSIZE - sizeof_kmem_slab in
    let total := (PGSIZE - sizeof_kmem_slab) / obj_size cp in
    write_slab a_slab {| num_busy_obj := 0; num_total_obj := total;
                         bufctl_freelist := []; free_small_obj := a_page |};;
    let* buf := link_objects (Z.to_nat (wrap SIZE_MAX (total - 1)))
                             a_page (obj_size cp) in
    write_mem buf 0;;
    ret a_slab.

Definition grow_bufctl : M Z :=
  let* cp := get_cache in
  let* a_slab := slab_cache_alloc in
  if a_slab =? 0 then ret 0
  else
    let* buf := arena_alloc (import_amt cp) in
    if buf =? 0 then meta_cache_free kmem_slab_cache a_slab;; ret 0
    else
      let total := import_amt cp / obj_size cp in
      write_slab a_slab {| num_busy_obj := 0; num_total_obj := total;
                           bufctl_freelist := []; free_small_obj := 0 |};;
      make_bufctls (Z.to_nat total) a_slab buf (obj_size cp);;
      ret a_slab.

(** Division by an object size of zero has no defined result. *)
Definition kmem_cache_grow : M bool :=
  let* cp := get_cache in
  if obj_size cp =? 0 then fail Undefined
  else
    let* a_slab := if negb (__use_bufctls cp) then grow_small else grow_bufctl in
    if a_slab =? 0 then ret false
    else
      modify_cache (λ c, set_slab_lists (full_slab_list c) (partial_slab_list c)
                                        (a_slab :: empty_slab_list c) c);;
      ret true.

(** [__kmem_free_to_slab], lines 601-614: the slot goes back on its
    slab's free list; the result is the slab. *)
Definition free_put_object (buf : Z) : M Z :=
  let* cp := get_cache in
  if negb (__use_bufctls cp) then
    let a_slab := ROUNDDOWN buf PGSIZE + PGSIZE - sizeof_kmem_slab in
    let* s := read_slab a_slab in
    write_mem buf (free_small_obj s);;
    write_slab a_slab (set_free_small_obj buf s);;
    ret a_slab
  else
    let* a_bufctl := __yank_bufctl buf in
    let* b := read_bufctl a_bufctl in
    let a_slab := my_slab b in
    let* s := read_slab a_slab in
    write_slab a_slab (set_bufctl_freelist (a_bufctl :: bufctl_freelist s) s);;
    ret a_slab.

(** Lines 615-625: the counters and the slab's list. *)
Definition free_account (a_slab : Z) : M unit :=
  let* s := read_slab a_slab in
  let busy := wrap SIZE_MAX (num_busy_obj s - 1) in
  write_slab a_slab (set_num_busy_obj busy s);;
  modify_cache (λ c, set_nr_cur_alloc (wrap SIZE_MAX (nr_cur_alloc c - 1)) c);;
  let* cp := get_cache in
  if wrap SIZE_MAX (busy + 1) =? num_total_obj s then
    let* full := TAILQ_REMOVE (full_slab_list cp) a_slab in
    modify_cache (set_slab_lists full (a_slab :: partial_slab_list cp)
                                 (empty_slab_list cp))
  else if busy =? 0 then
    let* partial := TAILQ_REMOVE (partial_slab_list cp) a_slab in
    modify_cache (set_slab_lists (full_slab_list cp) partial
                                 (a_slab :: empty_slab_list cp))
  else ret tt.

Definition __kmem_free_to_slab (buf : Z) : M unit :=
  let* a_slab := free_put_object buf in
  free_account a_slab.

(** [__kmem_alloc_from_slab], lines 507-523: the slab to take from. *)
Definition alloc_pick_slab (fl : Z) : M Z :=
  let* cp := get_cache in
  match partial_slab_list cp with
  | a_slab :: _ => ret a_slab
  | [] =>
      (match empty_slab_list cp with
       | [] =>
           let* grown := kmem_cache_grow in
           if grown then ret tt
           else if Z.land fl MEM_ERROR =? 0 then fail Panic
           else fail Enomem
       | _ => ret tt
       end);;
      let* cp := get_cache in
      match empty_slab_list cp with
      | [] => fail Undefined
      | a_slab :: rest =>
          modify_cache (set_slab_lists (full_slab_list cp)
                          (a_slab :: partial_slab_list cp) rest);;
          ret a_slab
      end
  end.

(** Lines 525-537: one slot off the slab's free list. *)
Definition alloc_take_object (a_slab : Z) : M Z :=
  let* cp := get_cache in
  let* s := read_slab a_slab in
  if negb (__use_bufctls cp) then
    let retval := free_small_obj s in
    if retval =? 0 then fail Undefined
    else
      let* next := read_mem retval in
      write_slab a_slab (set_free_small_obj next s);;
      ret retval
  else
    match bufctl_freelist s with
    | [] => fail Undefined
    | a_bufctl :: rest =>
        write_slab a_slab (set_bufctl_freelist rest s);;
        __track_alloc a_bufctl;;
        let* b := read_bufctl a_bufctl in
        ret (buf_addr b)
    end.

(** Lines 538-544: the counters and the slab's list. *)
Definition alloc_account (a_slab : Z) : M unit :=
  let* s := read_slab a_slab in
  let busy := wrap SIZE_MAX (num_busy_obj s + 1) in
  write_slab a_slab (set_num_busy_obj busy s);;
  let* cp := get_cache in
  (if busy =? num_total_obj s then
     let* partial := TAILQ_REMOVE (partial_slab_list cp) a_slab in
     modify_cache (set_slab_lists (a_slab :: full_slab_list cp) partial
                                  (empty_slab_list cp))
   else ret tt);;
  modify_cache (λ c, set_nr_cur_alloc (wrap SIZE_MAX (nr_cur_alloc c + 1)) c).

(** Lines 546-553: the constructor, outside the lock. *)
Definition alloc_construct (retval fl : Z) : M Z :=
  let* cp := get_cache in
  match ctor cp with
  | None => ret retval
  | Some f =>
      let r := f retval fl in
      emit (EvCtor retval fl r);;
      if r =? 0 then ret retval
      else emit EvWarn;; __kmem_free_to_slab retval;; ret 0
  end.

Definition __kmem_alloc_from_slab (fl : Z) : M Z :=
  let* a_slab := alloc_pick_slab fl in
  let* retval := alloc_take_object a_slab in
  alloc_account a_slab;;
  alloc_construct retval fl.

(** *** Front end: per-CPU magazines and the depot

    [cpu] is core_id().  Each pass through the label try_alloc or try_free
    costs one unit of [fuel]. *)

(** Lines 566-570: pop the top round of the loaded magazine. *)
Definition alloc_pop (cpu : nat) (pcc : kmem_pcpu_cache) (l : kmem_magazine)
    : M Z :=
  let* r := defined (rounds l !! Z.to_nat (nr_rounds l - 1)) in
  write_mag (loaded pcc) (set_nr_rounds (wrap UINT_MAX (nr_rounds l - 1)) l);;
  write_pcc cpu (set_nr_allocs_ever (wrap SIZE_MAX (nr_allocs_ever pcc + 1)) pcc);;
  ret r.

(** Lines 580-585: a not-empty magazine from the depot becomes the loaded
    one, the previous one goes to the depot. *)
Definition alloc_exchange (cpu : nat) (pcc : kmem_pcpu_cache) (mag : Z)
    (rest : list Z) : M unit :=
  modify_depot (λ d, set_not_empty rest (wrap UINT_MAX (nr_not_empty d - 1)) d);;
  __return_to_depot (prev pcc);;
  write_pcc cpu (set_loaded_prev mag (loaded pcc) pcc).

Fixpoint kmem_cache_alloc (fuel : nat) (cpu : nat) (fl : Z) : M Z :=
  match fuel with
  | O => fail OutOfFuel
  | S fuel =>
      let* pcc := read_pcc cpu in
      let* l := read_mag (loaded pcc) in
      if negb (nr_rounds l =? 0) then alloc_pop cpu pcc l
      else
        let* p := read_mag (prev pcc) in
        if negb (mag_is_empty p) then
          __swap_mags cpu;; kmem_cache_alloc fuel cpu fl
        else
          lock_depot;;
          let* cp := get_cache in
          match not_empty (depot cp) with
          | mag :: rest =>
              alloc_exchange cpu pcc mag rest;;
              kmem_cache_alloc fuel cpu fl
          | [] => __kmem_alloc_from_slab fl
          end
  end.

(** Lines 638-639: push on the loaded magazine.  A write past the end of
    the [rounds] array has no defined behaviour. *)
Definition free_push (pcc : kmem_pcpu_cache) (l : kmem_magazine) (buf : Z)
    : M unit :=
  if Z.of_nat (length (rounds l)) <=? nr_rounds l then fail Undefined
  else
    write_mag (loaded pcc)
      (set_nr_rounds (wrap UINT_MAX (nr_rounds l + 1))
         (set_rounds (<[Z.to_nat (nr_rounds l) := buf]> (rounds l)) l)).

(** Lines 656-661: an empty magazine from the depot becomes the loaded
    one, the previous one goes to the depot. *)
Definition free_exchange (cpu : nat) (pcc : kmem_pcpu_cache) (mag : Z)
    (rest : list Z) : M unit :=
  modify_depot (λ d, set_depot_empty rest (wrap UINT_MAX (nr_empty d - 1)) d);;
  __return_to_depot (prev pcc);;
  write_pcc cpu (set_loaded_prev mag (loaded pcc) pcc).

(** Lines 671-675: a fresh magazine joins the depot's empty list. *)
Definition free_add_magazine (mag : Z) : M unit :=
  let* m := read_mag mag in
  if negb (nr_rounds m =? 0) then fail Panic
  else
    lock_depot;;
    modify_depot (λ d, set_depot_empty (mag :: depot_empty d)
                         (wrap UINT_MAX (nr_empty d + 1)) d).

(** Lines 679-681: past the magazines, straight to the slab layer. *)
Definition free_bypass (buf : Z) : M unit :=
  let* cp := get_cache in
  (if dtor cp then emit (EvDtor buf) else ret tt);;
  __kmem_free_to_slab buf.

Fixpoint kmem_cache_free (fuel : nat) (cpu : nat) (buf : Z) : M unit :=
  match fuel with
  | O => fail OutOfFuel
  | S fuel =>
      let* pcc := read_pcc cpu in
      let* l := read_mag (loaded pcc) in
      if nr_rounds l <? magsize pcc then free_push pcc l buf
      else
        let* p := read_mag (prev pcc) in
        if nr_rounds p <? magsize pcc then
          __swap_mags cpu;; kmem_cache_free fuel cpu buf
        else
          lock_depot;;
          let* cp := get_cache in
          let pcc := set_magsize (depot_magsize (depot cp)) pcc in
          write_pcc cpu pcc;;
          match depot_empty (depot cp) with
          | mag :: rest =>
              free_exchange cpu pcc mag rest;;
              kmem_cache_free fuel cpu buf
          | [] =>
              let* mag := magazine_cache_alloc MEM_ATOMIC in
              if mag =? 0 then free_bypass buf
              else free_add_magazine mag;; kmem_cache_free fuel cpu buf
          end
  end.

(** *** Releasing slabs *)

Fixpoint free_bufctls (l : list Z) (buf_start : Z) : M Z :=
  match l with
  | [] => ret buf_start
  | i :: l =>
      let* b := read_bufctl i in
      let buf_start := MIN buf_start (buf_addr b) in
      meta_cache_free kmem_bufctl_cache i;;
      modify (λ s, set_bufctls (delete i (bufctls s)) s);;
      free_bufctls l buf_start
  end.

(** Freed memory is dropped from the model's heaps, so that a later use
    of a dangling pointer shows as [Undefined]. *)
Definition kmem_slab_destroy (a_slab : Z) : M unit :=
  let* cp := get_cache in
  if negb (__use_bufctls cp) then
    arena_free (ROUNDDOWN a_slab PGSIZE) PGSIZE;;
    modify (λ s, set_slabs (delete a_slab (slabs s)) s)
  else
    let* s := read_slab a_slab in
    let* buf_start := free_bufctls (bufctl_freelist s) SIZE_MAX in
    arena_free buf_start (import_amt cp);;
    meta_cache_free kmem_slab_cache a_slab;;
    modify (λ s, set_slabs (delete a_slab (slabs s)) s).

(** The while loop of [kmem_cache_reap]: TAILQ_NEXT is read before the
    slab is destroyed, so the walk visits the list as it was on entry. *)
Fixpoint reap_slabs (l : list Z) : M unit :=
  match l with
  | [] => ret tt
  | a_slab :: next => kmem_slab_destroy a_slab;; reap_slabs next
  end.

Definition kmem_cache_reap : M unit :=
  let* cp := get_cache in
  reap_slabs (empty_slab_list cp).

(** *** Creation *)

Fixpoint build_pcpu_caches (n : nat) : M (list kmem_pcpu_cache) :=
  match n with
  | O => ret []
  | S n =>
      let* l := magazine_cache_alloc MEM_WAIT in
      let* p := magazine_cache_alloc MEM_WAIT in
      let* rest := build_pcpu_caches n in
      ret ({| magsize := KMC_MAG_MIN_SZ; loaded := l; prev := p;
              nr_allocs_ever := 0 |} :: rest)
  end.

(** [qcache_max] is source->qcache_max. *)
Definition __kmem_cache_create (size : Z) (algn : Z) (fl : Z) (qcache_max : Z)
    (ctr : option (Z → Z → Z)) (dtr : bool) : M unit :=
  if algn =? 0 then fail Panic
  else if PGSIZE <? algn then fail Panic
  else
    let fl' := if (SLAB_LARGE_CUTOFF <? size) || negb (Z.land fl KMC_NOTOUCH =? 0)
               then Z.lor fl __KMC_USE_BUFCTL else fl in
    modify (set_cache
      {| obj_size := ROUNDUP size algn;
         import_amt := if negb (Z.land fl KMC_QCACHE =? 0)
                       then ROUNDUPPWR2 (3 * qcache_max)
                       else ROUNDUP (NUM_BUF_PER_SLAB * size) PGSIZE;
         align := algn; flags := fl';
         full_slab_list := []; partial_slab_list := []; empty_slab_list := [];
         ctor := ctr; dtor := dtr; nr_cur_alloc := 0;
         hh := hash_init_hh;
         alloc_hash := replicate (Z.to_nat (nr_hash_lists hash_init_hh)) [];
         alloc_hash_is_static := true;
         depot := depot_init; pcpu_caches := [] |});;
    let* pccs := build_pcpu_caches num_cores in
    modify_cache (set_pcpu_caches pccs).

End slab.

(** ** A concrete platform

    The values of an x86-64 build, for the examples: 4 KiB pages, a
    40-byte slab record, magazines of 8 to 62 rounds, a 32-list initial
    hash table resized at load factor 13/20, and a multiplicative pointer
    hash. *)

Definition example_hash_ptr (p bits : Z) : Z :=
  Z.shiftr (wrap UINT64_MAX (p * 11400862456688148481)) (64 - bits).

Definition x86_64 : Platform :=
  {| PGSIZE := 4096; SIZE_MAX := UINT64_MAX; UINT_MAX := 2 ^ 32 - 1;
     sizeof_kmem_slab := 40; num_cores := 1;
     KMC_MAG_MIN_SZ := 8; KMC_MAG_MAX_SZ := 62;
     NUM_BUF_PER_SLAB := 8; SLAB_LARGE_CUTOFF := 512;
     KMC_QCACHE := 2; KMC_NOTOUCH := 1; __KMC_USE_BUFCTL := 4096;
     MEM_ATOMIC := 2; MEM_WAIT := 4; MEM_ERROR := 8;
     hash_init_hh := {| nr_hash_lists := 32; nr_hash_bits := 5;
                        nr_items := 0; load_limit := 20 |};
     hash_ptr := example_hash_ptr;
     hash_needs_more := λ h, load_limit h <? nr_items h;
     hash_next_nr_lists := λ h, 2 ^ (nr_hash_bits h + 1);
     hash_incr_nr_lists := λ h,
       {| nr_hash_lists := 2 ^ (nr_hash_bits h + 1);
          nr_hash_bits := nr_hash_bits h + 1;
          nr_items := nr_items h; load_limit := load_limit h |};
     hash_reset_load_limit := λ h,
       {| nr_hash_lists := nr_hash_lists h; nr_hash_bits := nr_hash_bits h;
          nr_items := nr_items h;
          load_limit := nr_hash_lists h * 13 / 20 |} |}.

Definition empty_magazine : kmem_magazine :=
  {| nr_rounds := 0; rounds := replicate 62 0 |}.

Definition empty_cache : kmem_cache :=
  {| obj_size := 0; import_amt := 0; align := 0; flags := 0;
     full_slab_list := []; partial_slab_list := []; empty_slab_list := [];
     ctor := None; dtor := false; nr_cur_alloc := 0;
     hh := {| nr_hash_lists := 0; nr_hash_bits := 0; nr_items := 0;
              load_limit := 0 |};
     alloc_hash := []; alloc_hash_is_static := true;
     depot := {| not_empty := []; depot_empty := []; depot_magsize := 0;
                 nr_empty := 0; nr_not_empty := 0; busy_count := 0;
                 busy_start := 0 |};
     pcpu_caches := [] |}.

(** Memory before the cache exists, with the environment's replies. *)
Definition boot (e : environment) : state :=
  {| cache := empty_cache; slabs := ∅; bufctls := ∅; magazines := ∅;
     mem := ∅; env := e; trace := [] |}.

(** ** The contention accounting as the specification words it

    "If there are no not-empty magazines, skip accounting.  Otherwise, if
    the sampled time is later than busy_start + resize_timeout, reset
    busy_count = 0 and busy_start = now.  Increment busy_count.  If it
    exceeds resize_threshold, reset it and bump the depot's magsize by
    one, capped at a maximum."  Written over the integers. *)

Section accounting_spec.
Context `{Platform}.

Definition lock_depot_spec (time : Z) (depot : kmem_depot) : kmem_depot :=
  if nr_not_empty depot =? 0 then depot
  else
    let depot :=
      if busy_start depot + resize_timeout_ns <? time
      then set_busy 0 time depot
      else depot in
    let depot := set_busy (busy_count depot + 1) (busy_start depot) depot in
    if resize_threshold <? busy_count depot
    then set_depot_magsize (Z.min KMC_MAG_MAX_SZ (depot_magsize depot + 1))
           (set_busy 0 (busy_start depot) depot)
    else depot.

End accounting_spec.

(** A depot in the middle of an accounting window: one contended
    acquisition counted so far, the window opened at 2000000010 ns by a
    waiter that sampled the clock later than the next one to get the
    lock. *)
Definition depot_in_window : kmem_depot :=
  {| not_empty := [4096]; depot_empty := []; depot_magsize := 8;
     nr_empty := 0; nr_not_empty := 1; busy_count := 1;
     busy_start := 2000000010 |}.

(** ** What a well-formed cache looks like *)

Section invariants.
Context `{Platform}.

Definition hash_ok (h : hash_helper) : Prop :=
  0 ≤ nr_hash_bits h ∧ 0 ≤ nr_hash_lists h
  ∧ ∀ p, 0 ≤ hash_ptr p (nr_hash_bits h) < nr_hash_lists h.

(** What the development needs of the platform's constants and of its
    hash helpers. *)
Class PlatformOk : Prop := {
  pgsize_pos : 0 < PGSIZE;
  slab_record_fits : 0 < sizeof_kmem_slab < PGSIZE;
  size_max_pos : 0 < SIZE_MAX;
  mag_min_max : 0 < KMC_MAG_MIN_SZ ≤ KMC_MAG_MAX_SZ;
  mag_max_uint : KMC_MAG_MAX_SZ < UINT_MAX;
  hash_init_ok : hash_ok hash_init_hh;
  hash_incr_ok : ∀ h, hash_ok h →
    hash_ok (hash_incr_nr_lists h)
    ∧ nr_hash_lists (hash_incr_nr_lists h) = hash_next_nr_lists h;
  hash_reset_ok : ∀ h,
    nr_hash_lists (hash_reset_load_limit h) = nr_hash_lists h
    ∧ nr_hash_bits (hash_reset_load_limit h) = nr_hash_bits h;
}.

(** *** The magazine layer

    The layer's state is the per-CPU caches, the depot, the magazines in
    memory and the magazines the magazine cache has yet to hand out. *)

Definition pcc_magazines (p : kmem_pcpu_cache) : list Z := [loaded p; prev p].

(** Every magazine the cache holds: two per CPU, then the depot's. *)
Definition owned_magazines (pccs : list kmem_pcpu_cache) (d : kmem_depot)
    : list Z :=
  (pccs ≫= pcc_magazines) ++ not_empty d ++ depot_empty d.

Definition mag_contents (m : kmem_magazine) : list Z :=
  take (Z.to_nat (nr_rounds m)) (rounds m).

Definition held_by (mags : gmap Z kmem_magazine) (a : Z) : list Z :=
  from_option mag_contents [] (mags !! a).

Definition mag_ok (m : kmem_magazine) : Prop :=
  0 ≤ nr_rounds m ≤ KMC_MAG_MAX_SZ
  ∧ Z.of_nat (length (rounds m)) = KMC_MAG_MAX_SZ.

(** Addresses the magazine cache will hand out. *)
Definition future_magazines (q : list (Z * kmem_magazine)) : list Z :=
  filter (λ a, a ≠ 0) (fst <$> q).

Record front_ok (pccs : list kmem_pcpu_cache) (d : kmem_depot)
    (mags : gmap Z kmem_magazine) (q : list (Z * kmem_magazine)) : Prop := {
  owned_nodup : NoDup (owned_magazines pccs d);
  owned_ok : ∀ a, a ∈ owned_magazines pccs d →
    ∃ m, mags !! a = Some m ∧ mag_ok m;
  depot_empty_ok : ∀ a m, a ∈ depot_empty d → mags !! a = Some m →
    nr_rounds m = 0;
  depot_magsize_ok : 0 < depot_magsize d ≤ KMC_MAG_MAX_SZ;
  pcc_magsize_ok : ∀ p, p ∈ pccs → magsize p ≤ KMC_MAG_MAX_SZ;
  future_fresh : NoDup (future_magazines q);
  future_new : ∀ a, a ∈ future_magazines q → a ∉ owned_magazines pccs d;
  future_ok : ∀ a m, (a, m) ∈ q → a ≠ 0 → nr_rounds m = 0 ∧ mag_ok m;
}.

(** The objects that sit in the cache's magazines. *)
Definition cached_objects (s : state) : list Z :=
  owned_magazines (pcpu_caches (cache s)) (depot (cache s))
    ≫= held_by (magazines s).

Definition front_inv (s : state) : Prop :=
  front_ok (pcpu_caches (cache s)) (depot (cache s)) (magazines s)
           (env_magazine (env s)).

(** A magazine after a push and after a pop. *)
Definition pushed (l : kmem_magazine) (x : Z) : kmem_magazine :=
  {| nr_rounds := nr_rounds l + 1;
     rounds := <[Z.to_nat (nr_rounds l) := x]> (rounds l) |}.
Definition popped (l : kmem_magazine) : kmem_magazine :=
  set_nr_rounds (nr_rounds l - 1) l.

(** The depot once [__return_to_depot] has put magazine [m], at address
    [mag], on the list that fits its state. *)
Definition depot_after_return (mag : Z) (m : kmem_magazine) (d : kmem_depot)
    : kmem_depot :=
  if mag_is_empty m
  then set_depot_empty (mag :: depot_empty d) (wrap UINT_MAX (nr_empty d + 1)) d
  else set_not_empty (mag :: not_empty d) (wrap UINT_MAX (nr_not_empty d + 1)) d.

(** The state once [alloc_pop] has taken the top round of the loaded
    magazine [l] of CPU [cpu], whose cache is [pcc]. *)
Definition state_after_pop (cpu : nat) (pcc : kmem_pcpu_cache)
    (l : kmem_magazine) (s : state) : state :=
  let s1 := set_magazines (<[loaded pcc := popped l]> (magazines s)) s in
  set_cache
    (set_pcpu_caches
       (<[cpu := set_nr_allocs_ever (wrap SIZE_MAX (nr_allocs_ever pcc + 1)) pcc]>
          (pcpu_caches (cache s1)))
       (cache s1)) s1.

(** The state once [lock_depot] has returned. *)
Definition depot_locked (s : state) : state :=
  let s' := set_env (set_env_trylock (tl (env_trylock (env s))) (env s)) s in
  match hd None (env_trylock (env s)) with
  | None => s'
  | Some time =>
      set_cache (set_depot (lock_depot_contended time (depot (cache s)))
                           (cache s)) s'
  end.

(** Events that are no import of memory for a slab. *)
Definition quiet (e : event) : Prop :=
  match e with
  | EvCacheAlloc kmem_slab_cache _ | EvArenaAlloc _ _ => False
  | _ => True
  end.

(** [s'] differs from [s] in the magazine layer at most: the slab layer,
    its memory and its share of the environment are the same, and the
    events in between import nothing. *)
Record back_same (s s' : state) : Prop := {
  bs_cache : cache s' = set_depot (depot (cache s'))
                          (set_pcpu_caches (pcpu_caches (cache s')) (cache s));
  bs_slabs : slabs s' = slabs s;
  bs_bufctls : bufctls s' = bufctls s;
  bs_mem : mem s' = mem s;
  bs_arena : env_arena (env s') = env_arena (env s);
  bs_base : env_base (env s') = env_base (env s);
  bs_slab : env_slab (env s') = env_slab (env s);
  bs_bufctl : env_bufctl (env s') = env_bufctl (env s);
  bs_trace : ∃ evs, trace s' = trace s ++ evs ∧ Forall quiet evs;
}.

End invariants.

(** ** The slab layer and its share of the state *)

(** [m] relates every state it runs to completion from to the state it
    ends in. *)
Definition preserves {A} (R : state → state → Prop) (m : M A) : Prop :=
  ∀ s a s', m s = Ok a s' → R s s'.

(** [s'] differs from [s] in the slab layer at most: magazines, per-CPU
    caches, depot, the replies awaited from the try-lock and from the
    magazine cache, and the fields of the cache that are set at creation
    are the same. *)
Record slab_frame (s s' : state) : Prop := {
  sf_magazines : magazines s' = magazines s;
  sf_pcpu : pcpu_caches (cache s') = pcpu_caches (cache s);
  sf_depot : depot (cache s') = depot (cache s);
  sf_env_magazine : env_magazine (env s') = env_magazine (env s);
  sf_env_trylock : env_trylock (env s') = env_trylock (env s);
  sf_obj_size : obj_size (cache s') = obj_size (cache s);
  sf_import_amt : import_amt (cache s') = import_amt (cache s);
  sf_align : align (cache s') = align (cache s);
  sf_flags : flags (cache s') = flags (cache s);
  sf_ctor : ctor (cache s') = ctor (cache s);
  sf_dtor : dtor (cache s') = dtor (cache s);
}.

Section slab_invariants.
Context `{Platform}.

Definition slab_lists (c : kmem_cache) : list Z :=
  full_slab_list c ++ partial_slab_list c ++ empty_slab_list c.

(** Slots per slab and bytes per imported region, as [kmem_cache_grow]
    computes them. *)
Definition slab_capacity (c : kmem_cache) : Z :=
  if __use_bufctls c then import_amt c / obj_size c
  else (PGSIZE - sizeof_kmem_slab) / obj_size c.

Definition region_size (c : kmem_cache) : Z :=
  if __use_bufctls c then import_amt c else PGSIZE.

(** The geometry of a cache's slabs. *)
Record geometry := {
  g_obj : Z;      (* bytes per slot *)
  g_cap : Z;      (* slots per slab *)
  g_rsize : Z;    (* bytes per imported region *)
}.

Definition cache_geometry (c : kmem_cache) : geometry :=
  {| g_obj := obj_size c; g_cap := slab_capacity c; g_rsize := region_size c |}.

Record geometry_ok (g : geometry) : Prop := {
  obj_size_pos : 0 < g_obj g;
  capacity_ok : 1 ≤ g_cap g ≤ SIZE_MAX;
  slots_fit : g_cap g * g_obj g ≤ g_rsize g;
}.

(** The slots of the region that starts at [R]. *)
Definition slot_addrs (g : geometry) (R : Z) : list Z :=
  (λ i, R + i * g_obj g) <$> seqZ 0 (g_cap g).

Definition in_region (g : geometry) (R x : Z) : Prop :=
  R ≤ x < R + g_rsize g.

Global Instance in_region_dec g R x : Decision (in_region g R x).
Proof. unfold in_region. apply _. Defined.

(** The slab lists and the slab records, against the objects [A] that
    are out of the slab layer, the start [G a] of the region of each slab
    [a] and the addresses [F a] of its free slots. *)
Record slabs_ok (g : geometry) (A : list Z) (G : Z → Z) (F : Z → list Z)
    (full partial empty : list Z) (sl : gmap Z kmem_slab) : Prop := {
  lists_nodup : NoDup (full ++ partial ++ empty);
  regions_apart : ∀ a a' x, a ∈ full ++ partial ++ empty →
    a' ∈ full ++ partial ++ empty →
    in_region g (G a) x → in_region g (G a') x → a = a';
  regions_pos : ∀ a, a ∈ full ++ partial ++ empty → 0 < G a;
  outstanding_owned : ∀ x, x ∈ A →
    ∃ a, a ∈ full ++ partial ++ empty ∧ in_region g (G a) x;
  slab_ok : ∀ a, a ∈ full ++ partial ++ empty →
    ∃ s, sl !! a = Some s
         ∧ num_total_obj s = g_cap g
         ∧ num_busy_obj s = Z.of_nat (length (filter (in_region g (G a)) A))
         ∧ F a ++ filter (in_region g (G a)) A ≡ₚ slot_addrs g (G a);
  full_ok : ∀ a s, a ∈ full → sl !! a = Some s → num_busy_obj s = g_cap g;
  partial_ok : ∀ a s, a ∈ partial → sl !! a = Some s →
    num_busy_obj s < g_cap g;
  empty_ok : ∀ a s, a ∈ empty → sl !! a = Some s → num_busy_obj s = 0;
}.

End slab_invariants.

(** [slabs_ok] of a state. *)
Definition slabs_inv (g : geometry) (A : list Z) (G : Z → Z) (F : Z → list Z)
    (s : state) : Prop :=
  slabs_ok g A G F (full_slab_list (cache s)) (partial_slab_list (cache s))
           (empty_slab_list (cache s)) (slabs s).

(** [F] with the free slots of slab [a] replaced. *)
Definition with_free (a : Z) (l : list Z) (F : Z → list Z) : Z → list Z :=
  λ b, if decide (b = a) then l else F b.

(** [s'] differs from [s] in the slab lists, the live-allocation counter
    and the slab records at most. *)
Record account_frame (s s' : state) : Prop := {
  af_cache : cache s' =
    set_nr_cur_alloc (nr_cur_alloc (cache s'))
      (set_slab_lists (full_slab_list (cache s')) (partial_slab_list (cache s'))
                      (empty_slab_list (cache s')) (cache s));
  af_bufctls : bufctls s' = bufctls s;
  af_magazines : magazines s' = magazines s;
  af_mem : mem s' = mem s;
  af_env : env s' = env s;
  af_trace : trace s' = trace s;
}.

(** ** The slab layer of a cache that uses bufctls *)

Section bufctl_invariants.
Context `{Platform}.

Definition freelist_of (sl : gmap Z kmem_slab) (a : Z) : list Z :=
  from_option bufctl_freelist [] (sl !! a).

Definition addr_of (bcs : gmap Z kmem_bufctl) (bc : Z) : Z :=
  from_option buf_addr 0 (bcs !! bc).

(** The addresses of the free slots of slab [a]. *)
Definition free_addrs (sl : gmap Z kmem_slab) (bcs : gmap Z kmem_bufctl)
    (a : Z) : list Z :=
  addr_of bcs <$> freelist_of sl a.

(** The bufctls in the hash. *)
Definition hashed_bufctl_ptrs (s : state) : list Z :=
  concat (alloc_hash (cache s)).

(** The imports of [kmem_cache_grow]'s bufctl branch, read off the
    trace: the slab record the slab cache handed out, and the region the
    arena handed out right after. *)
Fixpoint slab_imports (t : list event) : list (Z * Z) :=
  match t with
  | [] => []
  | EvCacheAlloc kmem_slab_cache a :: t' =>
      match t' with
      | EvArenaAlloc _ R :: _ =>
          if decide (a ≠ 0 ∧ R ≠ 0) then (a, R) :: slab_imports t'
          else slab_imports t'
      | _ => slab_imports t'
      end
  | _ :: t' => slab_imports t'
  end.

Fixpoint assoc_lookup (a : Z) (l : list (Z * Z)) : option Z :=
  match l with
  | [] => None
  | (k, v) :: l' => if decide (k = a) then Some v else assoc_lookup a l'
  end.

(** The start of the region imported for slab [a]. *)
Definition region_of_slab (t : list event) (a : Z) : Z :=
  default 0 (assoc_lookup a (slab_imports t)).

(** The hash table holds the bufctls [L], each in the bucket of its
    buffer address. *)
Record hash_inv (L : list Z) (s : state) : Prop := {
  hi_len : Z.of_nat (length (alloc_hash (cache s))) = nr_hash_lists (hh (cache s));
  hi_ok : hash_ok (hh (cache s));
  hi_content : concat (alloc_hash (cache s)) ≡ₚ L;
  hi_placed : ∀ i bucket bc, alloc_hash (cache s) !! i = Some bucket →
    bc ∈ bucket →
    ∃ b, bufctls s !! bc = Some b
         ∧ Z.to_nat (hash_ptr (buf_addr b) (nr_hash_bits (hh (cache s)))) = i;
}.

Definition apart (g : geometry) (R R' : Z) : Prop :=
  ∀ x, in_region g R x → in_region g R' x → False.

Fixpoint all_apart (g : geometry) (Rs : list Z) : Prop :=
  match Rs with
  | [] => True
  | R :: Rs' => Forall (apart g R) Rs' ∧ all_apart g Rs'
  end.

Definition nonnull (l : list Z) : list Z := filter (λ a, a ≠ 0) l.

(** What the slab layer's share of the environment will answer: slab
    records and bufctls that are not in use, regions that overlap neither
    each other nor a region in use. *)
Record bufctl_env_ok (g : geometry) (G : Z → Z) (s : state) : Prop := {
  be_slab_nodup : NoDup (nonnull (env_slab (env s)));
  be_slab_new : ∀ a, a ∈ nonnull (env_slab (env s)) → slabs s !! a = None;
  be_bufctl_nodup : NoDup (nonnull (env_bufctl (env s)));
  be_bufctl_new : ∀ bc, bc ∈ nonnull (env_bufctl (env s)) →
    bufctls s !! bc = None;
  be_arena_apart : all_apart g (nonnull (env_arena (env s)));
  be_arena_pos : ∀ R, R ∈ nonnull (env_arena (env s)) → 0 < R;
  be_arena_new : ∀ R a, R ∈ nonnull (env_arena (env s)) →
    a ∈ slab_lists (cache s) → apart g R (G a);
}.

(** The whole of it, against the objects [A] out of the slab layer. *)
Record bufctl_inv (A : list Z) (s : state) : Prop := {
  bi_geometry : geometry_ok (cache_geometry (cache s));
  bi_slabs : slabs_inv (cache_geometry (cache s)) A
               (region_of_slab (trace s))
               (free_addrs (slabs s) (bufctls s)) s;
  bi_hash : hash_inv (hashed_bufctl_ptrs s) s;
  bi_free : ∀ a bc, a ∈ slab_lists (cache s) → bc ∈ freelist_of (slabs s) a →
    ∃ b, bufctls s !! bc = Some b ∧ my_slab b = a;
  bi_hashed : ∀ bc, bc ∈ hashed_bufctl_ptrs s →
    ∃ b, bufctls s !! bc = Some b
         ∧ my_slab b ∈ slab_lists (cache s)
         ∧ in_region (cache_geometry (cache s))
                     (region_of_slab (trace s) (my_slab b)) (buf_addr b);
  bi_addrs : addr_of (bufctls s) <$> hashed_bufctl_ptrs s ≡ₚ A;
  bi_imported : ∀ a R, (a, R) ∈ slab_imports (trace s) →
    a ∈ slab_lists (cache s);
  bi_env : bufctl_env_ok (cache_geometry (cache s))
             (region_of_slab (trace s)) s;
}.

(** [s'] differs from [s] in the hash table, in the replies awaited from
    the base allocator and by events that import nothing. *)
Record hash_step (s s' : state) : Prop := {
  hs_cache : cache s' =
    set_hash (hh (cache s')) (alloc_hash (cache s'))
             (alloc_hash_is_static (cache s')) (cache s);
  hs_slabs : slabs s' = slabs s;
  hs_bufctls : bufctls s' = bufctls s;
  hs_magazines : magazines s' = magazines s;
  hs_mem : mem s' = mem s;
  hs_env : env s' = set_env_base (env_base (env s')) (env s);
  hs_trace : ∃ evs, trace s' = trace s ++ evs ∧ Forall quiet evs;
}.

End bufctl_invariants.

(** ** The slab layer of a cache whose slabs sit in their own page *)

Section embedded_invariants.
Context `{Platform}.

(** The free slots of a slab, from the first one [x]: each holds the
    address of the next, NULL ends the chain. *)
Fixpoint chain (m : gmap Z Z) (x : Z) (l : list Z) : Prop :=
  match l with
  | [] => x = 0
  | y :: l' => x = y ∧ y ≠ 0 ∧ ∃ next, m !! y = Some next ∧ chain m next l'
  end.

(** The page of the slab whose record is at [a]. *)
Definition page_of_slab (a : Z) : Z := a - (PGSIZE - sizeof_kmem_slab).

Definition page_aligned (R : Z) : Prop := ROUNDDOWN R PGSIZE = R.

(** The pages the arena will answer with: aligned, and overlapping
    neither each other nor a page in use. *)
Record embedded_env_ok (g : geometry) (s : state) : Prop := {
  ee_arena_apart : all_apart g (nonnull (env_arena (env s)));
  ee_arena_pos : ∀ R, R ∈ nonnull (env_arena (env s)) → 0 < R;
  ee_arena_aligned : ∀ R, R ∈ nonnull (env_arena (env s)) → page_aligned R;
  ee_arena_new : ∀ R a, R ∈ nonnull (env_arena (env s)) →
    a ∈ slab_lists (cache s) → apart g R (page_of_slab a);
}.

(** The whole of it, against the objects [A] out of the slab layer and
    the free slots [F a] of each slab [a]. *)
Record embedded_inv (A : list Z) (F : Z → list Z) (s : state) : Prop := {
  ei_geometry : geometry_ok (cache_geometry (cache s));
  ei_slabs : slabs_inv (cache_geometry (cache s)) A page_of_slab F s;
  ei_chain : ∀ a sa, a ∈ slab_lists (cache s) → slabs s !! a = Some sa →
    chain (mem s) (free_small_obj sa) (F a);
  ei_aligned : ∀ a, a ∈ slab_lists (cache s) → page_aligned (page_of_slab a);
  ei_hash : hash_inv [] s;
  ei_env : embedded_env_ok (cache_geometry (cache s)) s;
}.

(** The start of the region of slab [a]. *)
Definition slab_region (s : state) (a : Z) : Z :=
  if __use_bufctls (cache s) then region_of_slab (trace s) a
  else page_of_slab a.

(** The invariant of the slab layer in either mode. *)
Definition back_inv (A : list Z) (s : state) : Prop :=
  if __use_bufctls (cache s) then bufctl_inv A s
  else ∃ F, embedded_inv A F s.

(** [s'] has the slab layer of [s]: the slab lists, the hash, the
    counters, the slab records, the bufctls, the object memory and the
    replies awaited by the slab layer are the same, and the events in
    between import nothing. *)
Record back_eq (s s' : state) : Prop := {
  bq_obj_size : obj_size (cache s') = obj_size (cache s);
  bq_import_amt : import_amt (cache s') = import_amt (cache s);
  bq_flags : flags (cache s') = flags (cache s);
  bq_full : full_slab_list (cache s') = full_slab_list (cache s);
  bq_partial : partial_slab_list (cache s') = partial_slab_list (cache s);
  bq_empty : empty_slab_list (cache s') = empty_slab_list (cache s);
  bq_hh : hh (cache s') = hh (cache s);
  bq_alloc_hash : alloc_hash (cache s') = alloc_hash (cache s);
  bq_nr_cur_alloc : nr_cur_alloc (cache s') = nr_cur_alloc (cache s);
  bq_slabs : slabs s' = slabs s;
  bq_bufctls : bufctls s' = bufctls s;
  bq_mem : mem s' = mem s;
  bq_arena : env_arena (env s') = env_arena (env s);
  bq_slab : env_slab (env s') = env_slab (env s);
  bq_bufctl : env_bufctl (env s') = env_bufctl (env s);
  bq_trace : ∃ evs, trace s' = trace s ++ evs ∧ Forall quiet evs;
}.

End embedded_invariants.

(** ** Caches in use

    A cache is created on a machine whose allocators will answer well,
    and then only allocated from and freed to. *)

(** Memory once it holds the magazines [q], each at its address. *)
Definition store_magazines (mags : gmap Z kmem_magazine)
    (q : list (Z * kmem_magazine)) : gmap Z kmem_magazine :=
  foldl (λ mg am, <[fst am:=snd am]> mg) mags q.

Section reach.
Context `{Platform}.

(** What is asked of the environment's replies for a cache of geometry
    [g]: the magazine cache has a magazine for each CPU's loaded and
    previous slot, its magazines are empty and distinct, the slab and
    bufctl caches hand out an address once, and the arena hands out
    aligned regions that do not overlap. *)
Record env_ok (g : geometry) (e : environment) : Prop := {
  eo_first : ∃ q0 q1, env_magazine e = q0 ++ q1
               ∧ length q0 = (2 * num_cores)%nat
               ∧ Forall (λ am, fst am ≠ 0) q0;
  eo_mag_fresh : NoDup (future_magazines (env_magazine e));
  eo_mag_ok : ∀ a m, (a, m) ∈ env_magazine e → a ≠ 0 →
    nr_rounds m = 0 ∧ mag_ok m;
  eo_slab : NoDup (nonnull (env_slab e));
  eo_bufctl : NoDup (nonnull (env_bufctl e));
  eo_arena_apart : all_apart g (nonnull (env_arena e));
  eo_arena_pos : ∀ R, R ∈ nonnull (env_arena e) → 0 < R;
  eo_arena_aligned : ∀ R, R ∈ nonnull (env_arena e) → page_aligned R;
}.

(** [reachable out s]: [s] is a state of a cache in use, and [out] are
    the objects its callers hold. *)
Inductive reachable : list Z → state → Prop :=
| reach_create size algn fl qcache_max ctr dtr e s :
    __kmem_cache_create size algn fl qcache_max ctr dtr (boot e) = Ok tt s →
    geometry_ok (cache_geometry (cache s)) →
    env_ok (cache_geometry (cache s)) e →
    reachable [] s
| reach_alloc out s fuel cpu fl r s' :
    reachable out s →
    kmem_cache_alloc fuel cpu fl s = Ok r s' →
    reachable (if decide (r = 0) then out else r :: out) s'
| reach_free out out' s fuel cpu x s' :
    reachable out s →
    out ≡ₚ x :: out' →
    kmem_cache_free fuel cpu x s = Ok tt s' →
    reachable out' s'.

(** What holds of a cache in use. *)
Record cache_inv (out : list Z) (s : state) : Prop := {
  ci_front : front_inv s;
  ci_back : back_inv (out ++ cached_objects s) s;
  ci_counter : nr_cur_alloc (cache s)
    = wrap SIZE_MAX (Z.of_nat (length (out ++ cached_objects s)));
}.

End reach.

(** ** Example runs on the concrete platform *)

(** An environment with memory to give: two magazines for the CPU, pages
    at 0x10000 and 0x20000, no lock contention. *)
Definition plain_env : environment :=
  {| env_trylock := [];
     env_arena := [65536; 131072];
     env_base := [];
     env_magazine := [(4096, empty_magazine); (4608, empty_magazine)];
     env_slab := [];
     env_bufctl := [] |}.

(** A cache of 1-byte objects aligned to 2048: the object size becomes
    2048, and a page less its 40-byte slab record holds one object.  One
    object is taken from the slab layer and given back. *)
Definition one_object_slab_run : M Z :=
  __kmem_cache_create (H := x86_64) 1 2048 0 0 None false;;
  let* obj := __kmem_alloc_from_slab (H := x86_64) 0 in
  __kmem_free_to_slab (H := x86_64) obj;;
  ret obj.

(** A cache of 64-byte objects (63 to a page): one object is taken from
    the slab layer and given back, then the cache is reaped. *)
Definition reap_run : M Z :=
  __kmem_cache_create (H := x86_64) 64 64 0 0 None false;;
  let* obj := __kmem_alloc_from_slab (H := x86_64) 0 in
  __kmem_free_to_slab (H := x86_64) obj;;
  kmem_cache_reap (H := x86_64);;
  ret obj.

(** Allocations in a row on CPU 0, the objects listed last first, and
    frees in a row. *)
Fixpoint alloc_objects (n : nat) : M (list Z) :=
  match n with
  | O => ret []
  | S n =>
      let* l := alloc_objects n in
      let* x := kmem_cache_alloc (H := x86_64) 3 0 0 in
      ret (x :: l)
  end.

Fixpoint free_objects (l : list Z) : M unit :=
  match l with
  | [] => ret tt
  | x :: l => kmem_cache_free (H := x86_64) 3 0 x;; free_objects l
  end.

(** A cache of 64-byte objects from which 17 objects are allocated and
    all but the last one freed: both magazines of the CPU are full (8
    rounds each), the depot has no magazine, and the magazine cache has
    none to give.  The result is the object still allocated. *)
Definition full_magazines_run : M Z :=
  __kmem_cache_create (H := x86_64) 64 64 0 0 None false;;
  let* l := alloc_objects 17 in
  free_objects (tl l);;
  ret (hd 0 l).

Definition state_of {A} (m : M A) (s : state) : state :=
  match m s with
  | Ok _ s' => s'
  | Fault _ => s
  end.

(** The state that run ends in. *)
Definition full_magazines_state : state :=
  state_of full_magazines_run (boot plain_env).

(** An environment for a cache with bufctls: a slab record at 0x30000 and
    eight bufctls from 0x31000 on. *)
Definition bufctl_env : environment :=
  {| env_trylock := [];
     env_arena := [65536; 131072];
     env_base := [];
     env_magazine := [(4096, empty_magazine); (4608, empty_magazine)];
     env_slab := [196608];
     env_bufctl := (λ i, 200704 + 16 * i) <$> seqZ 0 8 |}.

(** A cache of 1024-byte objects, which uses bufctls (8 to a slab of two
    pages): one object is allocated and freed. *)
Definition bufctl_run : M Z :=
  __kmem_cache_create (H := x86_64) 1024 64 0 0 None false;;
  let* x := kmem_cache_alloc (H := x86_64) 3 0 0 in
  kmem_cache_free (H := x86_64) 3 0 x;;
  ret x.

(** Fresh caches on the concrete platform: one of 64-byte objects, whose
    slabs sit in their page, and one of 1024-byte objects, which uses
    bufctls. *)
Definition small_cache : state :=
  state_of (__kmem_cache_create (H := x86_64) 64 64 0 0 None false)
           (boot plain_env).

Definition bufctl_cache : state :=
  state_of (__kmem_cache_create (H := x86_64) 1024 64 0 0 None false)
           (boot bufctl_env).

(** The same caches with an object allocated on CPU 0. *)
Definition small_cache_busy : state :=
  state_of (kmem_cache_alloc (H := x86_64) 3 0 0) small_cache.

Definition bufctl_cache_busy : state :=
  state_of (kmem_cache_alloc (H := x86_64) 3 0 0) bufctl_cache.

(** A cache of 64-byte objects whose constructor fails on every object. *)
Definition failing_ctor_cache : state :=
  state_of (__kmem_cache_create (H := x86_64) 64 64 0 0 (Some (λ _ _, 1)) false)
           (boot plain_env).

(** A machine whose arena has nothing left, and a cache created on it. *)
Definition dry_env : environment :=
  {| env_trylock := [];
     env_arena := [];
     env_base := [];
     env_magazine := [(4096, empty_magazine); (4608, empty_magazine)];
     env_slab := [];
     env_bufctl := [] |}.


(** A cache with the constructor of the magazine cache, for 512-byte
    magazines, on the machine whose arena has nothing left. *)
Definition dry_magazine_cache : state :=
  state_of (__kmem_cache_create (H := x86_64) 512 8 0 0 (Some __mag_ctor) false)
           (boot dry_env).



(** The example caches once the object allocated on CPU 0 is freed
    there: no object is held. *)
Definition small_cache_balanced : state :=
  state_of (kmem_cache_free (H := x86_64) 3 0 65536) small_cache_busy.

Definition bufctl_cache_balanced : state :=
  state_of (kmem_cache_free (H := x86_64) 3 0 72704) bufctl_cache_busy.

(** * Properties *)

(** ** Running the monad *)

Ltac destruct_state s := destruct s as [[] ? ? ? ? ? ?].

(** Closes [back_same] goals between a state and an update of it that
    leaves the slab layer alone. *)
Ltac solve_back_same :=
  split; try done; try (exists []; by rewrite app_nil_r);
  try (eexists; split; [reflexivity|]; by repeat constructor);
  try (cbn; match goal with |- context [cache ?s] => by destruct_state s end).

Lemma bind_ok {A B} (m : M A) (k : A → M B) s a s' :
  m s = Ok a s' → bind m k s = k a s'.
Proof. unfold bind. by intros ->. Qed.

Lemma bind_inv {A B} (m : M A) (k : A → M B) s b s' :
  bind m k s = Ok b s' → ∃ a s1, m s = Ok a s1 ∧ k a s1 = Ok b s'.
Proof. unfold bind. destruct (m s) as [a s1|]; [eauto|done]. Qed.

Lemma bind_assoc {A B C} (m : M A) (f : A → M B) (g : B → M C) s :
  bind (bind m f) g s = bind m (λ a, bind (f a) g) s.
Proof. unfold bind. by destruct (m s). Qed.

Lemma wrap_small max z : 0 ≤ z ≤ max → wrap max z = z.
Proof. intros. unfold wrap. apply Z.mod_small. lia. Qed.

Lemma wrap_range max z : 0 ≤ max → 0 ≤ wrap max z ≤ max.
Proof. intros. unfold wrap. pose proof (Z.mod_pos_bound z (max + 1)). lia. Qed.

Lemma wrap_succ_pred max z : 0 ≤ z ≤ max → wrap max (wrap max (z + 1) - 1) = z.
Proof.
  intros Hz. unfold wrap.
  rewrite Zminus_mod_idemp_l. replace (z + 1 - 1) with z by lia.
  apply Z.mod_small. lia.
Qed.

Lemma read_pcc_ok cpu s pcc :
  pcpu_caches (cache s) !! cpu = Some pcc → read_pcc cpu s = Ok pcc s.
Proof. unfold read_pcc, bind, get_cache, defined. by intros ->. Qed.

Lemma read_mag_ok a s m :
  magazines s !! a = Some m → read_mag a s = Ok m s.
Proof. unfold read_mag, bind, get, defined. by intros ->. Qed.

Lemma read_slab_ok a s sl :
  slabs s !! a = Some sl → read_slab a s = Ok sl s.
Proof. unfold read_slab, bind, get, defined. by intros ->. Qed.

Lemma read_bufctl_ok a s b :
  bufctls s !! a = Some b → read_bufctl a s = Ok b s.
Proof. unfold read_bufctl, bind, get, defined. by intros ->. Qed.

Lemma read_pcc_inv cpu s pcc s' :
  read_pcc cpu s = Ok pcc s' → s' = s ∧ pcpu_caches (cache s) !! cpu = Some pcc.
Proof.
  unfold read_pcc, bind, get_cache, defined.
  destruct (pcpu_caches (cache s) !! cpu); [|done]. by intros [= -> ->].
Qed.

Lemma read_mag_inv a s m s' :
  read_mag a s = Ok m s' → s' = s ∧ magazines s !! a = Some m.
Proof.
  unfold read_mag, bind, get, defined.
  destruct (magazines s !! a); [|done]. by intros [= -> ->].
Qed.

Lemma read_slab_inv a s sl s' :
  read_slab a s = Ok sl s' → s' = s ∧ slabs s !! a = Some sl.
Proof.
  unfold read_slab, bind, get, defined.
  destruct (slabs s !! a); [|done]. by intros [= -> ->].
Qed.

Lemma read_bufctl_inv a s b s' :
  read_bufctl a s = Ok b s' → s' = s ∧ bufctls s !! a = Some b.
Proof.
  unfold read_bufctl, bind, get, defined.
  destruct (bufctls s !! a); [|done]. by intros [= -> ->].
Qed.

Lemma read_mem_inv a s v s' :
  read_mem a s = Ok v s' → s' = s ∧ mem s !! a = Some v.
Proof.
  unfold read_mem, bind, get, defined.
  destruct (mem s !! a); [|done]. by intros [= -> ->].
Qed.

Lemma defined_inv {A} (o : option A) s a s' :
  defined o s = Ok a s' → s' = s ∧ o = Some a.
Proof. destruct o; [|done]. by intros [= -> ->]. Qed.


(** ** The concrete platform meets the assumptions *)

Lemma example_hash_ptr_range p bits :
  0 ≤ bits → 0 ≤ example_hash_ptr p bits < 2 ^ bits.
Proof.
  intros Hbits. unfold example_hash_ptr.
  assert (Hx : 0 ≤ wrap UINT64_MAX (p * 11400862456688148481) < 2 ^ 64).
  { pose proof (wrap_range UINT64_MAX (p * 11400862456688148481)) as Hw.
    unfold UINT64_MAX in *. lia. }
  set (x := wrap _ _) in *. clearbody x.
  destruct (Z.le_gt_cases bits 64) as [Hle|Hgt].
  - rewrite Z.shiftr_div_pow2 by lia. split.
    + apply Z.div_pos; [lia|]. apply Z.pow_pos_nonneg; lia.
    + apply Z.div_lt_upper_bound; [apply Z.pow_pos_nonneg; lia|].
      rewrite <-Z.pow_add_r by lia. replace (64 - bits + bits) with 64 by lia. lia.
  - replace (64 - bits) with (- (bits - 64)) by lia.
    rewrite Z.shiftr_opp_r, Z.shiftl_mul_pow2 by lia.
    replace bits with (64 + (bits - 64)) at 3 by lia.
    rewrite Z.pow_add_r by lia.
    assert (0 < 2 ^ (bits - 64)) by (apply Z.pow_pos_nonneg; lia). nia.
Qed.

Global Instance x86_64_ok : @PlatformOk x86_64.
Proof.
  split; cbn; try (unfold UINT64_MAX; lia).
  - split; [done|]. split; [done|]. intros p.
    change 32 with (2 ^ 5). by apply example_hash_ptr_range.
  - intros h (Hbits & Hlists & Hptr). split; [|done]. unfold hash_ok. cbn.
    split; [lia|]. split; [apply Z.pow_nonneg; lia|].
    intros p. apply example_hash_ptr_range. lia.
Qed.
Section accounting.
Context `{Platform}.

(** Where the clock sample is not older than the window's start and
    nothing overflows, [lock_depot]'s accounting is the specification's. *)
Lemma lock_depot_contended_in_order (time : Z) (depot : kmem_depot) :
  0 ≤ busy_start depot ≤ time → time ≤ UINT64_MAX →
  0 ≤ busy_count depot < UINT_MAX →
  0 ≤ depot_magsize depot < UINT_MAX →
  lock_depot_contended time depot = lock_depot_spec time depot.
Proof.
  intros Hs Ht Hc Hm. unfold lock_depot_contended, lock_depot_spec.
  destruct (nr_not_empty depot =? 0); [done|].
  assert (Hw : wrap UINT64_MAX (time - busy_start depot) = time - busy_start depot).
  { unfold wrap. apply Z.mod_small. unfold UINT64_MAX in *. lia. }
  rewrite Hw.
  assert (Hcmp : (resize_timeout_ns <? time - busy_start depot)
                 = (busy_start depot + resize_timeout_ns <? time)).
  { destruct (Z.ltb_spec resize_timeout_ns (time - busy_start depot));
      destruct (Z.ltb_spec (busy_start depot + resize_timeout_ns) time); lia. }
  rewrite Hcmp.
  assert (Hmin : ∀ a b, MIN a b = Z.min a b).
  { intros a b. unfold MIN. destruct (Z.ltb_spec a b); lia. }
  assert (Hw32 : ∀ z, 0 ≤ z < UINT_MAX → wrap UINT_MAX (z + 1) = z + 1).
  { intros z Hz. unfold wrap. apply Z.mod_small. lia. }
  destruct (busy_start depot + resize_timeout_ns <? time); simpl;
    rewrite ?Hw32, ?Hmin by lia; done.
Qed.

End accounting.

(** C2 (code differs): a waiter that read the clock 5 ns before the
    window's start gets the lock.  busy_start + resize_timeout is far
    ahead of its sample, so by the specification the acquisition is the
    second one of the window and the magazine size grows to 9; the code's
    unsigned [time - busy_start] wraps around, the window restarts and the
    magazine size stays 8. *)
Theorem lock_depot_contended_early_sample :
  let code := lock_depot_contended (H := x86_64) 2000000005 depot_in_window in
  let spec := lock_depot_spec (H := x86_64) 2000000005 depot_in_window in
  (busy_count code, busy_start code, depot_magsize code) = (1, 2000000005, 8)
  ∧ (busy_count spec, busy_start spec, depot_magsize spec) = (0, 2000000010, 9).
Proof. split; reflexivity. Qed.

(** C1 (code differs): on a slab that holds a single object, freeing
    that object takes the "was full" branch of [__kmem_free_to_slab] and
    the "no busy object left" branch is skipped: the slab ends on the
    partial list with no busy object, and the empty list stays empty. *)
Theorem free_to_slab_single_object_slab :
  ∃ s, one_object_slab_run (boot plain_env) = Ok 65536 s
       ∧ slabs s !! 69592 = Some {| num_busy_obj := 0; num_total_obj := 1;
                                    bufctl_freelist := [];
                                    free_small_obj := 65536 |}
       ∧ full_slab_list (cache s) = []
       ∧ partial_slab_list (cache s) = [69592]
       ∧ empty_slab_list (cache s) = [].
Proof. eexists. split; [vm_compute; reflexivity|]. repeat split. Qed.

(** C8 (code differs): [kmem_cache_reap] hands the page of the empty
    slab back to the arena but never unlinks the slab: the slab record is
    gone from memory and the empty list still starts with its address, so
    the next allocation from the slab layer reads freed memory. *)
Theorem reap_leaves_destroyed_slab_on_empty_list :
  ∃ s, reap_run (boot plain_env) = Ok 65536 s
       ∧ last (trace s) = Some (EvArenaFree 65536 4096)
       ∧ slabs s !! 69592 = None
       ∧ empty_slab_list (cache s) = [69592]
       ∧ __kmem_alloc_from_slab (H := x86_64) 0 s = Fault Undefined.
Proof. eexists. split; [vm_compute; reflexivity|]. repeat split. Qed.

(** C7 (code differs): both magazines of CPU 0 hold [magsize] rounds,
    the depot has no empty magazine and the magazine cache has none to
    give.  The allocation of a fresh magazine does not answer NULL: run
    with MEM_ATOMIC on a cache that has the magazine cache's constructor
    and no memory, [kmem_cache_alloc] panics, and so [kmem_cache_free] of
    the object still held panics where lines 679-681 were meant to take
    over.  The slab layer itself would have taken the object:
    [free_bypass] from the same state returns, with the slab's busy count
    down from 17 to 16. *)
Theorem free_panics_when_magazine_cache_is_dry :
  pcpu_caches (cache full_magazines_state)
    = [{| magsize := 8; loaded := 4608; prev := 4096; nr_allocs_ever := 0 |}]
  ∧ (nr_rounds <$> magazines full_magazines_state !! 4608) = Some 8
  ∧ (nr_rounds <$> magazines full_magazines_state !! 4096) = Some 8
  ∧ depot_empty (depot (cache full_magazines_state)) = []
  ∧ env_magazine (env full_magazines_state) = []
  ∧ (num_busy_obj <$> slabs full_magazines_state !! 69592) = Some 17
  ∧ kmem_cache_alloc (H := x86_64) 3 0 (MEM_ATOMIC (Platform := x86_64))
      dry_magazine_cache = Fault Panic
  ∧ kmem_cache_free (H := x86_64) 3 0 66560 full_magazines_state = Fault Panic
  ∧ ∃ s, free_bypass (H := x86_64) 66560 full_magazines_state = Ok tt s
         ∧ (num_busy_obj <$> slabs s !! 69592) = Some 16
         ∧ nr_cur_alloc (cache s) = 16.
Proof.
  repeat (split; [vm_compute; reflexivity|]).
  eexists. split; [vm_compute; reflexivity|]. split; reflexivity.
Qed.

(** ** The fast path of [kmem_cache_free] and its way out of memory *)

Section free_paths.
Context `{Platform}.

(** Taking the depot lock always succeeds and touches nothing but the
    try-lock queue and the depot's accounting fields. *)
Lemma lock_depot_run s :
  ∃ s1, lock_depot s = Ok tt s1
    ∧ not_empty (depot (cache s1)) = not_empty (depot (cache s))
    ∧ depot_empty (depot (cache s1)) = depot_empty (depot (cache s))
    ∧ nr_not_empty (depot (cache s1)) = nr_not_empty (depot (cache s))
    ∧ nr_empty (depot (cache s1)) = nr_empty (depot (cache s))
    ∧ set_depot (depot (cache s)) (cache s1) = cache s
    ∧ slabs s1 = slabs s ∧ bufctls s1 = bufctls s
    ∧ magazines s1 = magazines s ∧ mem s1 = mem s ∧ trace s1 = trace s
    ∧ env_arena (env s1) = env_arena (env s)
    ∧ env_base (env s1) = env_base (env s)
    ∧ env_magazine (env s1) = env_magazine (env s)
    ∧ env_slab (env s1) = env_slab (env s)
    ∧ env_bufctl (env s1) = env_bufctl (env s).
Proof.
  unfold lock_depot, bind, spin_trylock_irqsave.
  destruct (hd None (env_trylock (env s))) as [time|]; eexists; (split; [reflexivity|]).
  - cbn. unfold lock_depot_contended.
    repeat match goal with |- context [if ?b then _ else _] => destruct b end;
      cbn; destruct s as [[] ? ? ? ? [] ?]; done.
  - cbn. destruct s as [[] ? ? ? ? [] ?]; done.
Qed.

(** C9: when the loaded magazine has room, [kmem_cache_free] stores the
    pointer in the first unused slot of the loaded magazine and counts it;
    nothing else changes: the cache record (depot lists and counters, slab
    lists, hash index, nr_cur_alloc, the per-CPU caches), the slabs, the
    bufctls and the object memory are the same, the previous magazine is
    untouched, and the trace has no new event, so no destructor ran. *)
Theorem kmem_cache_free_loaded_has_room fuel cpu buf s pcc l :
  pcpu_caches (cache s) !! cpu = Some pcc →
  magazines s !! loaded pcc = Some l →
  0 ≤ nr_rounds l < magsize pcc →
  magsize pcc ≤ Z.of_nat (length (rounds l)) →
  magsize pcc ≤ UINT_MAX →
  ∃ s',
    kmem_cache_free (S fuel) cpu buf s = Ok tt s'
    ∧ magazines s' =
        <[loaded pcc := {| nr_rounds := nr_rounds l + 1;
                           rounds := <[Z.to_nat (nr_rounds l) := buf]> (rounds l) |}]>
          (magazines s)
    ∧ (prev pcc ≠ loaded pcc → magazines s' !! prev pcc = magazines s !! prev pcc)
    ∧ cache s' = cache s
    ∧ slabs s' = slabs s
    ∧ bufctls s' = bufctls s
    ∧ mem s' = mem s
    ∧ trace s' = trace s.
Proof.
  intros Hpcc Hl Hroom Harr Hmax.
  eexists. split.
  - cbn [kmem_cache_free].
    rewrite (bind_ok _ _ _ _ _ (read_pcc_ok _ _ _ Hpcc)).
    rewrite (bind_ok _ _ _ _ _ (read_mag_ok _ _ _ Hl)).
    destruct (Z.ltb_spec (nr_rounds l) (magsize pcc)); [|lia].
    unfold free_push.
    destruct (Z.leb_spec (Z.of_nat (length (rounds l))) (nr_rounds l)); [lia|].
    rewrite wrap_small by lia. reflexivity.
  - cbn. split; [done|]. split; [|done].
    intros Hne. by rewrite lookup_insert_ne.
Qed.

(** X12: when neither magazine of the CPU has room, the depot has no
    empty magazine and the magazine cache is out of memory,
    [kmem_cache_free] does not come back: the allocation of a fresh
    magazine at line 669 ends in the out-of-memory exit of
    [__kmem_alloc_from_slab], a panic unless MEM_ATOMIC carries
    MEM_ERROR.  The bypass of lines 679-681 is not reached. *)
Theorem kmem_cache_free_magazine_oom fuel cpu buf s pcc l p :
  pcpu_caches (cache s) !! cpu = Some pcc →
  magazines s !! loaded pcc = Some l →
  magazines s !! prev pcc = Some p →
  magsize pcc ≤ nr_rounds l →
  magsize pcc ≤ nr_rounds p →
  depot_empty (depot (cache s)) = [] →
  fst (hd (0, l) (env_magazine (env s))) = 0 →
  kmem_cache_free (S fuel) cpu buf s
  = Fault (if Z.land MEM_ATOMIC MEM_ERROR =? 0 then Panic else Enomem).
Proof.
  intros Hpcc Hl Hp Hlfull Hpfull Hdepot Hmag.
  cbn [kmem_cache_free].
  rewrite (bind_ok _ _ _ _ _ (read_pcc_ok _ _ _ Hpcc)).
  rewrite (bind_ok _ _ _ _ _ (read_mag_ok _ _ _ Hl)).
  destruct (Z.ltb_spec (nr_rounds l) (magsize pcc)); [lia|].
  rewrite (bind_ok _ _ _ _ _ (read_mag_ok _ _ _ Hp)).
  destruct (Z.ltb_spec (nr_rounds p) (magsize pcc)); [lia|].
  destruct (lock_depot_run s) as (s1 & Hlock & Hfr).
  rewrite !(bind_ok _ _ _ _ _ Hlock).
  destruct Hfr as (_ & He & _ & _ & _ & _ & _ & _ & _ & _ & _ & _ & Hm & _).
  rewrite !(bind_ok get_cache _ s1 (cache s1) s1) by done.
  rewrite He, Hdepot.
  set (s2 := set_cache (set_pcpu_caches
               (<[cpu:=set_magsize (depot_magsize (depot (cache s1))) pcc]>
                  (pcpu_caches (cache s1))) (cache s1)) s1).
  rewrite !(bind_ok (write_pcc _ _) _ s1 tt s2) by done.
  unfold bind, magazine_cache_alloc.
  change (env_magazine (env s2)) with (env_magazine (env s1)). rewrite Hm.
  destruct (env_magazine (env s)) as [|[a m] q]; cbn in Hmag; [done|].
  subst a. reflexivity.
Qed.

End free_paths.

(** The fast path on the concrete platform: in a fresh cache of 64-byte
    objects the loaded magazine of CPU 0 is empty, and a free of 65536
    ends with it as the magazine's only round. *)
Lemma kmem_cache_free_loaded_has_room_witness :
  ∃ s', kmem_cache_free (H := x86_64) 1 0 65536
          (state_of (__kmem_cache_create (H := x86_64) 64 64 0 0 None false)
                    (boot plain_env)) = Ok tt s'
        ∧ magazines s' !! 4096
          = Some {| nr_rounds := 1; rounds := 65536 :: replicate 61 0 |}
        ∧ trace s' = [EvCacheAlloc kmem_magazine_cache 4096;
                      EvCacheAlloc kmem_magazine_cache 4608].
Proof.
  destruct (kmem_cache_free_loaded_has_room (H := x86_64) 0 0 65536
              (state_of (__kmem_cache_create (H := x86_64) 64 64 0 0 None false)
                        (boot plain_env))
              {| magsize := 8; loaded := 4096; prev := 4608; nr_allocs_ever := 0 |}
              empty_magazine)
    as (s' & Hrun & Hmags & _ & _ & _ & _ & _ & Htrace).
  - vm_compute. reflexivity.
  - vm_compute. reflexivity.
  - vm_compute. split; [discriminate|reflexivity].
  - vm_compute. discriminate.
  - vm_compute. discriminate.
  - exists s'. split; [exact Hrun|]. split.
    + rewrite Hmags. vm_compute. reflexivity.
    + rewrite Htrace. vm_compute. reflexivity.
Defined.

(** Out of memory on the concrete platform: both magazines of CPU 0 are
    full, the depot is empty and so is the queue of the magazine cache;
    the free of the object still held panics. *)
Lemma kmem_cache_free_magazine_oom_witness :
  kmem_cache_free (H := x86_64) 1 0 66560 full_magazines_state = Fault Panic.
Proof.
  apply (kmem_cache_free_magazine_oom (H := x86_64) 0 0 66560 full_magazines_state
           {| magsize := 8; loaded := 4608; prev := 4096; nr_allocs_ever := 0 |}
           {| nr_rounds := 8;
              rounds := [65984; 65920; 65856; 65792; 65728; 65664; 65600; 65536]
                        ++ replicate 54 0 |}
           {| nr_rounds := 8;
              rounds := [66496; 66432; 66368; 66304; 66240; 66176; 66112; 66048]
                        ++ replicate 54 0 |}).
  - vm_compute. reflexivity.
  - vm_compute. reflexivity.
  - vm_compute. reflexivity.
  - vm_compute. discriminate.
  - vm_compute. discriminate.
  - vm_compute. reflexivity.
  - vm_compute. reflexivity.
Defined.

(** ** The magazine layer keeps its invariant *)

Section front.
Context `{Platform} `{!PlatformOk}.

Lemma bind_insert_Permutation {A B} (f : A → list B) (l : list A) i x :
  (i < length l)%nat →
  <[i:=x]> l ≫= f ≡ₚ f x ++ (delete i l ≫= f).
Proof.
  revert i. induction l as [|y l IH]; intros [|i] Hi; simpl in Hi; try lia.
  - change (<[0%nat:=x]> (y :: l)) with (x :: l).
    change (delete 0%nat (y :: l)) with l. by rewrite bind_cons.
  - change (<[S i:=x]> (y :: l)) with (y :: <[i:=x]> l).
    change (delete (S i) (y :: l)) with (y :: delete i l).
    rewrite !bind_cons, IH by lia.
    rewrite !(assoc (++)). f_equiv. apply Permutation_app_comm.
Qed.

Lemma bind_delete_Permutation {A B} (f : A → list B) (l : list A) i x :
  l !! i = Some x →
  l ≫= f ≡ₚ f x ++ (delete i l ≫= f).
Proof.
  intros Hi. rewrite <-(list_insert_id l i x) at 1 by done.
  apply bind_insert_Permutation. by eapply lookup_lt_Some.
Qed.

Lemma owned_lookup pccs d cpu pcc :
  pccs !! cpu = Some pcc →
  owned_magazines pccs d ≡ₚ
    loaded pcc :: prev pcc ::
      (delete cpu pccs ≫= pcc_magazines) ++ not_empty d ++ depot_empty d.
Proof.
  intros Hpcc. unfold owned_magazines.
  by rewrite (bind_delete_Permutation _ _ _ _ Hpcc).
Qed.

Lemma owned_insert pccs d cpu pcc :
  (cpu < length pccs)%nat →
  owned_magazines (<[cpu:=pcc]> pccs) d ≡ₚ
    loaded pcc :: prev pcc ::
      (delete cpu pccs ≫= pcc_magazines) ++ not_empty d ++ depot_empty d.
Proof.
  intros Hcpu. unfold owned_magazines.
  by rewrite (bind_insert_Permutation _ _ _ _ Hcpu).
Qed.

Lemma held_by_insert_ne mags a m (l : list Z) :
  a ∉ l → l ≫= held_by (<[a:=m]> mags) = l ≫= held_by mags.
Proof.
  induction l as [|b l IH]; [done|]. intros Hal.
  rewrite !bind_cons, IH by set_solver.
  f_equal. unfold held_by. rewrite lookup_insert_ne; [done|set_solver].
Qed.

(** Moving magazines between their holders, and changing sizes within
    bounds, keeps the layer well formed and the cached objects the same. *)
Lemma front_ok_perm pccs d mags q pccs' d' :
  front_ok pccs d mags q →
  owned_magazines pccs' d' ≡ₚ owned_magazines pccs d →
  (∀ a m, a ∈ depot_empty d' → mags !! a = Some m → nr_rounds m = 0) →
  0 < depot_magsize d' ≤ KMC_MAG_MAX_SZ →
  (∀ p, p ∈ pccs' → magsize p ≤ KMC_MAG_MAX_SZ) →
  front_ok pccs' d' mags q
  ∧ owned_magazines pccs' d' ≫= held_by mags
    ≡ₚ owned_magazines pccs d ≫= held_by mags.
Proof.
  intros [] Hperm Hempty Hsize Hpcc. split; [|by rewrite Hperm].
  split; try done.
  - by rewrite Hperm.
  - intros a Ha. rewrite Hperm in Ha. auto.
  - intros a Ha. rewrite Hperm. auto.
Qed.

Lemma lock_depot_contended_lists time d :
  not_empty (lock_depot_contended time d) = not_empty d
  ∧ depot_empty (lock_depot_contended time d) = depot_empty d
  ∧ nr_not_empty (lock_depot_contended time d) = nr_not_empty d
  ∧ nr_empty (lock_depot_contended time d) = nr_empty d.
Proof.
  unfold lock_depot_contended.
  repeat match goal with |- context [if ?b then _ else _] => destruct b end;
    done.
Qed.

Lemma lock_depot_contended_magsize time d :
  0 < depot_magsize d ≤ KMC_MAG_MAX_SZ →
  depot_magsize d ≤ depot_magsize (lock_depot_contended time d) ≤ KMC_MAG_MAX_SZ.
Proof.
  intros Hd. pose proof mag_max_uint.
  unfold lock_depot_contended.
  repeat match goal with |- context [if ?b then _ else _] => destruct b end;
    cbn; try lia.
  all: rewrite wrap_small by lia; unfold MIN;
    destruct (Z.ltb_spec KMC_MAG_MAX_SZ (depot_magsize d + 1)); lia.
Qed.

Lemma front_ok_lock pccs d mags q time :
  front_ok pccs d mags q →
  front_ok pccs (lock_depot_contended time d) mags q
  ∧ owned_magazines pccs (lock_depot_contended time d) = owned_magazines pccs d.
Proof.
  intros Hok.
  destruct (lock_depot_contended_lists time d) as (Hne & He & _).
  assert (Ho : owned_magazines pccs (lock_depot_contended time d)
               = owned_magazines pccs d).
  { unfold owned_magazines. by rewrite Hne, He. }
  split; [|done].
  apply (front_ok_perm pccs d); try done.
  - by rewrite Ho.
  - rewrite He. apply Hok.
  - pose proof (lock_depot_contended_magsize time d (depot_magsize_ok _ _ _ _ Hok)).
    pose proof (depot_magsize_ok _ _ _ _ Hok). lia.
  - apply Hok.
Qed.

Lemma elem_of_insert_inv {A} (l : list A) i x y :
  y ∈ <[i:=x]> l → y = x ∨ y ∈ l.
Proof.
  intros (j & Hj)%list_elem_of_lookup.
  apply list_lookup_insert_Some in Hj as [(-> & -> & _)|(_ & Hj)]; [by left|].
  right. by eapply list_elem_of_lookup_2.
Qed.

(** Replacing a CPU's cache by one with the same two magazines, in either
    order. *)
Lemma front_ok_pcc pccs d mags q cpu pcc pcc' :
  front_ok pccs d mags q →
  pccs !! cpu = Some pcc →
  pcc_magazines pcc' ≡ₚ pcc_magazines pcc →
  magsize pcc' ≤ KMC_MAG_MAX_SZ →
  front_ok (<[cpu:=pcc']> pccs) d mags q
  ∧ owned_magazines (<[cpu:=pcc']> pccs) d ≫= held_by mags
    ≡ₚ owned_magazines pccs d ≫= held_by mags.
Proof.
  intros Hok Hpcc Hperm Hsize.
  apply (front_ok_perm pccs d); try apply Hok; try done.
  - rewrite (owned_lookup _ _ _ _ Hpcc).
    rewrite owned_insert by (by eapply lookup_lt_Some).
    unfold pcc_magazines in Hperm.
    change (?a :: ?b :: ?l) with ([a; b] ++ l). by rewrite Hperm.
  - intros p [->|Hp]%elem_of_insert_inv; [done|]. by apply Hok.
Qed.

(** The exchanges with the depot: [mag] leaves its list, the previous
    magazine joins the list that fits its state. *)
Lemma front_ok_free_exchange pccs d mags q cpu pcc mag rest p n :
  front_ok pccs d mags q →
  pccs !! cpu = Some pcc →
  depot_empty d = mag :: rest →
  mags !! prev pcc = Some p →
  let d' := depot_after_return (prev pcc) p (set_depot_empty rest n d) in
  let pccs' := <[cpu:=set_loaded_prev mag (loaded pcc) pcc]> pccs in
  front_ok pccs' d' mags q
  ∧ owned_magazines pccs' d' ≫= held_by mags
    ≡ₚ owned_magazines pccs d ≫= held_by mags.
Proof.
  intros Hok Hpcc Hd Hp d' pccs'.
  apply (front_ok_perm pccs d); try done.
  - unfold pccs'. rewrite owned_insert by (by eapply lookup_lt_Some).
    rewrite (owned_lookup _ _ _ _ Hpcc). rewrite Hd. cbn [loaded prev set_loaded_prev].
    unfold d', depot_after_return. destruct (mag_is_empty p); cbn.
    + solve_Permutation.
    + solve_Permutation.
  - intros a m. unfold d', depot_after_return.
    destruct (mag_is_empty p) eqn:Hempty; cbn.
    + intros [->|Ha]%elem_of_cons Hm.
      * unfold mag_is_empty in Hempty. rewrite Hp in Hm. injection Hm as <-. lia.
      * eapply (depot_empty_ok _ _ _ _ Hok); [|done]. rewrite Hd. by right.
    + intros Ha Hm. eapply (depot_empty_ok _ _ _ _ Hok); [|done]. rewrite Hd. by right.
  - unfold d', depot_after_return. destruct (mag_is_empty p); apply Hok.
  - intros p0 [->|Hp0]%elem_of_insert_inv.
    + cbn. apply Hok. by eapply list_elem_of_lookup_2.
    + by apply Hok.
Qed.

Lemma front_ok_alloc_exchange pccs d mags q cpu pcc mag rest p n :
  front_ok pccs d mags q →
  pccs !! cpu = Some pcc →
  not_empty d = mag :: rest →
  mags !! prev pcc = Some p →
  let d' := depot_after_return (prev pcc) p (set_not_empty rest n d) in
  let pccs' := <[cpu:=set_loaded_prev mag (loaded pcc) pcc]> pccs in
  front_ok pccs' d' mags q
  ∧ owned_magazines pccs' d' ≫= held_by mags
    ≡ₚ owned_magazines pccs d ≫= held_by mags.
Proof.
  intros Hok Hpcc Hd Hp d' pccs'.
  apply (front_ok_perm pccs d); try done.
  - unfold pccs'. rewrite owned_insert by (by eapply lookup_lt_Some).
    rewrite (owned_lookup _ _ _ _ Hpcc). rewrite Hd. cbn [loaded prev set_loaded_prev].
    unfold d', depot_after_return. destruct (mag_is_empty p); cbn.
    + solve_Permutation.
    + solve_Permutation.
  - intros a m. unfold d', depot_after_return.
    destruct (mag_is_empty p) eqn:Hempty; cbn.
    + intros [->|Ha]%elem_of_cons Hm.
      * unfold mag_is_empty in Hempty. rewrite Hp in Hm. injection Hm as <-. lia.
      * by eapply (depot_empty_ok _ _ _ _ Hok).
    + intros Ha Hm. by eapply (depot_empty_ok _ _ _ _ Hok).
  - unfold d', depot_after_return. destruct (mag_is_empty p); apply Hok.
  - intros p0 [->|Hp0]%elem_of_insert_inv.
    + cbn. apply Hok. by eapply list_elem_of_lookup_2.
    + by apply Hok.
Qed.

(** Changing the contents of one owned magazine that is not on the
    depot's empty list. *)
Lemma front_ok_update pccs d mags q a m m' rest :
  front_ok pccs d mags q →
  owned_magazines pccs d ≡ₚ a :: rest →
  a ∉ depot_empty d →
  mags !! a = Some m →
  mag_ok m' →
  front_ok pccs d (<[a:=m']> mags) q
  ∧ owned_magazines pccs d ≫= held_by (<[a:=m']> mags)
    ≡ₚ mag_contents m' ++ (rest ≫= held_by mags)
  ∧ owned_magazines pccs d ≫= held_by mags
    ≡ₚ mag_contents m ++ (rest ≫= held_by mags).
Proof.
  intros Hok Hperm Hne Hm Hm'.
  assert (Hnd : NoDup (a :: rest)).
  { rewrite <-Hperm. apply Hok. }
  apply NoDup_cons in Hnd as [Harest _].
  split; [|split].
  - split; try apply Hok.
    + intros b Hb. destruct (decide (b = a)) as [->|Hba].
      * exists m'. by rewrite lookup_insert_eq.
      * rewrite lookup_insert_ne by done. by apply Hok.
    + intros b mb Hb. destruct (decide (b = a)) as [->|Hba]; [done|].
      rewrite lookup_insert_ne by done. by apply Hok.
  - rewrite Hperm, bind_cons, held_by_insert_ne by done.
    unfold held_by at 1. by rewrite lookup_insert_eq.
  - rewrite Hperm, bind_cons. unfold held_by at 1. by rewrite Hm.
Qed.

Lemma loaded_owned pccs d cpu pcc :
  pccs !! cpu = Some pcc →
  NoDup (owned_magazines pccs d) →
  ∃ rest, owned_magazines pccs d ≡ₚ loaded pcc :: rest
          ∧ loaded pcc ∉ depot_empty d.
Proof.
  intros Hpcc Hnd. eexists. split; [by apply owned_lookup|].
  rewrite (owned_lookup _ _ _ _ Hpcc) in Hnd.
  apply NoDup_cons in Hnd as [Hl _]. set_solver.
Qed.

Lemma front_ok_push pccs d mags q cpu pcc l x :
  front_ok pccs d mags q →
  pccs !! cpu = Some pcc →
  mags !! loaded pcc = Some l →
  nr_rounds l < magsize pcc →
  let l' := pushed l x in
  front_ok pccs d (<[loaded pcc := l']> mags) q
  ∧ owned_magazines pccs d ≫= held_by (<[loaded pcc := l']> mags)
    ≡ₚ x :: (owned_magazines pccs d ≫= held_by mags).
Proof.
  intros Hok Hpcc Hl Hroom l'.
  destruct (loaded_owned _ d _ _ Hpcc (owned_nodup _ _ _ _ Hok)) as (rest & Hperm & Hne).
  destruct (owned_ok _ _ _ _ Hok (loaded pcc)) as (l0 & Hl0 & [Hn Hlen]).
  { rewrite Hperm. by left. }
  rewrite Hl in Hl0. injection Hl0 as <-.
  assert (Hmax : magsize pcc ≤ KMC_MAG_MAX_SZ).
  { apply Hok. by eapply list_elem_of_lookup_2. }
  destruct (front_ok_update _ _ _ _ _ _ l' _ Hok Hperm Hne Hl) as (Hok' & Hc' & Hc).
  { split; cbn; [lia|]. by rewrite length_insert. }
  split; [done|]. rewrite Hc', Hc.
  unfold mag_contents, l'. cbn.
  replace (Z.to_nat (nr_rounds l + 1)) with (S (Z.to_nat (nr_rounds l))) by lia.
  rewrite (take_S_r _ _ x).
  - rewrite take_insert_ge by lia. solve_Permutation.
  - apply list_lookup_insert_eq. lia.
Qed.

Lemma front_ok_pop pccs d mags q cpu pcc l r :
  front_ok pccs d mags q →
  pccs !! cpu = Some pcc →
  mags !! loaded pcc = Some l →
  nr_rounds l ≠ 0 →
  rounds l !! Z.to_nat (nr_rounds l - 1) = Some r →
  let l' := popped l in
  front_ok pccs d (<[loaded pcc := l']> mags) q
  ∧ owned_magazines pccs d ≫= held_by mags
    ≡ₚ r :: (owned_magazines pccs d ≫= held_by (<[loaded pcc := l']> mags)).
Proof.
  intros Hok Hpcc Hl Hnz Hr l'.
  destruct (loaded_owned _ d _ _ Hpcc (owned_nodup _ _ _ _ Hok)) as (rest & Hperm & Hne).
  destruct (owned_ok _ _ _ _ Hok (loaded pcc)) as (l0 & Hl0 & [Hn Hlen]).
  { rewrite Hperm. by left. }
  rewrite Hl in Hl0. injection Hl0 as <-.
  destruct (front_ok_update _ _ _ _ _ _ l' _ Hok Hperm Hne Hl) as (Hok' & Hc' & Hc).
  { split; cbn; [lia|done]. }
  split; [done|]. rewrite Hc', Hc.
  unfold mag_contents, l'. cbn.
  replace (Z.to_nat (nr_rounds l)) with (S (Z.to_nat (nr_rounds l - 1))) by lia.
  rewrite (take_S_r _ _ r) by done. solve_Permutation.
Qed.

(** An entry leaves the queue of the magazine cache and, unless it is a
    NULL entry, its magazine is in memory. *)
Lemma future_magazines_cons a m q :
  future_magazines ((a, m) :: q)
  = if decide (a ≠ 0) then a :: future_magazines q else future_magazines q.
Proof. unfold future_magazines. by rewrite fmap_cons, filter_cons. Qed.

Lemma front_ok_reply pccs d mags q a m :
  front_ok pccs d mags ((a, m) :: q) →
  let mags' := if a =? 0 then mags else <[a:=m]> mags in
  front_ok pccs d mags' q
  ∧ (owned_magazines pccs d ≫= held_by mags')
    = (owned_magazines pccs d ≫= held_by mags)
  ∧ (a ≠ 0 → (a ∉ owned_magazines pccs d) ∧ (a ∉ future_magazines q)
             ∧ mags' !! a = Some m ∧ nr_rounds m = 0 ∧ mag_ok m).
Proof.
  intros Hok mags'.
  pose proof (future_fresh _ _ _ _ Hok) as Hf.
  pose proof (future_new _ _ _ _ Hok) as Hn.
  rewrite future_magazines_cons in Hf, Hn.
  assert (Hq : ∀ b, b ∈ future_magazines q → b ∉ owned_magazines pccs d).
  { intros b Hb. apply Hn. destruct (decide (a ≠ 0)); [by right|done]. }
  assert (Hnd : NoDup (future_magazines q)).
  { destruct (decide (a ≠ 0)); [|done]. by apply NoDup_cons in Hf as [_ ?]. }
  assert (Hqok : ∀ b mb, (b, mb) ∈ q → b ≠ 0 → nr_rounds mb = 0 ∧ mag_ok mb).
  { intros b mb Hb. apply Hok. by right. }
  unfold mags'. destruct (Z.eqb_spec a 0) as [->|Ha].
  - split; [|split; [done|done]].
    split; try apply Hok; done.
  - destruct (decide (a ≠ 0)); [|done].
    assert (Hnew : a ∉ owned_magazines pccs d) by (apply Hn; by left).
    split; [|split].
    + split; try apply Hok; try done.
      * intros b Hb. rewrite lookup_insert_ne by (by intros ->). by apply Hok.
      * intros b mb Hb. rewrite lookup_insert_ne.
        { by apply Hok. }
        intros ->. apply Hnew. unfold owned_magazines. set_solver.
    + by apply held_by_insert_ne.
    + intros _. split; [done|]. split; [by apply NoDup_cons in Hf as [? _]|].
      split; [by rewrite lookup_insert_eq|].
      apply (future_ok _ _ _ _ Hok a m); [by left|done].
Qed.

(** A magazine that is neither owned nor awaited joins the depot's empty
    list. *)
Lemma front_ok_add_empty pccs d mags q a m n :
  front_ok pccs d mags q →
  a ∉ owned_magazines pccs d →
  a ∉ future_magazines q →
  mags !! a = Some m →
  nr_rounds m = 0 →
  mag_ok m →
  let d' := set_depot_empty (a :: depot_empty d) n d in
  front_ok pccs d' mags q
  ∧ owned_magazines pccs d' ≫= held_by mags
    ≡ₚ owned_magazines pccs d ≫= held_by mags.
Proof.
  intros Hok Hnew Hfut Hm Hzero Hmok d'.
  assert (Ho : owned_magazines pccs d' ≡ₚ a :: owned_magazines pccs d).
  { unfold owned_magazines, d'. cbn. solve_Permutation. }
  split.
  - split; try apply Hok.
    + rewrite Ho. apply NoDup_cons. split; [done|apply Hok].
    + intros b. rewrite Ho. intros [->|Hb]%elem_of_cons; [eauto|by apply Hok].
    + intros b mb. unfold d'. cbn. intros [->|Hb]%elem_of_cons Hmb.
      * rewrite Hm in Hmb. by injection Hmb as <-.
      * by eapply (depot_empty_ok _ _ _ _ Hok).
    + intros b Hb. rewrite Ho. intros [->|Hb']%elem_of_cons; [done|].
      by eapply (future_new _ _ _ _ Hok).
  - rewrite Ho, bind_cons. unfold held_by at 1. rewrite Hm. cbn.
    unfold mag_contents. rewrite Hzero. done.
Qed.

(** *** The operations on states *)

Lemma lock_depot_eq s : lock_depot s = Ok tt (depot_locked s).
Proof.
  unfold lock_depot, bind, spin_trylock_irqsave, depot_locked.
  by destruct (hd None (env_trylock (env s))).
Qed.

Lemma back_same_refl s : back_same s s.
Proof. solve_back_same. Qed.

Lemma back_same_trans s1 s2 s3 :
  back_same s1 s2 → back_same s2 s3 → back_same s1 s3.
Proof.
  intros [c1 ? ? ? ? ? ? ? t1] [c2 ? ? ? ? ? ? ? t2]. split; try congruence.
  - rewrite c1 in c2. exact c2.
  - destruct t1 as (e1 & Ht1 & ?), t2 as (e2 & Ht2 & ?).
    exists (e1 ++ e2). rewrite Ht2, Ht1, assoc by apply _. split; [done|].
    by apply Forall_app.
Qed.

(** A step that rewrites the per-CPU caches and the depot only. *)
Lemma back_same_front s pccs d :
  back_same s (set_cache (set_depot d (set_pcpu_caches pccs (cache s))) s).
Proof. solve_back_same. Qed.

Lemma front_inv_locked s :
  front_inv s →
  front_inv (depot_locked s)
  ∧ cached_objects (depot_locked s) = cached_objects s
  ∧ back_same s (depot_locked s)
  ∧ pcpu_caches (cache (depot_locked s)) = pcpu_caches (cache s)
  ∧ magazines (depot_locked s) = magazines s
  ∧ not_empty (depot (cache (depot_locked s))) = not_empty (depot (cache s))
  ∧ depot_empty (depot (cache (depot_locked s))) = depot_empty (depot (cache s)).
Proof.
  intros Hinv. unfold depot_locked.
  destruct (hd None (env_trylock (env s))) as [time|].
  - destruct (front_ok_lock _ _ _ _ time Hinv) as [Hok Ho].
    destruct (lock_depot_contended_lists time (depot (cache s))) as (Hne & He & _).
    split; [done|]. split; [|split; [|done]].
    + unfold cached_objects.
      change (?x = ?y) with
        (owned_magazines (pcpu_caches (cache s))
           (lock_depot_contended time (depot (cache s))) ≫= held_by (magazines s)
         = y).
      by rewrite Ho.
    + solve_back_same.
  - split; [done|]. split; [done|]. split; [|done]. solve_back_same.
Qed.

End front.

Section front_loops.
Context `{Platform} `{!PlatformOk}.

Lemma modify_cache_eq f s : modify_cache f s = Ok tt (set_cache (f (cache s)) s).
Proof. done. Qed.

Lemma write_pcc_eq cpu p s :
  write_pcc cpu p s
  = Ok tt (set_cache (set_pcpu_caches (<[cpu:=p]> (pcpu_caches (cache s))) (cache s)) s).
Proof. done. Qed.

Lemma modify_depot_eq f s :
  modify_depot f s = Ok tt (set_cache (set_depot (f (depot (cache s))) (cache s)) s).
Proof. done. Qed.

Lemma get_cache_eq s : get_cache s = Ok (cache s) s.
Proof. done. Qed.

Lemma return_to_depot_eq mag m s :
  magazines s !! mag = Some m →
  __return_to_depot mag s
  = Ok tt (set_cache (set_depot (depot_after_return mag m (depot (cache s)))
                                (cache s)) s).
Proof.
  intros Hm. unfold __return_to_depot.
  rewrite (bind_ok _ _ _ _ _ (read_mag_ok _ _ _ Hm)).
  unfold depot_after_return. by destruct (mag_is_empty m).
Qed.

Lemma step_swap s cpu pcc :
  front_inv s →
  pcpu_caches (cache s) !! cpu = Some pcc →
  ∃ s2, __swap_mags cpu s = Ok tt s2
        ∧ front_inv s2
        ∧ cached_objects s2 ≡ₚ cached_objects s
        ∧ back_same s s2.
Proof.
  intros Hinv Hpcc. unfold __swap_mags.
  rewrite (bind_ok _ _ _ _ _ (read_pcc_ok _ _ _ Hpcc)), write_pcc_eq.
  eexists. split; [done|].
  destruct (front_ok_pcc _ _ _ _ cpu pcc
              (set_loaded_prev (prev pcc) (loaded pcc) pcc) Hinv Hpcc) as [Hok Hc].
  { apply Permutation_swap. }
  { cbn. apply Hinv. by eapply list_elem_of_lookup_2. }
  split; [done|]. split; [done|]. solve_back_same.
Qed.

(** Lines 650-653: the depot lock, then the CPU's magsize follows the
    depot's. *)
Lemma step_refresh s cpu pcc :
  front_inv s →
  pcpu_caches (cache s) !! cpu = Some pcc →
  let s1 := depot_locked s in
  let pcc' := set_magsize (depot_magsize (depot (cache s1))) pcc in
  let s2 := set_cache (set_pcpu_caches (<[cpu:=pcc']> (pcpu_caches (cache s1)))
                                       (cache s1)) s1 in
  front_inv s2
  ∧ cached_objects s2 ≡ₚ cached_objects s
  ∧ back_same s s2
  ∧ pcpu_caches (cache s2) !! cpu = Some pcc'
  ∧ magazines s2 = magazines s
  ∧ depot_empty (depot (cache s2)) = depot_empty (depot (cache s))
  ∧ env_magazine (env s2) = env_magazine (env s).
Proof.
  intros Hinv Hpcc s1 pcc' s2.
  destruct (front_inv_locked s Hinv) as (Hinv1 & Hc1 & Hb1 & Hp1 & Hm1 & _ & He1).
  fold s1 in Hinv1, Hc1, Hb1, Hp1, Hm1, He1.
  assert (Hpcc1 : pcpu_caches (cache s1) !! cpu = Some pcc) by (by rewrite Hp1).
  destruct (front_ok_pcc _ _ _ _ cpu pcc pcc' Hinv1 Hpcc1) as [Hok Hc]; [done|..].
  { apply (depot_magsize_ok _ _ _ _ Hinv1). }
  split; [done|]. split; [by rewrite <-Hc1|].
  split; [|split; [|split; [done|split; [done|]]]].
  - eapply back_same_trans; [done|]. solve_back_same.
  - cbn. apply list_lookup_insert_eq. by eapply lookup_lt_Some.
  - unfold s2, s1, depot_locked. by destruct (hd None (env_trylock (env s))).
Qed.

Lemma step_free_exchange s cpu pcc mag rest :
  front_inv s →
  pcpu_caches (cache s) !! cpu = Some pcc →
  depot_empty (depot (cache s)) = mag :: rest →
  ∃ s2, free_exchange cpu pcc mag rest s = Ok tt s2
        ∧ front_inv s2
        ∧ cached_objects s2 ≡ₚ cached_objects s
        ∧ back_same s s2.
Proof.
  intros Hinv Hpcc Hd.
  destruct (owned_ok _ _ _ _ Hinv (prev pcc)) as (p & Hp & _).
  { rewrite (owned_lookup _ _ _ _ Hpcc). set_solver. }
  unfold free_exchange.
  rewrite (bind_ok _ _ _ _ _ (modify_depot_eq _ _)).
  match goal with |- context [bind _ _ ?s1] =>
    assert (Hp1 : magazines s1 !! prev pcc = Some p) by exact Hp end.
  rewrite (bind_ok _ _ _ _ _ (return_to_depot_eq _ _ _ Hp1)).
  rewrite write_pcc_eq. eexists. split; [done|].
  destruct (front_ok_free_exchange _ _ _ _ cpu pcc mag rest p
              (wrap UINT_MAX (nr_empty (depot (cache s)) - 1)) Hinv Hpcc Hd Hp)
    as [Hok Hc].
  split; [exact Hok|]. split; [exact Hc|]. solve_back_same.
Qed.

Lemma step_alloc_exchange s cpu pcc mag rest :
  front_inv s →
  pcpu_caches (cache s) !! cpu = Some pcc →
  not_empty (depot (cache s)) = mag :: rest →
  ∃ s2, alloc_exchange cpu pcc mag rest s = Ok tt s2
        ∧ front_inv s2
        ∧ cached_objects s2 ≡ₚ cached_objects s
        ∧ back_same s s2.
Proof.
  intros Hinv Hpcc Hd.
  destruct (owned_ok _ _ _ _ Hinv (prev pcc)) as (p & Hp & _).
  { rewrite (owned_lookup _ _ _ _ Hpcc). set_solver. }
  unfold alloc_exchange.
  rewrite (bind_ok _ _ _ _ _ (modify_depot_eq _ _)).
  match goal with |- context [bind _ _ ?s1] =>
    assert (Hp1 : magazines s1 !! prev pcc = Some p) by exact Hp end.
  rewrite (bind_ok _ _ _ _ _ (return_to_depot_eq _ _ _ Hp1)).
  rewrite write_pcc_eq. eexists. split; [done|].
  destruct (front_ok_alloc_exchange _ _ _ _ cpu pcc mag rest p
              (wrap UINT_MAX (nr_not_empty (depot (cache s)) - 1)) Hinv Hpcc Hd Hp)
    as [Hok Hc].
  split; [exact Hok|]. split; [exact Hc|]. solve_back_same.
Qed.

Lemma step_magazine_alloc fl s a s2 :
  front_inv s →
  magazine_cache_alloc fl s = Ok a s2 →
  a ≠ 0
  ∧ front_inv s2
  ∧ cached_objects s2 = cached_objects s
  ∧ back_same s s2
  ∧ cache s2 = cache s
  ∧ (a ∉ owned_magazines (pcpu_caches (cache s2)) (depot (cache s2)))
  ∧ (a ∉ future_magazines (env_magazine (env s2)))
  ∧ ∃ m, magazines s2 !! a = Some m ∧ nr_rounds m = 0 ∧ mag_ok m.
Proof.
  intros Hinv Hrun. unfold magazine_cache_alloc in Hrun.
  destruct (env_magazine (env s)) as [|[a' m] q] eqn:Hq; [done|].
  unfold front_inv in Hinv. rewrite Hq in Hinv.
  destruct (front_ok_reply _ _ _ _ _ _ Hinv) as (Hok & Hc & Hnew).
  destruct (Z.eqb_spec a' 0) as [->|Ha]; [done|].
  injection Hrun as <- <-.
  split; [done|]. split; [exact Hok|]. split; [exact Hc|]. split.
  - solve_back_same.
  - split; [done|]. destruct (Hnew Ha) as (? & ? & ? & ? & ?). cbn. eauto 10.
Qed.

Lemma step_add_magazine s a m :
  front_inv s →
  a ∉ owned_magazines (pcpu_caches (cache s)) (depot (cache s)) →
  a ∉ future_magazines (env_magazine (env s)) →
  magazines s !! a = Some m →
  nr_rounds m = 0 →
  mag_ok m →
  ∃ s2, free_add_magazine a s = Ok tt s2
        ∧ front_inv s2
        ∧ cached_objects s2 ≡ₚ cached_objects s
        ∧ back_same s s2.
Proof.
  intros Hinv Hnew Hfut Hm Hzero Hmok. unfold free_add_magazine.
  rewrite (bind_ok _ _ _ _ _ (read_mag_ok _ _ _ Hm)).
  rewrite Hzero. cbn [Z.eqb negb].
  rewrite (bind_ok _ _ _ _ _ (lock_depot_eq _)), modify_depot_eq.
  eexists. split; [done|].
  destruct (front_inv_locked s Hinv) as (Hinv1 & Hc1 & Hb1 & Hp1 & Hm1 & Hn1 & He1).
  assert (Henv : env_magazine (env (depot_locked s)) = env_magazine (env s)).
  { unfold depot_locked. by destruct (hd None (env_trylock (env s))). }
  destruct (front_ok_add_empty _ _ _ _ a m
              (wrap UINT_MAX (nr_empty (depot (cache (depot_locked s))) + 1)) Hinv1)
    as [Hok Hc]; try done.
  - unfold owned_magazines. rewrite Hp1, Hn1, He1. exact Hnew.
  - by rewrite Henv.
  - by rewrite Hm1.
  - split; [exact Hok|]. split.
    + rewrite <-Hc1. exact Hc.
    + eapply back_same_trans; [done|]. solve_back_same.
Qed.

(** A [kmem_cache_free] that returns has rearranged magazines and then
    pushed on the loaded magazine: the magazine cache gives a magazine or
    does not come back, so the bypass to the slab layer is not taken. *)
Lemma kmem_cache_free_front fuel cpu x s s' :
  front_inv s →
  kmem_cache_free fuel cpu x s = Ok tt s' →
  ∃ s1 pcc l, front_inv s1
    ∧ cached_objects s1 ≡ₚ cached_objects s
    ∧ back_same s s1
    ∧ pcpu_caches (cache s1) !! cpu = Some pcc
    ∧ magazines s1 !! loaded pcc = Some l
    ∧ nr_rounds l < magsize pcc
    ∧ s' = set_magazines (<[loaded pcc := pushed l x]> (magazines s1)) s1.
Proof.
  revert s. induction fuel as [|fuel IH]; intros s Hinv Hrun; [done|].
  cbn [kmem_cache_free] in Hrun.
  apply bind_inv in Hrun as (pcc & ? & [-> Hpcc]%read_pcc_inv & Hrun).
  apply bind_inv in Hrun as (l & ? & [-> Hl]%read_mag_inv & Hrun).
  destruct (Z.ltb_spec (nr_rounds l) (magsize pcc)) as [Hroom|Hfull].
  { (* push *)
    exists s, pcc, l. split; [done|]. split; [done|].
    split; [apply back_same_refl|]. split; [done|]. split; [done|]. split; [done|].
    unfold free_push in Hrun.
    destruct (Z.leb_spec (Z.of_nat (length (rounds l))) (nr_rounds l)); [done|].
    injection Hrun as <-.
    destruct (owned_ok _ _ _ _ Hinv (loaded pcc)) as (l0 & Hl0 & [Hn Hlen]).
    { rewrite (owned_lookup _ _ _ _ Hpcc). by left. }
    rewrite Hl in Hl0. injection Hl0 as <-.
    pose proof mag_max_uint. rewrite wrap_small by lia. done. }
  apply bind_inv in Hrun as (p & ? & [-> Hp]%read_mag_inv & Hrun).
  destruct (Z.ltb_spec (nr_rounds p) (magsize pcc)) as [Hproom|Hpfull].
  { (* swap *)
    destruct (step_swap s cpu pcc Hinv Hpcc) as (s2 & Hswap & Hinv2 & Hc2 & Hb2).
    rewrite (bind_ok _ _ _ _ _ Hswap) in Hrun.
    destruct (IH s2 Hinv2 Hrun) as (s1 & pcc1 & l1 & Hinv1 & Hc1 & Hb1 & Hend).
    exists s1, pcc1, l1. split; [done|]. split; [by rewrite Hc1|].
    split; [by eapply back_same_trans|done]. }
  rewrite (bind_ok _ _ _ _ _ (lock_depot_eq _)) in Hrun.
  rewrite (bind_ok _ _ _ _ _ (get_cache_eq _)) in Hrun.
  rewrite (bind_ok _ _ _ _ _ (write_pcc_eq _ _ _)) in Hrun.
  destruct (step_refresh s cpu pcc Hinv Hpcc)
    as (Hinv2 & Hc2 & Hb2 & Hpcc2 & Hm2 & Hd2 & Hq2).
  set (s2 := set_cache _ (depot_locked s)) in *.
  change (depot_empty (depot (cache (depot_locked s))))
    with (depot_empty (depot (cache s2))) in Hrun.
  destruct (depot_empty (depot (cache s2))) as [|mag rest] eqn:Hempty.
  - (* no empty magazine in the depot *)
    apply bind_inv in Hrun as (a & s3 & Halloc & Hrun).
    destruct (step_magazine_alloc _ s2 a s3 Hinv2 Halloc)
      as (Ha & Hinv3 & Hc3 & Hb3 & Hcache3 & Hown & Hfut & m & Hm & Hzero & Hmok).
    destruct (Z.eqb_spec a 0) as [|_]; [done|].
    destruct (step_add_magazine s3 a m Hinv3 Hown Hfut Hm Hzero Hmok)
      as (s4 & Hadd & Hinv4 & Hc4 & Hb4).
    rewrite (bind_ok _ _ _ _ _ Hadd) in Hrun.
    destruct (IH s4 Hinv4 Hrun) as (s1 & pcc1 & l1 & Hinv1 & Hc1 & Hb1 & Hend).
    exists s1, pcc1, l1. split; [done|]. split; [by rewrite Hc1, Hc4, Hc3|].
    split; [|done].
    eapply back_same_trans; [done|]. eapply back_same_trans; [done|].
    by eapply back_same_trans.
  - (* exchange *)
    destruct (step_free_exchange s2 cpu _ mag rest Hinv2 Hpcc2 Hempty)
      as (s3 & Hex & Hinv3 & Hc3 & Hb3).
    rewrite (bind_ok _ _ _ _ _ Hex) in Hrun.
    destruct (IH s3 Hinv3 Hrun) as (s1 & pcc1 & l1 & Hinv1 & Hc1 & Hb1 & Hend).
    exists s1, pcc1, l1. split; [done|]. split; [by rewrite Hc1, Hc3|].
    split; [|done].
    eapply back_same_trans; [done|]. by eapply back_same_trans.
Qed.

(** The push itself. *)
Lemma front_inv_push s cpu pcc l x :
  front_inv s →
  pcpu_caches (cache s) !! cpu = Some pcc →
  magazines s !! loaded pcc = Some l →
  nr_rounds l < magsize pcc →
  let s' := set_magazines (<[loaded pcc := pushed l x]> (magazines s)) s in
  front_inv s'
  ∧ cached_objects s' ≡ₚ x :: cached_objects s
  ∧ back_same s s'.
Proof.
  intros Hinv Hpcc Hl Hroom s'.
  destruct (front_ok_push _ _ _ _ cpu pcc l x Hinv Hpcc Hl Hroom) as [Hok Hc].
  split; [exact Hok|]. split; [exact Hc|]. solve_back_same.
Qed.

(** [kmem_cache_alloc] rearranges magazines, then either pops the loaded
    magazine or falls through to the slab layer. *)
Lemma kmem_cache_alloc_front fuel cpu fl s r s' :
  front_inv s →
  kmem_cache_alloc fuel cpu fl s = Ok r s' →
  ∃ s1, front_inv s1
    ∧ cached_objects s1 ≡ₚ cached_objects s
    ∧ back_same s s1
    ∧ ((∃ pcc l, pcpu_caches (cache s1) !! cpu = Some pcc
          ∧ magazines s1 !! loaded pcc = Some l
          ∧ nr_rounds l ≠ 0
          ∧ rounds l !! Z.to_nat (nr_rounds l - 1) = Some r
          ∧ s' = state_after_pop cpu pcc l s1)
       ∨ __kmem_alloc_from_slab fl s1 = Ok r s').
Proof.
  revert s. induction fuel as [|fuel IH]; intros s Hinv Hrun; [done|].
  cbn [kmem_cache_alloc] in Hrun.
  apply bind_inv in Hrun as (pcc & ? & [-> Hpcc]%read_pcc_inv & Hrun).
  apply bind_inv in Hrun as (l & ? & [-> Hl]%read_mag_inv & Hrun).
  destruct (Z.eqb_spec (nr_rounds l) 0) as [Hzero|Hnz]; cbn [negb] in Hrun.
  2:{ (* pop *)
    exists s. split; [done|]. split; [done|]. split; [apply back_same_refl|].
    left. exists pcc, l. split; [done|]. split; [done|]. split; [done|].
    unfold alloc_pop in Hrun.
    apply bind_inv in Hrun as (r0 & ? & [-> Hr]%defined_inv & Hrun).
    injection Hrun as <- <-. split; [done|].
    destruct (owned_ok _ _ _ _ Hinv (loaded pcc)) as (l0 & Hl0 & [Hn Hlen]).
    { rewrite (owned_lookup _ _ _ _ Hpcc). by left. }
    rewrite Hl in Hl0. injection Hl0 as <-.
    pose proof mag_max_uint. rewrite (wrap_small UINT_MAX) by lia. done. }
  apply bind_inv in Hrun as (p & ? & [-> Hp]%read_mag_inv & Hrun).
  unfold mag_is_empty in Hrun.
  destruct (Z.eqb_spec (nr_rounds p) 0) as [Hpzero|Hpnz]; cbn [negb] in Hrun.
  2:{ (* swap *)
    destruct (step_swap s cpu pcc Hinv Hpcc) as (s2 & Hswap & Hinv2 & Hc2 & Hb2).
    rewrite (bind_ok _ _ _ _ _ Hswap) in Hrun.
    destruct (IH s2 Hinv2 Hrun) as (s1 & Hinv1 & Hc1 & Hb1 & Hend).
    exists s1. split; [done|]. split; [by rewrite Hc1|].
    split; [by eapply back_same_trans|done]. }
  rewrite (bind_ok _ _ _ _ _ (lock_depot_eq _)) in Hrun.
  rewrite (bind_ok _ _ _ _ _ (get_cache_eq _)) in Hrun.
  destruct (front_inv_locked s Hinv) as (Hinv2 & Hc2 & Hb2 & Hp2 & Hm2 & Hn2 & He2).
  destruct (not_empty (depot (cache (depot_locked s)))) as [|mag rest] eqn:Hne.
  - exists (depot_locked s). split; [done|]. split; [by rewrite Hc2|].
    split; [done|]. right. exact Hrun.
  - assert (Hpcc2 : pcpu_caches (cache (depot_locked s)) !! cpu = Some pcc)
      by (by rewrite Hp2).
    destruct (step_alloc_exchange _ cpu pcc mag rest Hinv2 Hpcc2 Hne)
      as (s3 & Hex & Hinv3 & Hc3 & Hb3).
    rewrite (bind_ok _ _ _ _ _ Hex) in Hrun.
    destruct (IH s3 Hinv3 Hrun) as (s1 & Hinv1 & Hc1 & Hb1 & Hend).
    exists s1. split; [done|]. split; [by rewrite Hc1, Hc3, Hc2|].
    split; [|done].
    eapply back_same_trans; [exact Hb2|]. by eapply back_same_trans.
Qed.

(** The pop itself. *)
Lemma front_inv_pop s cpu pcc l r :
  front_inv s →
  pcpu_caches (cache s) !! cpu = Some pcc →
  magazines s !! loaded pcc = Some l →
  nr_rounds l ≠ 0 →
  rounds l !! Z.to_nat (nr_rounds l - 1) = Some r →
  let s' := state_after_pop cpu pcc l s in
  front_inv s'
  ∧ cached_objects s ≡ₚ r :: cached_objects s'
  ∧ back_same s s'.
Proof.
  intros Hinv Hpcc Hl Hnz Hr s'.
  destruct (front_ok_pop _ _ _ _ cpu pcc l r Hinv Hpcc Hl Hnz Hr) as [Hok Hc].
  destruct (front_ok_pcc _ _ _ _ cpu pcc
              (set_nr_allocs_ever (wrap SIZE_MAX (nr_allocs_ever pcc + 1)) pcc)
              Hok Hpcc) as [Hok' Hc']; [done|..].
  { cbn. apply Hinv. by eapply list_elem_of_lookup_2. }
  split; [exact Hok'|]. split.
  - rewrite Hc. f_equiv. symmetry. exact Hc'.
  - solve_back_same.
Qed.

End front_loops.

(** ** What the slab layer leaves alone *)

Section frames.
Context `{Platform}.

Lemma preserves_ret {A} (R : state → state → Prop) (a : A) :
  Reflexive R → preserves R (ret a).
Proof. intros HR s a' s' [= <- <-]. apply HR. Qed.

Lemma preserves_fail {A} (R : state → state → Prop) f :
  preserves R (@fail A f).
Proof. by intros s a s'. Qed.

Lemma preserves_bind {A B} (R : state → state → Prop) (m : M A) (k : A → M B) :
  Transitive R → preserves R m → (∀ a, preserves R (k a)) →
  preserves R (bind m k).
Proof.
  intros HR Hm Hk s b s' (a & s1 & H1 & H2)%bind_inv.
  etrans; [by eapply Hm|by eapply Hk].
Qed.

Lemma preserves_defined {A} (R : state → state → Prop) (o : option A) :
  Reflexive R → preserves R (defined o).
Proof. intros HR. destruct o; [by apply preserves_ret|apply preserves_fail]. Qed.

Lemma preserves_get (R : state → state → Prop) :
  Reflexive R → preserves R get.
Proof. intros HR s a s' [= <- <-]. apply HR. Qed.

Lemma preserves_get_cache (R : state → state → Prop) :
  Reflexive R → preserves R get_cache.
Proof. intros HR s a s' [= <- <-]. apply HR. Qed.

Lemma preserves_modify (R : state → state → Prop) f :
  (∀ s, R s (f s)) → preserves R (modify f).
Proof. intros Hf s a s' Heq. inversion Heq; subst. apply Hf. Qed.

Global Instance slab_frame_refl : Reflexive slab_frame.
Proof. by intros s. Qed.
Global Instance slab_frame_trans : Transitive slab_frame.
Proof. intros s1 s2 s3 [] []. split; congruence. Qed.

End frames.

(** Walks a computation of the monad down to its primitive steps. *)
Ltac preserves_step :=
  lazymatch goal with
  | |- preserves _ (bind _ _) => apply preserves_bind; [apply _| |intros ?]
  | |- preserves _ (ret _) => apply preserves_ret; apply _
  | |- preserves _ (fail _) => apply preserves_fail
  | |- preserves _ (defined _) => apply preserves_defined; apply _
  | |- preserves _ get => apply preserves_get; apply _
  | |- preserves _ get_cache => apply preserves_get_cache; apply _
  | |- preserves _ (if ?b then _ else _) => destruct b
  | |- preserves _ (match ?x with _ => _ end) => destruct x
  | |- preserves _ (let _ := _ in _) => cbv zeta
  | |- preserves _ (modify _) =>
      apply preserves_modify; intros ?; split; reflexivity
  | |- preserves _ (modify_cache _) =>
      apply preserves_modify; intros ?; split; reflexivity
  | |- preserves _ (modify_depot _) =>
      apply preserves_modify; intros ?; split; reflexivity
  | |- preserves _ (emit _) =>
      apply preserves_modify; intros ?; split; reflexivity
  | |- preserves _ (write_slab _ _) =>
      apply preserves_modify; intros ?; split; reflexivity
  | |- preserves _ (write_bufctl _ _) =>
      apply preserves_modify; intros ?; split; reflexivity
  | |- preserves _ (write_mem _ _) =>
      apply preserves_modify; intros ?; split; reflexivity
  | |- preserves _ (arena_free _ _) =>
      apply preserves_modify; intros ?; split; reflexivity
  | |- preserves _ (meta_cache_free _ _) =>
      apply preserves_modify; intros ?; split; reflexivity
  | |- preserves _ (read_slab _) => unfold read_slab
  | |- preserves _ (read_bufctl _) => unfold read_bufctl
  | |- preserves _ (read_mem _) => unfold read_mem
  | |- preserves _ (TAILQ_REMOVE _ _) => unfold TAILQ_REMOVE
  | |- preserves _ (arena_alloc _) => intros ? ? ? [= <- <-]; split; reflexivity
  | |- preserves _ (base_zalloc _) => intros ? ? ? [= <- <-]; split; reflexivity
  | |- preserves _ slab_cache_alloc => intros ? ? ? [= <- <-]; split; reflexivity
  | |- preserves _ bufctl_cache_alloc => intros ? ? ? [= <- <-]; split; reflexivity
  | |- preserves _ _ => solve [eauto]
  end.

Ltac solve_preserves := repeat preserves_step.

Section slab_frames.
Context `{Platform}.

Lemma hash_insert_frame bc : preserves slab_frame (hash_insert bc).
Proof. unfold hash_insert. solve_preserves. Qed.

Lemma rehash_list_frame l : preserves slab_frame (rehash_list l).
Proof.
  induction l; cbn [rehash_list]; solve_preserves. apply hash_insert_frame.
Qed.

Lemma rehash_table_frame t : preserves slab_frame (rehash_table t).
Proof.
  induction t; cbn [rehash_table]; solve_preserves. apply rehash_list_frame.
Qed.

Lemma try_hash_resize_frame : preserves slab_frame __try_hash_resize.
Proof. unfold __try_hash_resize. solve_preserves. apply rehash_table_frame. Qed.

Lemma track_alloc_frame bc : preserves slab_frame (__track_alloc bc).
Proof.
  unfold __track_alloc. solve_preserves;
    [apply hash_insert_frame|apply try_hash_resize_frame].
Qed.

Lemma yank_from_frame bucket buf : preserves slab_frame (yank_from bucket buf).
Proof. induction bucket; cbn [yank_from]; solve_preserves. Qed.

Lemma yank_bufctl_frame buf : preserves slab_frame (__yank_bufctl buf).
Proof. unfold __yank_bufctl. solve_preserves. apply yank_from_frame. Qed.

Lemma link_objects_frame n buf step :
  preserves slab_frame (link_objects n buf step).
Proof. revert buf. induction n; intros buf; cbn [link_objects]; solve_preserves. Qed.

Lemma make_bufctls_frame n a buf step :
  preserves slab_frame (make_bufctls n a buf step).
Proof. revert buf. induction n; intros buf; cbn [make_bufctls]; solve_preserves. Qed.

Lemma grow_small_frame : preserves slab_frame grow_small.
Proof. unfold grow_small. solve_preserves. apply link_objects_frame. Qed.

Lemma grow_bufctl_frame : preserves slab_frame grow_bufctl.
Proof. unfold grow_bufctl. solve_preserves. apply make_bufctls_frame. Qed.

Lemma kmem_cache_grow_frame : preserves slab_frame kmem_cache_grow.
Proof.
  unfold kmem_cache_grow. solve_preserves;
    [apply grow_small_frame|apply grow_bufctl_frame].
Qed.

Lemma free_put_object_frame buf : preserves slab_frame (free_put_object buf).
Proof. unfold free_put_object. solve_preserves. apply yank_bufctl_frame. Qed.

Lemma free_account_frame a : preserves slab_frame (free_account a).
Proof. unfold free_account. solve_preserves. Qed.

Lemma kmem_free_to_slab_frame buf : preserves slab_frame (__kmem_free_to_slab buf).
Proof.
  unfold __kmem_free_to_slab. solve_preserves;
    [apply free_put_object_frame|apply free_account_frame].
Qed.

Lemma alloc_pick_slab_frame fl : preserves slab_frame (alloc_pick_slab fl).
Proof. unfold alloc_pick_slab. solve_preserves; apply kmem_cache_grow_frame. Qed.

Lemma alloc_take_object_frame a : preserves slab_frame (alloc_take_object a).
Proof. unfold alloc_take_object. solve_preserves. apply track_alloc_frame. Qed.

Lemma alloc_account_frame a : preserves slab_frame (alloc_account a).
Proof. unfold alloc_account. solve_preserves. Qed.

Lemma alloc_construct_frame r fl : preserves slab_frame (alloc_construct r fl).
Proof. unfold alloc_construct. solve_preserves. apply kmem_free_to_slab_frame. Qed.

Lemma kmem_alloc_from_slab_frame fl :
  preserves slab_frame (__kmem_alloc_from_slab fl).
Proof.
  unfold __kmem_alloc_from_slab. solve_preserves.
  - apply alloc_pick_slab_frame.
  - apply alloc_take_object_frame.
  - apply alloc_account_frame.
  - apply alloc_construct_frame.
Qed.

Lemma free_bypass_frame buf : preserves slab_frame (free_bypass buf).
Proof. unfold free_bypass. solve_preserves. apply kmem_free_to_slab_frame. Qed.

End slab_frames.

(** ** The slab lists keep their invariant *)

Section slabs_generic.
Context `{Platform} `{!PlatformOk}.

Lemma unlink_Some a l :
  a ∈ l → ∃ l', unlink a l = Some l' ∧ l ≡ₚ a :: l'.
Proof.
  induction l as [|b l IH]; intros Ha; [by apply not_elem_of_nil in Ha|].
  cbn [unlink]. destruct (Z.eqb_spec b a) as [->|Hne].
  - by exists l.
  - apply elem_of_cons in Ha as [->|Ha]; [done|].
    destruct (IH Ha) as (l' & -> & Hperm). exists (b :: l'). split; [done|].
    rewrite Hperm. apply Permutation_swap.
Qed.

Lemma unlink_inv a l l' : unlink a l = Some l' → l ≡ₚ a :: l'.
Proof.
  revert l'. induction l as [|b l IH]; intros l'; [done|].
  cbn [unlink]. destruct (Z.eqb_spec b a) as [->|Hne].
  - by intros [= ->].
  - destruct (unlink a l) as [l0|]; [|done]. intros [= <-].
    rewrite (IH l0) by done. apply Permutation_swap.
Qed.

Lemma slot_in_region g R x :
  geometry_ok g → x ∈ slot_addrs g R → in_region g R x.
Proof.
  intros [Hobj Hcap Hfit]. unfold slot_addrs.
  intros (i & -> & Hi%elem_of_seqZ)%list_elem_of_fmap.
  unfold in_region. nia.
Qed.

Lemma slot_addrs_length g R :
  geometry_ok g → Z.of_nat (length (slot_addrs g R)) = g_cap g.
Proof.
  intros [_ Hcap _]. unfold slot_addrs. rewrite length_fmap, length_seqZ. lia.
Qed.

Lemma slot_addrs_nodup g R : geometry_ok g → NoDup (slot_addrs g R).
Proof.
  intros [Hobj _ _]. unfold slot_addrs. apply NoDup_fmap_2_strong; [|apply NoDup_seqZ].
  intros i j _ _ Hij. nia.
Qed.

Lemma filter_Permutation_cons {A} (P : A → Prop) `{!∀ x, Decision (P x)}
    (l l' : list A) x :
  l ≡ₚ x :: l' →
  filter P l ≡ₚ (if decide (P x) then x :: filter P l' else filter P l').
Proof. intros ->. by rewrite filter_cons. Qed.

(** The objects out of the slab layer count as a multiset. *)
Lemma slabs_ok_perm g A A' G F full partial empty sl :
  A ≡ₚ A' →
  slabs_ok g A G F full partial empty sl →
  slabs_ok g A' G F full partial empty sl.
Proof.
  intros HA [Hnd Hapart Hpos Hown Hslab Hfull Hpartial Hempty]. split; try done.
  - intros x Hx. apply Hown. by rewrite HA.
  - intros a Ha. destruct (Hslab a Ha) as (s & ? & ? & Hb & Hp).
    exists s. rewrite <-HA. done.
Qed.

(** Only what [G], [F] and the slab records say about listed slabs
    matters. *)
Lemma slabs_ok_ext g A G G' F F' full partial empty sl sl' :
  (∀ a, a ∈ full ++ partial ++ empty →
        G' a = G a ∧ F' a = F a ∧ sl' !! a = sl !! a) →
  slabs_ok g A G F full partial empty sl →
  slabs_ok g A G' F' full partial empty sl'.
Proof.
  intros Hext [Hnd Hapart Hpos Hown Hslab Hfull Hpartial Hempty].
  split; try done.
  - intros a a' x Ha Ha'. destruct (Hext a Ha) as (-> & _), (Hext a' Ha') as (-> & _).
    by apply Hapart.
  - intros a Ha. destruct (Hext a Ha) as (-> & _). auto.
  - intros x Hx. destruct (Hown x Hx) as (a & Ha & Hin).
    exists a. split; [done|]. by destruct (Hext a Ha) as (-> & _).
  - intros a Ha. destruct (Hext a Ha) as (-> & -> & ->). auto.
  - intros a s Ha. destruct (Hext a) as (_ & _ & ->); [|by eauto].
    rewrite !elem_of_app. auto.
  - intros a s Ha. destruct (Hext a) as (_ & _ & ->); [|by eauto].
    rewrite !elem_of_app. auto.
  - intros a s Ha. destruct (Hext a) as (_ & _ & ->); [|by eauto].
    rewrite !elem_of_app. auto.
Qed.

(** The lists as a whole may be permuted as long as each slab stays on a
    list that fits its busy count. *)
Lemma slabs_ok_relist g A G F full partial empty full' partial' empty' sl :
  full' ++ partial' ++ empty' ≡ₚ full ++ partial ++ empty →
  (∀ a s, a ∈ full' → sl !! a = Some s → num_busy_obj s = g_cap g) →
  (∀ a s, a ∈ partial' → sl !! a = Some s → num_busy_obj s < g_cap g) →
  (∀ a s, a ∈ empty' → sl !! a = Some s → num_busy_obj s = 0) →
  slabs_ok g A G F full partial empty sl →
  slabs_ok g A G F full' partial' empty' sl.
Proof.
  intros Hperm Hf Hp He [Hnd Hapart Hpos Hown Hslab Hfull Hpartial Hempty].
  split; try done.
  - by rewrite Hperm.
  - intros a a' x. rewrite !Hperm. apply Hapart.
  - intros a. rewrite Hperm. apply Hpos.
  - intros x Hx. destruct (Hown x Hx) as (a & Ha & Hin).
    exists a. by rewrite Hperm.
  - intros a. rewrite Hperm. apply Hslab.
Qed.

(** Lines 520-522: an empty slab moves to the partial list. *)
Lemma slabs_ok_pick_empty g A G F full partial a rest sl :
  geometry_ok g →
  slabs_ok g A G F full partial (a :: rest) sl →
  slabs_ok g A G F full (a :: partial) rest sl.
Proof.
  intros [_ Hcap _] Hok. eapply slabs_ok_relist; [| | | |exact Hok].
  - solve_Permutation.
  - apply Hok.
  - intros b s [->|Hb]%elem_of_cons Hs.
    + rewrite (empty_ok _ _ _ _ _ _ _ _ Hok a s); [lia|by left|done].
    + by eapply (partial_ok _ _ _ _ _ _ _ _ Hok).
  - intros b s Hb. apply (empty_ok _ _ _ _ _ _ _ _ Hok). by right.
Qed.

(** One slab changes its free slots and its busy count, the objects out
    of the layer change within its region, and it may change list. *)
Lemma slabs_ok_update g A A' G F F' full partial empty full' partial' empty'
    sl a s' :
  slabs_ok g A G F full partial empty sl →
  a ∈ full ++ partial ++ empty →
  full' ++ partial' ++ empty' ≡ₚ full ++ partial ++ empty →
  (∀ b, b ≠ a → (b ∈ full' → b ∈ full) ∧ (b ∈ partial' → b ∈ partial)
                ∧ (b ∈ empty' → b ∈ empty)) →
  num_total_obj s' = g_cap g →
  num_busy_obj s' = Z.of_nat (length (filter (in_region g (G a)) A')) →
  F' a ++ filter (in_region g (G a)) A' ≡ₚ slot_addrs g (G a) →
  (a ∈ full' → num_busy_obj s' = g_cap g) →
  (a ∈ partial' → num_busy_obj s' < g_cap g) →
  (a ∈ empty' → num_busy_obj s' = 0) →
  (∀ b, b ≠ a → b ∈ full ++ partial ++ empty →
        F' b = F b
        ∧ filter (in_region g (G b)) A' ≡ₚ filter (in_region g (G b)) A) →
  (∀ x, x ∈ A' → ∃ b, b ∈ full ++ partial ++ empty ∧ in_region g (G b) x) →
  slabs_ok g A' G F' full' partial' empty' (<[a:=s']> sl).
Proof.
  intros Hok Ha Hperm Hothers Htotal Hbusy Hslots Hfull Hpartial Hempty Hrest Hown.
  split.
  - rewrite Hperm. apply Hok.
  - intros b b' x. rewrite !Hperm. apply Hok.
  - intros b. rewrite Hperm. apply Hok.
  - intros x Hx. destruct (Hown x Hx) as (b & Hb & Hin). exists b. by rewrite Hperm.
  - intros b. rewrite Hperm. intros Hb. destruct (decide (b = a)) as [->|Hne].
    + exists s'. by rewrite lookup_insert_eq.
    + rewrite lookup_insert_ne by done.
      destruct (slab_ok _ _ _ _ _ _ _ _ Hok b Hb) as (s & Hs & Ht & Hbs & Hp).
      destruct (Hrest b Hne Hb) as [-> HA]. exists s. by rewrite HA.
  - intros b s Hb. destruct (decide (b = a)) as [->|Hne].
    + rewrite lookup_insert_eq. intros [= <-]. auto.
    + rewrite lookup_insert_ne by done. apply Hok. by apply Hothers.
  - intros b s Hb. destruct (decide (b = a)) as [->|Hne].
    + rewrite lookup_insert_eq. intros [= <-]. auto.
    + rewrite lookup_insert_ne by done. apply Hok. by apply Hothers.
  - intros b s Hb. destruct (decide (b = a)) as [->|Hne].
    + rewrite lookup_insert_eq. intros [= <-]. auto.
    + rewrite lookup_insert_ne by done. apply Hok. by apply Hothers.
Qed.

(** The placement of a listed slab follows from its busy count. *)
Lemma slab_placement g A G F full partial empty sl a s :
  geometry_ok g →
  slabs_ok g A G F full partial empty sl →
  a ∈ full ++ partial ++ empty →
  sl !! a = Some s →
  (num_busy_obj s = g_cap g → a ∈ full)
  ∧ (num_busy_obj s ≠ g_cap g → num_busy_obj s ≠ 0 → a ∈ partial).
Proof.
  intros [_ Hcap _] Hok Ha Hs.
  pose proof (full_ok _ _ _ _ _ _ _ _ Hok a s) as Hf.
  pose proof (partial_ok _ _ _ _ _ _ _ _ Hok a s) as Hp.
  pose proof (empty_ok _ _ _ _ _ _ _ _ Hok a s) as He.
  rewrite !elem_of_app in Ha. split.
  - intros Hb. destruct Ha as [?|[Ha|Ha]]; [done|..].
    + specialize (Hp Ha Hs). lia.
    + specialize (He Ha Hs). lia.
  - intros Hb Hz. destruct Ha as [Ha|[?|Ha]]; [|done|].
    + specialize (Hf Ha Hs). lia.
    + specialize (He Ha Hs). lia.
Qed.

Lemma lists_apart g A G F full partial empty sl a :
  slabs_ok g A G F full partial empty sl →
  (a ∈ full → (a ∉ partial) ∧ (a ∉ empty))
  ∧ (a ∈ partial → (a ∉ full) ∧ (a ∉ empty))
  ∧ (a ∈ empty → (a ∉ full) ∧ (a ∉ partial)).
Proof.
  intros Hok.
  pose proof (lists_nodup _ _ _ _ _ _ _ _ Hok) as Hnd.
  apply NoDup_app in Hnd as (_ & Hfpe & (_ & Hpe & _)%NoDup_app).
  split; [|split].
  - intros Ha. specialize (Hfpe a Ha). rewrite elem_of_app in Hfpe. tauto.
  - intros Ha. specialize (Hpe a Ha). split; [|done].
    intros Ha'. specialize (Hfpe a Ha'). rewrite elem_of_app in Hfpe. tauto.
  - intros Ha. split.
    + intros Ha'. specialize (Hfpe a Ha'). rewrite elem_of_app in Hfpe. tauto.
    + intros Ha'. by specialize (Hpe a Ha').
Qed.

End slabs_generic.

Section account.
Context `{Platform} `{!PlatformOk}.

Lemma filter_in_region_cons g R x A :
  filter (in_region g R) (x :: A)
  = if decide (in_region g R x) then x :: filter (in_region g R) A
    else filter (in_region g R) A.
Proof. apply filter_cons. Qed.

(** Lines 538-544 of [__kmem_alloc_from_slab], for a slab on the partial
    list whose first free slot [r] has just been taken. *)
Lemma alloc_account_spec g A G F s a r fr :
  geometry_ok g →
  slabs_inv g A G F s →
  a ∈ partial_slab_list (cache s) →
  F a = r :: fr →
  ∃ s' sa,
    alloc_account a s = Ok tt s'
    ∧ slabs_inv g (r :: A) G (with_free a fr F) s'
    ∧ in_region g (G a) r
    ∧ account_frame s s'
    ∧ nr_cur_alloc (cache s') = wrap SIZE_MAX (nr_cur_alloc (cache s) + 1)
    ∧ slabs s !! a = Some sa
    ∧ slabs s' = <[a := set_num_busy_obj (num_busy_obj sa + 1) sa]> (slabs s).
Proof.
  intros Hg Hok Ha HF. unfold slabs_inv in *.
  assert (Hlisted : a ∈ full_slab_list (cache s) ++ partial_slab_list (cache s)
                        ++ empty_slab_list (cache s)).
  { rewrite !elem_of_app. auto. }
  destruct (slab_ok _ _ _ _ _ _ _ _ Hok a Hlisted) as (sa & Hsa & Htot & Hbusy & Hperm).
  rewrite HF in Hperm.
  assert (Hr : in_region g (G a) r).
  { apply slot_in_region; [done|]. rewrite <-Hperm. by left. }
  assert (Hlen : num_busy_obj sa + 1 ≤ g_cap g).
  { rewrite <-(slot_addrs_length g (G a)) by done. rewrite <-Hperm.
    cbn [app length]. rewrite length_app. lia. }
  pose proof (capacity_ok _ Hg) as Hcap.
  assert (Hw : wrap SIZE_MAX (num_busy_obj sa + 1) = num_busy_obj sa + 1).
  { apply wrap_small. lia. }
  set (sa' := set_num_busy_obj (num_busy_obj sa + 1) sa).
  assert (Hupd : ∀ full' partial',
    full' ++ partial' ++ empty_slab_list (cache s)
      ≡ₚ full_slab_list (cache s) ++ partial_slab_list (cache s)
         ++ empty_slab_list (cache s) →
    (∀ b, b ≠ a → (b ∈ full' → b ∈ full_slab_list (cache s))
                  ∧ (b ∈ partial' → b ∈ partial_slab_list (cache s))) →
    (a ∈ full' → num_busy_obj sa + 1 = g_cap g) →
    (a ∈ partial' → num_busy_obj sa + 1 < g_cap g) →
    slabs_ok g (r :: A) G (with_free a fr F) full' partial'
             (empty_slab_list (cache s)) (<[a:=sa']> (slabs s))).
  { intros full' partial' Hp Hothers Hfull Hpart.
    eapply slabs_ok_update; try exact Hok; try done.
    - intros b Hb. destruct (Hothers b Hb). auto.
    - unfold sa'. cbn [num_busy_obj set_num_busy_obj].
      rewrite filter_in_region_cons, decide_True by done. cbn [length]. lia.
    - unfold with_free. rewrite decide_True by done.
      rewrite filter_in_region_cons, decide_True by done.
      rewrite <-Hperm. solve_Permutation.
    - intros Hae. destruct (lists_apart _ _ _ _ _ _ _ _ a Hok) as (_ & Hp' & _).
      by destruct (Hp' Ha).
    - intros b Hb Hbl. unfold with_free. rewrite decide_False by done.
      split; [done|]. rewrite filter_in_region_cons, decide_False; [done|].
      intros Hrb. apply Hb. by eapply (regions_apart _ _ _ _ _ _ _ _ Hok).
    - intros x [->|Hx]%elem_of_cons; [by exists a|].
      by apply (outstanding_owned _ _ _ _ _ _ _ _ Hok). }
  unfold alloc_account.
  rewrite (bind_ok _ _ _ _ _ (read_slab_ok _ _ _ Hsa)). rewrite Hw.
  unfold write_slab at 1. unfold bind at 1, modify at 1.
  rewrite (bind_ok _ _ _ _ _ (get_cache_eq _)). cbn [cache set_slabs].
  rewrite Htot.
  destruct (Z.eqb_spec (num_busy_obj sa + 1) (g_cap g)) as [Hfull|Hnot].
  - destruct (unlink_Some a _ Ha) as (partial' & Hunlink & Hpp).
    unfold TAILQ_REMOVE. rewrite Hunlink. cbn [defined].
    eexists _, sa. split; [reflexivity|].
    split; [|split; [done|split; [|split; [done|split; [done|done]]]]].
    + cbn. apply Hupd.
      * rewrite Hpp. solve_Permutation.
      * intros b Hb. split.
        -- intros [->|?]%elem_of_cons; done.
        -- intros Hbp. assert (b ∈ a :: partial') as Hb' by (by right).
           by rewrite <-Hpp in Hb'.
      * done.
      * intros Hap. assert (NoDup (partial_slab_list (cache s))) as Hnd.
        { pose proof (lists_nodup _ _ _ _ _ _ _ _ Hok) as Hnd.
          by apply NoDup_app in Hnd as (_ & _ & (? & _)%NoDup_app). }
        rewrite Hpp in Hnd. by apply NoDup_cons in Hnd as [? _].
    + split; try done; try (cbn; by destruct_state s).
  - eexists _, sa. split; [reflexivity|].
    split; [|split; [done|split; [|split; [done|split; [done|done]]]]].
    + cbn. apply Hupd; try done.
      * intros Haf. destruct (lists_apart _ _ _ _ _ _ _ _ a Hok) as (_ & Hp' & _).
        by destruct (Hp' Ha).
      * intros _. lia.
    + split; try done; try (cbn; by destruct_state s).
Qed.

(** Lines 615-625 of [__kmem_free_to_slab], for a listed slab that has
    just got the slot [x] of its region back. *)
Lemma free_account_spec g A A' G F s a x :
  geometry_ok g →
  slabs_inv g A G F s →
  A ≡ₚ x :: A' →
  a ∈ slab_lists (cache s) →
  in_region g (G a) x →
  ∃ s' sa,
    free_account a s = Ok tt s'
    ∧ slabs_inv g A' G (with_free a (x :: F a) F) s'
    ∧ account_frame s s'
    ∧ nr_cur_alloc (cache s') = wrap SIZE_MAX (nr_cur_alloc (cache s) - 1)
    ∧ slabs s !! a = Some sa
    ∧ 1 ≤ num_busy_obj sa
    ∧ slabs s' = <[a := set_num_busy_obj (num_busy_obj sa - 1) sa]> (slabs s).
Proof.
  intros Hg Hok HA Hlisted Hx. unfold slabs_inv, slab_lists in *.
  destruct (slab_ok _ _ _ _ _ _ _ _ Hok a Hlisted) as (sa & Hsa & Htot & Hbusy & Hperm).
  pose proof (filter_Permutation_cons (in_region g (G a)) _ _ _ HA) as HfA.
  rewrite decide_True in HfA by done.
  assert (Hpos : 1 ≤ num_busy_obj sa).
  { rewrite Hbusy, HfA. cbn [length]. lia. }
  assert (Hlen : num_busy_obj sa ≤ g_cap g).
  { rewrite <-(slot_addrs_length g (G a)) by done. rewrite <-Hperm, length_app. lia. }
  pose proof (capacity_ok _ Hg) as Hcap.
  assert (Hw : wrap SIZE_MAX (num_busy_obj sa - 1) = num_busy_obj sa - 1).
  { apply wrap_small. lia. }
  assert (Hw' : wrap SIZE_MAX (num_busy_obj sa - 1 + 1) = num_busy_obj sa).
  { rewrite wrap_small by lia. lia. }
  destruct (slab_placement _ _ _ _ _ _ _ _ a sa Hg Hok Hlisted Hsa) as [Hpf Hpp].
  destruct (lists_apart _ _ _ _ _ _ _ _ a Hok) as (Haf & Hap & Hae).
  set (sa' := set_num_busy_obj (num_busy_obj sa - 1) sa).
  assert (Hupd : ∀ full' partial' empty',
    full' ++ partial' ++ empty'
      ≡ₚ full_slab_list (cache s) ++ partial_slab_list (cache s)
         ++ empty_slab_list (cache s) →
    (∀ b, b ≠ a → (b ∈ full' → b ∈ full_slab_list (cache s))
                  ∧ (b ∈ partial' → b ∈ partial_slab_list (cache s))
                  ∧ (b ∈ empty' → b ∈ empty_slab_list (cache s))) →
    a ∉ full' →
    (a ∈ empty' → num_busy_obj sa - 1 = 0) →
    slabs_ok g A' G (with_free a (x :: F a) F) full' partial' empty'
             (<[a:=sa']> (slabs s))).
  { intros full' partial' empty' Hp Hothers Hfull Hempty.
    eapply slabs_ok_update; try exact Hok; try done.
    - unfold sa'. cbn [num_busy_obj set_num_busy_obj].
      rewrite Hbusy, HfA. cbn [length]. lia.
    - unfold with_free. rewrite decide_True by done.
      rewrite <-Hperm, HfA. solve_Permutation.
    - intros _. unfold sa'. cbn [num_busy_obj set_num_busy_obj]. lia.
    - intros b Hb Hbl. unfold with_free. rewrite decide_False by done.
      split; [done|].
      pose proof (filter_Permutation_cons (in_region g (G b)) _ _ _ HA) as HfB.
      rewrite decide_False in HfB; [done|].
      intros Hxb. apply Hb. by eapply (regions_apart _ _ _ _ _ _ _ _ Hok).
    - intros y Hy. apply (outstanding_owned _ _ _ _ _ _ _ _ Hok).
      rewrite HA. by right. }
  unfold free_account.
  rewrite (bind_ok _ _ _ _ _ (read_slab_ok _ _ _ Hsa)). rewrite Hw, Hw'.
  unfold write_slab at 1. unfold bind at 1, modify at 1.
  rewrite (bind_ok _ _ _ _ _ (modify_cache_eq _ _)).
  rewrite (bind_ok _ _ _ _ _ (get_cache_eq _)). cbn [cache set_slabs set_cache].
  rewrite Htot.
  destruct (Z.eqb_spec (num_busy_obj sa) (g_cap g)) as [Hfull|Hnot].
  - destruct (unlink_Some a _ (Hpf Hfull)) as (full' & Hunlink & Hff).
    unfold TAILQ_REMOVE. cbn [full_slab_list set_nr_cur_alloc].
    rewrite Hunlink. cbn [defined].
    eexists _, sa. split; [reflexivity|].
    split; [|split; [|split; [done|split; [done|split; [done|done]]]]].
    + cbn. apply Hupd.
      * rewrite Hff. solve_Permutation.
      * intros b Hb. split; [|split; [|done]].
        -- intros Hbf. assert (b ∈ a :: full') as Hb' by (by right).
           by rewrite <-Hff in Hb'.
        -- intros [->|?]%elem_of_cons; done.
      * assert (NoDup (full_slab_list (cache s))) as Hnd.
        { pose proof (lists_nodup _ _ _ _ _ _ _ _ Hok) as Hnd.
          by apply NoDup_app in Hnd as (? & _). }
        rewrite Hff in Hnd. by apply NoDup_cons in Hnd as [? _].
      * intros Hae'. by destruct (Haf (Hpf Hfull)).
    + split; try done; try (cbn; by destruct_state s).
  - destruct (Z.eqb_spec (num_busy_obj sa - 1) 0) as [Hzero|Hnz].
    + assert (Hap' : a ∈ partial_slab_list (cache s)) by (apply Hpp; lia).
      destruct (unlink_Some a _ Hap') as (partial' & Hunlink & Hpp').
      unfold TAILQ_REMOVE. cbn [partial_slab_list set_nr_cur_alloc].
      rewrite Hunlink. cbn [defined].
      eexists _, sa. split; [reflexivity|].
      split; [|split; [|split; [done|split; [done|split; [done|done]]]]].
      * cbn. apply Hupd.
        -- rewrite Hpp'. solve_Permutation.
        -- intros b Hb. split; [done|]. split.
           ++ intros Hbp. assert (b ∈ a :: partial') as Hb' by (by right).
              by rewrite <-Hpp' in Hb'.
           ++ intros [->|?]%elem_of_cons; done.
        -- by destruct (Hap Hap').
        -- done.
      * split; try done; try (cbn; by destruct_state s).
    + assert (Hap' : a ∈ partial_slab_list (cache s)) by (apply Hpp; lia).
      eexists _, sa. split; [reflexivity|].
      split; [|split; [|split; [done|split; [done|split; [done|done]]]]].
      * cbn. apply Hupd; try done.
        -- by destruct (Hap Hap').
        -- intros Hae'. by destruct (Hap Hap').
      * split; try done; try (cbn; by destruct_state s).
Qed.

End account.

Section slabs_more.
Context `{Platform} `{!PlatformOk}.

(** Only the counters of a slab record matter to [slabs_ok], and the free
    slots count as a multiset. *)
Lemma slabs_ok_records g A G G' F F' full partial empty sl sl' :
  (∀ a, a ∈ full ++ partial ++ empty →
        G' a = G a ∧ F' a ≡ₚ F a
        ∧ ∀ sa, sl !! a = Some sa →
            ∃ sa', sl' !! a = Some sa'
                   ∧ num_busy_obj sa' = num_busy_obj sa
                   ∧ num_total_obj sa' = num_total_obj sa) →
  slabs_ok g A G F full partial empty sl →
  slabs_ok g A G' F' full partial empty sl'.
Proof.
  intros Hsame [Hnd Hapart Hpos Hown Hslab Hfull Hpartial Hempty].
  assert (Hrec : ∀ a s', a ∈ full ++ partial ++ empty → sl' !! a = Some s' →
            ∃ sa, sl !! a = Some sa ∧ num_busy_obj s' = num_busy_obj sa
                  ∧ num_total_obj s' = num_total_obj sa).
  { intros a s' Ha Hs'. destruct (Hslab a Ha) as (sa & Hsa & _).
    destruct (Hsame a Ha) as (_ & _ & Hr).
    destruct (Hr sa Hsa) as (sa' & Hsa' & ? & ?).
    exists sa. split; [done|]. by simplify_eq. }
  split.
  - done.
  - intros a a' x Ha Ha'. destruct (Hsame a Ha) as (-> & _), (Hsame a' Ha') as (-> & _).
    by apply Hapart.
  - intros a Ha. destruct (Hsame a Ha) as (-> & _). by apply Hpos.
  - intros x Hx. destruct (Hown x Hx) as (a & Ha & Hin). exists a.
    destruct (Hsame a Ha) as (-> & _). done.
  - intros a Ha. destruct (Hslab a Ha) as (sa & Hsa & Htot & Hbusy & Hperm).
    destruct (Hsame a Ha) as (HG & HF & Hr).
    destruct (Hr sa Hsa) as (sa' & Hsa' & Hb' & Ht').
    exists sa'. rewrite HG, HF, Hb', Ht'. done.
  - intros a s' Ha Hs'.
    destruct (Hrec a s') as (sa & Hsa & -> & _); [rewrite !elem_of_app; auto|done|].
    by eapply Hfull.
  - intros a s' Ha Hs'.
    destruct (Hrec a s') as (sa & Hsa & -> & _); [rewrite !elem_of_app; auto|done|].
    by eapply Hpartial.
  - intros a s' Ha Hs'.
    destruct (Hrec a s') as (sa & Hsa & -> & _); [rewrite !elem_of_app; auto|done|].
    by eapply Hempty.
Qed.

(** A new slab with all its slots free joins the empty list. *)
Lemma slabs_ok_grow g A G G' F F' full partial empty sl sl' a R sa :
  geometry_ok g →
  slabs_ok g A G F full partial empty sl →
  a ∉ full ++ partial ++ empty →
  0 < R →
  (∀ b, b ∈ full ++ partial ++ empty → apart g R (G b)) →
  G' a = R →
  F' a ≡ₚ slot_addrs g R →
  sl' !! a = Some sa →
  num_busy_obj sa = 0 →
  num_total_obj sa = g_cap g →
  (∀ b, b ∈ full ++ partial ++ empty →
        G' b = G b ∧ F' b ≡ₚ F b
        ∧ ∀ sb, sl !! b = Some sb →
            ∃ sb', sl' !! b = Some sb'
                   ∧ num_busy_obj sb' = num_busy_obj sb
                   ∧ num_total_obj sb' = num_total_obj sb) →
  slabs_ok g A G' F' full partial (a :: empty) sl'.
Proof.
  intros Hg Hok Hnew HR Hapart' HG HF Hsa Hbusy Htot Hsame.
  pose proof (slabs_ok_records _ _ _ _ _ _ _ _ _ _ _ Hsame Hok)
    as [Hnd Hapart Hpos Hown Hslab Hfull Hpartial Hempty].
  assert (Hlisted : ∀ b, b ∈ full ++ partial ++ a :: empty ↔
                         b = a ∨ b ∈ full ++ partial ++ empty).
  { intros b. rewrite !elem_of_app, elem_of_cons. tauto. }
  assert (Hnone : filter (in_region g R) A = []).
  { destruct (filter (in_region g R) A) as [|x l] eqn:Hf; [done|].
    assert (Hx : x ∈ filter (in_region g R) A) by (rewrite Hf; by left).
    apply list_elem_of_filter in Hx as [Hin Hx].
    destruct (outstanding_owned _ _ _ _ _ _ _ _ Hok x Hx) as (b & Hb & Hxb).
    by destruct (Hapart' b Hb x). }
  split.
  - assert (Hp : full ++ partial ++ a :: empty ≡ₚ a :: full ++ partial ++ empty)
      by solve_Permutation.
    rewrite Hp. by apply NoDup_cons.
  - intros b b' x [->|Hb]%Hlisted [->|Hb']%Hlisted; [done| | |by apply Hapart].
    + rewrite HG. destruct (Hsame b' Hb') as (-> & _).
      intros ? ?. by destruct (Hapart' b' Hb' x).
    + rewrite HG. destruct (Hsame b Hb) as (-> & _).
      intros ? ?. by destruct (Hapart' b Hb x).
  - intros b [->|Hb]%Hlisted; [by rewrite HG|by apply Hpos].
  - intros x Hx. destruct (Hown x Hx) as (b & Hb & Hin). exists b.
    split; [|done]. apply Hlisted. by right.
  - intros b [->|Hb]%Hlisted; [|by apply Hslab].
    exists sa. rewrite HG, HF, Hnone, app_nil_r. done.
  - intros b s' Hb Hs'. eapply Hfull; [done|done].
  - intros b s' Hb Hs'. eapply Hpartial; [done|done].
  - intros b s' [->|Hb]%elem_of_cons Hs'; [by simplify_eq|by eapply Hempty].
Qed.

(** The objects out of the slab layer are not NULL, and differ from one
    another. *)
Lemma outstanding_nonnull g A G F full partial empty sl x :
  slabs_ok g A G F full partial empty sl → x ∈ A → 0 < x.
Proof.
  intros Hok Hx.
  destruct (outstanding_owned _ _ _ _ _ _ _ _ Hok x Hx) as (a & Ha & Hin).
  pose proof (regions_pos _ _ _ _ _ _ _ _ Hok a Ha). unfold in_region in Hin. lia.
Qed.

(** A slab that is not full has a free slot. *)
Lemma free_slot_exists g A G F full partial empty sl a sa :
  geometry_ok g →
  slabs_ok g A G F full partial empty sl →
  a ∈ full ++ partial ++ empty →
  sl !! a = Some sa →
  num_busy_obj sa < g_cap g →
  ∃ r fr, F a = r :: fr.
Proof.
  intros Hg Hok Ha Hsa Hlt.
  destruct (slab_ok _ _ _ _ _ _ _ _ Hok a Ha) as (sa' & Hsa' & Htot & Hbusy & Hperm).
  simplify_eq. apply Permutation_length in Hperm.
  rewrite length_app in Hperm.
  pose proof (slot_addrs_length g (G a) Hg).
  destruct (F a) as [|r fr]; [cbn in Hperm; lia|eauto].
Qed.

(** The free slots of a slab lie in its region, away from the objects out
    of the slab layer. *)
Lemma free_slot_in_region g A G F full partial empty sl a x :
  geometry_ok g →
  slabs_ok g A G F full partial empty sl →
  a ∈ full ++ partial ++ empty →
  x ∈ F a →
  in_region g (G a) x ∧ x ∉ A.
Proof.
  intros Hg Hok Ha Hx.
  destruct (slab_ok _ _ _ _ _ _ _ _ Hok a Ha) as (sa & Hsa & Htot & Hbusy & Hperm).
  assert (Hin : in_region g (G a) x).
  { apply slot_in_region; [done|]. rewrite <-Hperm, elem_of_app. by left. }
  split; [done|]. intros HxA.
  pose proof (slot_addrs_nodup g (G a) Hg) as Hnd. rewrite <-Hperm in Hnd.
  apply NoDup_app in Hnd as (_ & Hdisj & _).
  apply (Hdisj x Hx). apply list_elem_of_filter. done.
Qed.

End slabs_more.

(** ** The bufctl hash keeps its invariant *)

Section hash.
Context `{Platform} `{!PlatformOk}.

Lemma concat_insert_cons {A} (l : list (list A)) i b x :
  l !! i = Some b → concat (<[i:=x :: b]> l) ≡ₚ x :: concat l.
Proof.
  revert i. induction l as [|b0 l IH]; intros [|i] Hi; try done.
  - injection Hi as ->. done.
  - cbn in Hi. cbn [concat]. change (<[S i:=x :: b]> (b0 :: l)) with (b0 :: <[i:=x :: b]> l).
    cbn [concat]. rewrite (IH _ Hi). solve_Permutation.
Qed.

Lemma concat_insert_remove {A} (l : list (list A)) i b b' x :
  l !! i = Some b → b ≡ₚ x :: b' → concat l ≡ₚ x :: concat (<[i:=b']> l).
Proof.
  revert i. induction l as [|b0 l IH]; intros [|i] Hi Hb; try done.
  - injection Hi as ->. cbn. by rewrite Hb.
  - cbn in Hi. change (<[S i:=b']> (b0 :: l)) with (b0 :: <[i:=b']> l).
    cbn [concat]. rewrite (IH _ Hi Hb). solve_Permutation.
Qed.

Lemma elem_of_concat {A} (l : list (list A)) x :
  x ∈ concat l ↔ ∃ i b, l !! i = Some b ∧ x ∈ b.
Proof.
  induction l as [|b0 l IH]; cbn [concat].
  - split; [by intros ?%not_elem_of_nil|by intros (i & b & ? & _)].
  - rewrite elem_of_app, IH. split.
    + intros [?|(i & b & ? & ?)]; [by exists 0%nat, b0|by exists (S i), b].
    + intros ([|i] & b & Hi & ?); [injection Hi as ->; by left|right; by exists i, b].
Qed.

Lemma concat_replicate_nil {A} n : concat (replicate n (@nil A)) = [].
Proof. induction n; [done|]. cbn. done. Qed.

Global Instance hash_step_refl : Reflexive hash_step.
Proof.
  intros s. split; try done.
  - by destruct_state s.
  - by destruct s as [? ? ? ? ? [] ?].
  - exists []. by rewrite app_nil_r.
Qed.

Global Instance hash_step_trans : Transitive hash_step.
Proof.
  intros s1 s2 s3 [c1 ? ? ? ? e1 t1] [c2 ? ? ? ? e2 t2]. split; try congruence.
  - rewrite c1 in c2. exact c2.
  - rewrite e1 in e2. exact e2.
  - destruct t1 as (ev1 & Ht1 & ?), t2 as (ev2 & Ht2 & ?).
    exists (ev1 ++ ev2). rewrite Ht2, Ht1, (assoc (++)). split; [done|].
    by apply Forall_app.
Qed.

Lemma hash_inv_perm L L' s : L ≡ₚ L' → hash_inv L s → hash_inv L' s.
Proof. intros HL [? ? Hc ?]. split; try done. by rewrite Hc. Qed.

Lemma hash_ok_eq h h' :
  nr_hash_bits h' = nr_hash_bits h → nr_hash_lists h' = nr_hash_lists h →
  hash_ok h → hash_ok h'.
Proof. unfold hash_ok. by intros -> ->. Qed.

End hash.

(** Closes [hash_step] goals between a state and an update of it. *)
Ltac solve_hash_step :=
  split; try done;
  try (exists []; by rewrite app_nil_r);
  try (eexists; split; [reflexivity|]; by repeat constructor);
  try (cbn; match goal with |- context [cache ?s] => by destruct_state s end);
  try (cbn; match goal with |- context [env ?s] =>
         by destruct s as [? ? ? ? ? [] ?] end).

Section hash_ops.
Context `{Platform} `{!PlatformOk}.

Lemma hash_bucket L s p :
  hash_inv L s →
  ∃ bucket,
    alloc_hash (cache s) !! Z.to_nat (hash_ptr p (nr_hash_bits (hh (cache s))))
    = Some bucket.
Proof.
  intros [Hlen (_ & _ & Hok) _ _]. specialize (Hok p).
  apply lookup_lt_is_Some. lia.
Qed.

Lemma hash_insert_spec L s bc b :
  hash_inv L s →
  bufctls s !! bc = Some b →
  ∃ s', hash_insert bc s = Ok tt s'
        ∧ hash_inv (bc :: L) s'
        ∧ hash_step s s'
        ∧ hh (cache s') = hh (cache s)
        ∧ env s' = env s
        ∧ trace s' = trace s.
Proof.
  intros Hinv Hb. destruct (hash_bucket L s (buf_addr b) Hinv) as (bucket & Hbucket).
  unfold hash_insert.
  rewrite (bind_ok _ _ _ _ _ (read_bufctl_ok _ _ _ Hb)).
  rewrite (bind_ok _ _ _ _ _ (get_cache_eq _)).
  rewrite Hbucket. cbn [defined]. unfold bind at 1, ret at 1.
  rewrite modify_cache_eq. eexists. split; [done|].
  destruct Hinv as [Hlen Hok Hcontent Hplaced].
  split; [|split; [solve_hash_step|done]].
  split; cbn.
  - by rewrite length_insert.
  - done.
  - by rewrite (concat_insert_cons _ _ _ _ Hbucket), Hcontent.
  - intros i bucket' bc'.
    destruct (decide (i = Z.to_nat (hash_ptr (buf_addr b) (nr_hash_bits (hh (cache s))))))
      as [->|Hne].
    + rewrite list_lookup_insert_eq by (by eapply lookup_lt_Some).
      intros [= <-] [->|Hbc]%elem_of_cons; [by exists b|].
      by eapply Hplaced.
    + rewrite list_lookup_insert_ne by done. apply Hplaced.
Qed.

Lemma rehash_list_spec l : ∀ L s,
  hash_inv L s →
  (∀ bc, bc ∈ l → is_Some (bufctls s !! bc)) →
  ∃ s', rehash_list l s = Ok tt s'
        ∧ hash_inv (l ++ L) s'
        ∧ hash_step s s'
        ∧ hh (cache s') = hh (cache s)
        ∧ env s' = env s
        ∧ trace s' = trace s.
Proof.
  induction l as [|bc l IH]; intros L s Hinv Hbcs.
  - exists s. by split; [|split; [|split; [reflexivity|]]].
  - destruct (Hbcs bc) as [b Hb]; [by left|].
    destruct (hash_insert_spec L s bc b Hinv Hb)
      as (s1 & Hrun1 & Hinv1 & Hstep1 & Hhh1 & Henv1 & Htr1).
    destruct (IH (bc :: L) s1 Hinv1) as (s2 & Hrun2 & Hinv2 & Hstep2 & Hhh2 & Henv2 & Htr2).
    { intros bc' Hbc'. rewrite (hs_bufctls _ _ Hstep1). apply Hbcs. by right. }
    exists s2. cbn [rehash_list]. rewrite (bind_ok _ _ _ _ _ Hrun1).
    split; [done|]. split; [|split; [by etrans|split; [congruence|split; congruence]]].
    eapply hash_inv_perm; [|done]. solve_Permutation.
Qed.

Lemma rehash_table_spec t : ∀ L s,
  hash_inv L s →
  (∀ bc, bc ∈ concat t → is_Some (bufctls s !! bc)) →
  ∃ s', rehash_table t s = Ok tt s'
        ∧ hash_inv (concat t ++ L) s'
        ∧ hash_step s s'
        ∧ hh (cache s') = hh (cache s)
        ∧ env s' = env s
        ∧ trace s' = trace s.
Proof.
  induction t as [|l t IH]; intros L s Hinv Hbcs.
  - exists s. by split; [|split; [|split; [reflexivity|]]].
  - destruct (rehash_list_spec l L s Hinv)
      as (s1 & Hrun1 & Hinv1 & Hstep1 & Hhh1 & Henv1 & Htr1).
    { intros bc Hbc. apply Hbcs. cbn [concat]. rewrite elem_of_app. by left. }
    destruct (IH (l ++ L) s1 Hinv1) as (s2 & Hrun2 & Hinv2 & Hstep2 & Hhh2 & Henv2 & Htr2).
    { intros bc' Hbc'. rewrite (hs_bufctls _ _ Hstep1). apply Hbcs.
      cbn [concat]. rewrite elem_of_app. by right. }
    exists s2. cbn [rehash_table]. rewrite (bind_ok _ _ _ _ _ Hrun1).
    split; [done|]. split; [|split; [by etrans|split; [congruence|split; congruence]]].
    eapply hash_inv_perm; [|done]. cbn [concat]. solve_Permutation.
Qed.

Lemma hash_inv_bufctls L s bc :
  hash_inv L s → bc ∈ L → is_Some (bufctls s !! bc).
Proof.
  intros [_ _ Hc Hp] Hbc. rewrite <-Hc in Hbc.
  apply elem_of_concat in Hbc as (i & b & Hi & Hb).
  destruct (Hp i b bc Hi Hb) as (? & ? & _). eauto.
Qed.

Lemma try_hash_resize_spec L s :
  hash_inv L s →
  ∃ s', __try_hash_resize s = Ok tt s' ∧ hash_inv L s' ∧ hash_step s s'.
Proof.
  intros Hinv. unfold __try_hash_resize.
  rewrite (bind_ok _ _ _ _ _ (get_cache_eq _)).
  destruct (hash_needs_more (hh (cache s))); cbn [negb];
    [|exists s; split; [done|split; [done|reflexivity]]].
  unfold bind at 1. unfold base_zalloc at 1.
  destruct (hd false (env_base (env s))); cbn [negb].
  2:{ eexists. split; [done|]. split; [|solve_hash_step].
      destruct Hinv. by split. }
  pose proof (hi_len _ _ Hinv) as Hlen.
  destruct (Z.ltb_spec (Z.of_nat (length (alloc_hash (cache s))))
              (nr_hash_lists (hh (cache s)))) as [?|_]; [lia|].
  rewrite (bind_ok _ _ _ _ _ (modify_cache_eq _ _)).
  match goal with |- context [bind (rehash_table _) _ ?s0] => set (s1 := s0) end.
  destruct (hash_incr_ok _ (hi_ok _ _ Hinv)) as [Hok' Hnext].
  assert (Hinv1 : hash_inv [] s1).
  { split; cbn.
    - rewrite length_replicate, Hnext. destruct Hok' as (_ & ? & _). lia.
    - done.
    - by rewrite concat_replicate_nil.
    - intros i bucket bc [-> _]%lookup_replicate. by intros ?%not_elem_of_nil. }
  rewrite take_ge by lia.
  destruct (rehash_table_spec (alloc_hash (cache s)) [] s1 Hinv1)
    as (s2 & Hrun2 & Hinv2 & Hstep2 & Hhh2 & Henv2 & Htr2).
  { intros bc Hbc. change (bufctls s1) with (bufctls s).
    apply (hash_inv_bufctls L); [done|]. by rewrite <-(hi_content _ _ Hinv). }
  rewrite (bind_ok _ _ _ _ _ Hrun2).
  rewrite (bind_ok _ _ _ _ _ (modify_cache_eq _ _)).
  assert (Hinv3 : hash_inv L
    (set_cache (set_hash (hash_reset_load_limit (hh (cache s2)))
                  (alloc_hash (cache s2)) (alloc_hash_is_static (cache s2))
                  (cache s2)) s2)).
  { destruct (hash_reset_ok (hh (cache s2))) as [Hl Hb].
    destruct Hinv2 as [Hlen2 Hok2 Hc2 Hp2]. split; cbn.
    - by rewrite Hl.
    - by eapply hash_ok_eq.
    - rewrite Hc2, app_nil_r. apply (hi_content _ _ Hinv).
    - intros i bucket bc Hi Hbc. rewrite Hb. by eapply Hp2. }
  assert (Hstep3 : hash_step s
    (set_cache (set_hash (hash_reset_load_limit (hh (cache s2)))
                  (alloc_hash (cache s2)) (alloc_hash_is_static (cache s2))
                  (cache s2)) s2)).
  { etrans; [|etrans; [exact Hstep2|solve_hash_step]]. solve_hash_step. }
  destruct (alloc_hash_is_static (cache s)).
  - eexists. split; [done|]. by split.
  - eexists. split; [done|]. split.
    + destruct Hinv3. by split.
    + etrans; [exact Hstep3|]. solve_hash_step.
Qed.

Lemma track_alloc_spec L s bc b :
  hash_inv L s →
  bufctls s !! bc = Some b →
  ∃ s', __track_alloc bc s = Ok tt s' ∧ hash_inv (bc :: L) s' ∧ hash_step s s'.
Proof.
  intros Hinv Hb. unfold __track_alloc.
  destruct (hash_insert_spec L s bc b Hinv Hb)
    as (s1 & Hrun1 & Hinv1 & Hstep1 & _).
  rewrite (bind_ok _ _ _ _ _ Hrun1).
  rewrite (bind_ok _ _ _ _ _ (modify_cache_eq _ _)).
  match goal with |- context [__try_hash_resize ?s0] => set (s2 := s0) end.
  assert (Hinv2 : hash_inv (bc :: L) s2).
  { destruct Hinv1. by split. }
  destruct (try_hash_resize_spec _ s2 Hinv2) as (s3 & Hrun3 & Hinv3 & Hstep3).
  exists s3. split; [done|]. split; [done|].
  etrans; [exact Hstep1|]. etrans; [|exact Hstep3]. solve_hash_step.
Qed.

(** The walk of a bucket finds the first bufctl for [buf]. *)
Lemma yank_from_spec bucket buf s :
  (∀ bc, bc ∈ bucket → is_Some (bufctls s !! bc)) →
  buf ∈ addr_of (bufctls s) <$> bucket →
  ∃ bc b rest, yank_from bucket buf s = Ok (Some (bc, rest)) s
               ∧ bufctls s !! bc = Some b
               ∧ buf_addr b = buf
               ∧ bucket ≡ₚ bc :: rest.
Proof.
  induction bucket as [|bc0 bucket IH]; intros Hbcs Hin.
  { by apply not_elem_of_nil in Hin. }
  destruct (Hbcs bc0) as [b0 Hb0]; [by left|].
  cbn [yank_from]. rewrite (bind_ok _ _ _ _ _ (read_bufctl_ok _ _ _ Hb0)).
  destruct (Z.eqb_spec (buf_addr b0) buf) as [Heq|Hne].
  - by exists bc0, b0, bucket.
  - rewrite fmap_cons in Hin. apply elem_of_cons in Hin as [Hin|Hin].
    { unfold addr_of in Hin. rewrite Hb0 in Hin. cbn in Hin. done. }
    destruct IH as (bc & b & rest & Hrun & Hb & Haddr & Hperm); [|done|].
    { intros bc' Hbc'. apply Hbcs. by right. }
    rewrite (bind_ok _ _ _ _ _ Hrun).
    exists bc, b, (bc0 :: rest). split; [done|]. split; [done|]. split; [done|].
    rewrite Hperm. apply Permutation_swap.
Qed.

Lemma yank_bufctl_spec L s buf :
  hash_inv L s →
  buf ∈ addr_of (bufctls s) <$> L →
  ∃ bc b L' s', __yank_bufctl buf s = Ok bc s'
    ∧ bufctls s !! bc = Some b
    ∧ buf_addr b = buf
    ∧ L ≡ₚ bc :: L'
    ∧ hash_inv L' s'
    ∧ hash_step s s'
    ∧ env s' = env s ∧ trace s' = trace s.
Proof.
  intros Hinv Hin.
  apply list_elem_of_fmap in Hin as (bc0 & Hbuf & Hbc0).
  pose proof Hinv as [Hlen Hok Hcontent Hplaced].
  rewrite <-Hcontent in Hbc0.
  apply elem_of_concat in Hbc0 as (i & bucket & Hbucket & Hbc0).
  destruct (Hplaced i bucket bc0 Hbucket Hbc0) as (b0 & Hb0 & Hidx).
  assert (Hbuf0 : buf_addr b0 = buf).
  { unfold addr_of in Hbuf. rewrite Hb0 in Hbuf. by cbn in Hbuf. }
  rewrite Hbuf0 in Hidx. subst i.
  destruct (yank_from_spec bucket buf s) as (bc & b & rest & Hrun & Hb & Haddr & Hperm).
  { intros bc' Hbc'. destruct (Hplaced _ _ bc' Hbucket Hbc') as (? & ? & _). eauto. }
  { apply list_elem_of_fmap. by exists bc0. }
  unfold __yank_bufctl.
  rewrite (bind_ok _ _ _ _ _ (get_cache_eq _)).
  rewrite Hbucket. cbn [defined]. unfold bind at 1, ret at 1.
  rewrite (bind_ok _ _ _ _ _ Hrun).
  rewrite (bind_ok _ _ _ _ _ (modify_cache_eq _ _)).
  exists bc, b, (concat (<[Z.to_nat (hash_ptr buf (nr_hash_bits (hh (cache s)))):=rest]>
                           (alloc_hash (cache s)))).
  eexists. split; [done|]. split; [done|]. split; [done|].
  split; [by rewrite <-Hcontent; eapply concat_insert_remove|].
  split; [|split; [solve_hash_step|done]].
  split; cbn.
  - by rewrite length_insert.
  - done.
  - done.
  - intros i bucket' bc'.
    destruct (decide (i = Z.to_nat (hash_ptr buf (nr_hash_bits (hh (cache s))))))
      as [->|Hne].
    + rewrite list_lookup_insert_eq by (by eapply lookup_lt_Some).
      intros [= <-] Hbc'. eapply Hplaced; [done|]. rewrite Hperm. by right.
    + rewrite list_lookup_insert_ne by done. apply Hplaced.
Qed.

End hash_ops.

(** ** Regions of slabs, read off the trace *)

Section imports.
Context `{Platform}.

Lemma slab_imports_quiet evs : Forall quiet evs → slab_imports evs = [].
Proof.
  induction 1 as [|e evs He Hevs IH]; [done|].
  destruct e as [| |[]| | | | | |]; cbn in He |- *; done.
Qed.

Lemma slab_imports_app_quiet t evs :
  Forall quiet evs → slab_imports (t ++ evs) = slab_imports t.
Proof.
  intros Hq. induction t as [|e t IH].
  - cbn. by apply slab_imports_quiet.
  - destruct e as [| |[]| | | | | |]; cbn [app slab_imports]; try done.
    destruct t as [|e' t].
    + cbn [app]. rewrite (slab_imports_quiet _ Hq).
      destruct Hq as [|e0 evs He0 Hevs]; [done|].
      by destruct e0 as [| |[]| | | | | |].
    + cbn [app] in *. rewrite IH. done.
Qed.

Lemma slab_imports_app_grow t a R sz evs :
  a ≠ 0 → R ≠ 0 → Forall quiet evs →
  slab_imports (t ++ EvCacheAlloc kmem_slab_cache a :: EvArenaAlloc sz R :: evs)
  = slab_imports t ++ [(a, R)].
Proof.
  intros Ha HR Hq. induction t as [|e t IH].
  - cbn. rewrite decide_True by done. by rewrite (slab_imports_quiet _ Hq).
  - destruct e as [| |[]| | | | | |]; cbn [app slab_imports]; try done.
    destruct t as [|e' t].
    + cbn [app] in *. by rewrite IH.
    + cbn [app] in *. rewrite IH.
      destruct e' as [| |[]| | | | | |]; try done.
      by destruct (decide _).
Qed.

Lemma assoc_lookup_app a l l' :
  assoc_lookup a (l ++ l')
  = match assoc_lookup a l with
    | Some v => Some v
    | None => assoc_lookup a l'
    end.
Proof.
  induction l as [|[k v] l IH]; [done|].
  cbn. by destruct (decide (k = a)).
Qed.

Lemma region_of_slab_quiet t evs a :
  Forall quiet evs → region_of_slab (t ++ evs) a = region_of_slab t a.
Proof. intros Hq. unfold region_of_slab. by rewrite slab_imports_app_quiet. Qed.

(** The region of a slab that comes with a grow, and of the slabs that
    were there. *)
Lemma region_of_slab_grow t a R sz evs b :
  a ≠ 0 → R ≠ 0 → Forall quiet evs →
  region_of_slab (t ++ EvCacheAlloc kmem_slab_cache a :: EvArenaAlloc sz R :: evs) b
  = match assoc_lookup b (slab_imports t) with
    | Some v => v
    | None => if decide (a = b) then R else 0
    end.
Proof.
  intros Ha HR Hq. unfold region_of_slab.
  rewrite slab_imports_app_grow, assoc_lookup_app by done.
  destruct (assoc_lookup b (slab_imports t)); [done|].
  cbn. by destruct (decide (a = b)).
Qed.

End imports.

(** ** The slab layer keeps the invariant of a cache with bufctls *)

Section bufctl_frames.
Context `{Platform} `{!PlatformOk}.

Lemma cache_geometry_frame s s' :
  slab_frame s s' →
  cache_geometry (cache s') = cache_geometry (cache s)
  ∧ __use_bufctls (cache s') = __use_bufctls (cache s).
Proof.
  intros Hf. unfold cache_geometry, slab_capacity, region_size, __use_bufctls.
  by rewrite (sf_obj_size _ _ Hf), (sf_import_amt _ _ Hf), (sf_flags _ _ Hf).
Qed.

Lemma hash_inv_ext L s s' :
  hh (cache s') = hh (cache s) →
  alloc_hash (cache s') = alloc_hash (cache s) →
  (∀ bc b, bufctls s !! bc = Some b → bufctls s' !! bc = Some b) →
  hash_inv L s → hash_inv L s'.
Proof.
  intros Hhh Hah Hbcs [Hlen Hok Hc Hp]. split; rewrite ?Hhh, ?Hah; try done.
  intros i bucket bc Hi Hbc. destruct (Hp i bucket bc Hi Hbc) as (b & Hb & Hidx).
  exists b. split; [by apply Hbcs|done].
Qed.

Lemma hash_inv_content L s : hash_inv L s → hash_inv (hashed_bufctl_ptrs s) s.
Proof. intros Hinv. eapply hash_inv_perm; [|done]. symmetry. apply Hinv. Qed.

Lemma bufctl_env_ok_ext g G G' s s' :
  env_slab (env s') = env_slab (env s) →
  env_bufctl (env s') = env_bufctl (env s) →
  env_arena (env s') = env_arena (env s) →
  (∀ a, a ∈ nonnull (env_slab (env s)) → slabs s !! a = None →
        slabs s' !! a = None) →
  (∀ bc, bufctls s !! bc = None → bufctls s' !! bc = None) →
  (∀ a, a ∈ slab_lists (cache s') → a ∈ slab_lists (cache s) ∧ G' a = G a) →
  bufctl_env_ok g G s → bufctl_env_ok g G' s'.
Proof.
  intros Hes Heb Hea Hsl Hbc Hl [? Hsn ? Hbn ? ? Han].
  split; rewrite ?Hes, ?Heb, ?Hea; try done.
  - intros a Ha. apply Hsl; [done|]. by apply Hsn.
  - intros bc Hb. apply Hbc. by apply Hbn.
  - intros R a HR Ha. destruct (Hl a Ha) as [Ha' ->]. by apply Han.
Qed.

(** The slab lists after the accounting are those before, reordered. *)
Lemma alloc_account_lists a s s' :
  alloc_account a s = Ok tt s' →
  slab_lists (cache s') ≡ₚ slab_lists (cache s).
Proof.
  unfold alloc_account. intros Hrun.
  apply bind_inv in Hrun as (sa & s1 & [-> _]%read_slab_inv & Hrun).
  apply bind_inv in Hrun as ([] & s1 & [= <-] & Hrun).
  apply bind_inv in Hrun as (cp & s2 & [= <- <-] & Hrun).
  apply bind_inv in Hrun as ([] & s3 & Hrun3 & [= <-]).
  cbn. destruct (_ =? _) in Hrun3.
  - apply bind_inv in Hrun3 as (partial & s4 & Hrm & [= <-]).
    unfold TAILQ_REMOVE in Hrm. apply defined_inv in Hrm as [-> Hrm].
    apply unlink_inv in Hrm. unfold slab_lists. cbn.
    destruct_state s. cbn in *. rewrite Hrm. solve_Permutation.
  - injection Hrun3 as <-. by destruct_state s.
Qed.

Lemma free_account_lists a s s' :
  free_account a s = Ok tt s' →
  slab_lists (cache s') ≡ₚ slab_lists (cache s).
Proof.
  unfold free_account. intros Hrun.
  apply bind_inv in Hrun as (sa & s1 & [-> _]%read_slab_inv & Hrun).
  apply bind_inv in Hrun as ([] & s1 & [= <-] & Hrun).
  apply bind_inv in Hrun as ([] & s2 & [= <-] & Hrun).
  apply bind_inv in Hrun as (cp & s3 & [= <- <-] & Hrun).
  cbn in Hrun. destruct (_ =? _) in Hrun; [|destruct (_ =? _) in Hrun].
  - apply bind_inv in Hrun as (full & s4 & Hrm & [= <-]).
    unfold TAILQ_REMOVE in Hrm. apply defined_inv in Hrm as [-> Hrm].
    apply unlink_inv in Hrm. unfold slab_lists. cbn.
    destruct_state s. cbn in *. rewrite Hrm. solve_Permutation.
  - apply bind_inv in Hrun as (partial & s4 & Hrm & [= <-]).
    unfold TAILQ_REMOVE in Hrm. apply defined_inv in Hrm as [-> Hrm].
    apply unlink_inv in Hrm. unfold slab_lists. cbn.
    destruct_state s. cbn in *. rewrite Hrm. solve_Permutation.
  - injection Hrun as <-. by destruct_state s.
Qed.

End bufctl_frames.

Section bufctl_ops.
Context `{Platform} `{!PlatformOk}.

Lemma freelist_of_lookup sl a sa :
  sl !! a = Some sa → freelist_of sl a = bufctl_freelist sa.
Proof. unfold freelist_of. by intros ->. Qed.

Lemma addr_of_lookup bcs bc b : bcs !! bc = Some b → addr_of bcs bc = buf_addr b.
Proof. unfold addr_of. by intros ->. Qed.

(** Lines 525-544 of [__kmem_alloc_from_slab] for a cache with bufctls
    and a slab on the partial list: the first bufctl of the slab's free
    list moves to the hash, and its buffer is out of the slab layer. *)
Lemma alloc_bufctl_spec A s a :
  bufctl_inv A s →
  __use_bufctls (cache s) = true →
  a ∈ partial_slab_list (cache s) →
  ∃ r s1 s2 sa sa2,
    alloc_take_object a s = Ok r s1
    ∧ alloc_account a s1 = Ok tt s2
    ∧ bufctl_inv (r :: A) s2
    ∧ nr_cur_alloc (cache s2) = wrap SIZE_MAX (nr_cur_alloc (cache s) + 1)
    ∧ in_region (cache_geometry (cache s)) (region_of_slab (trace s) a) r
    ∧ slabs s !! a = Some sa
    ∧ slabs s2 !! a = Some sa2
    ∧ num_busy_obj sa2 = num_busy_obj sa + 1
    ∧ a ∈ slab_lists (cache s2)
    ∧ in_region (cache_geometry (cache s2)) (region_of_slab (trace s2) a) r.
Proof.
  intros Hinv Huse Ha.
  pose proof (bi_geometry _ _ Hinv) as Hg.
  pose proof (bi_slabs _ _ Hinv) as Hslabs.
  set (g := cache_geometry (cache s)) in *.
  set (G := region_of_slab (trace s)) in *.
  set (F := free_addrs (slabs s) (bufctls s)) in *.
  assert (Hlisted : a ∈ slab_lists (cache s)).
  { unfold slab_lists. rewrite !elem_of_app. auto. }
  destruct (slab_ok _ _ _ _ _ _ _ _ Hslabs a Hlisted) as (sa & Hsa & Htot & Hbusy & Hperm).
  pose proof (partial_ok _ _ _ _ _ _ _ _ Hslabs a sa Ha Hsa) as Hlt.
  destruct (free_slot_exists _ _ _ _ _ _ _ _ a sa Hg Hslabs Hlisted Hsa Hlt)
    as (r & fr & HF).
  assert (Hfl : ∃ bc rest, bufctl_freelist sa = bc :: rest
                  ∧ addr_of (bufctls s) bc = r
                  ∧ addr_of (bufctls s) <$> rest = fr).
  { unfold F, free_addrs in HF. rewrite (freelist_of_lookup _ _ _ Hsa) in HF.
    destruct (bufctl_freelist sa) as [|bc rest]; [done|].
    rewrite fmap_cons in HF. injection HF as ? ?. by exists bc, rest. }
  destruct Hfl as (bc & rest & Hfl & Hr & Hfr).
  destruct (bi_free _ _ Hinv a bc Hlisted) as (b & Hb & Hmy).
  { rewrite (freelist_of_lookup _ _ _ Hsa), Hfl. by left. }
  rewrite (addr_of_lookup _ _ _ Hb) in Hr.
  (* the run of [alloc_take_object] *)
  set (s0 := set_slabs (<[a:=set_bufctl_freelist rest sa]> (slabs s)) s).
  assert (Hinv0 : hash_inv (hashed_bufctl_ptrs s) s0).
  { eapply hash_inv_ext; [| | |apply (bi_hash _ _ Hinv)]; by destruct_state s. }
  assert (Hb0 : bufctls s0 !! bc = Some b) by (by destruct_state s).
  destruct (track_alloc_spec _ s0 bc b Hinv0 Hb0) as (s1 & Hrun1 & Hinv1 & Hstep1).
  assert (Hb1 : bufctls s1 !! bc = Some b) by (by rewrite (hs_bufctls _ _ Hstep1)).
  assert (Htake : alloc_take_object a s = Ok r s1).
  { unfold alloc_take_object.
    rewrite (bind_ok _ _ _ _ _ (get_cache_eq _)).
    rewrite (bind_ok _ _ _ _ _ (read_slab_ok _ _ _ Hsa)).
    rewrite Huse. cbn [negb]. rewrite Hfl.
    unfold write_slab. unfold bind at 1. unfold modify at 1.
    fold s0. rewrite (bind_ok _ _ _ _ _ Hrun1).
    rewrite (bind_ok _ _ _ _ _ (read_bufctl_ok _ _ _ Hb1)). by rewrite Hr. }
  pose proof (alloc_take_object_frame a s r s1 Htake) as Hframe1.
  destruct (cache_geometry_frame _ _ Hframe1) as [Hg1 Huse1].
  assert (Hc1 : full_slab_list (cache s1) = full_slab_list (cache s)
                ∧ partial_slab_list (cache s1) = partial_slab_list (cache s)
                ∧ empty_slab_list (cache s1) = empty_slab_list (cache s)
                ∧ nr_cur_alloc (cache s1) = nr_cur_alloc (cache s)).
  { rewrite (hs_cache _ _ Hstep1). by destruct_state s. }
  destruct Hc1 as (Hfull1 & Hpartial1 & Hempty1 & Hnr1).
  assert (Hsl1 : slabs s1 = <[a:=set_bufctl_freelist rest sa]> (slabs s)).
  { by rewrite (hs_slabs _ _ Hstep1). }
  assert (Hslabs1 : slabs_inv g A G F s1).
  { unfold slabs_inv. rewrite Hfull1, Hpartial1, Hempty1, Hsl1.
    eapply slabs_ok_records; [|exact Hslabs].
    intros a' Ha'. split; [done|]. split; [done|]. intros sa' Hsa'.
    destruct (decide (a' = a)) as [->|Hne].
    - rewrite lookup_insert_eq. simplify_eq. by eexists.
    - rewrite lookup_insert_ne by done. by eexists. }
  assert (Ha1 : a ∈ partial_slab_list (cache s1)) by (by rewrite Hpartial1).
  destruct (alloc_account_spec g A G F s1 a r fr Hg Hslabs1 Ha1 HF)
    as (s2 & sa1 & Hrun2 & Hslabs2 & Hin & Hframe2 & Hnr2 & Hsa1 & Hsl2).
  rewrite Hsl1, lookup_insert_eq in Hsa1. injection Hsa1 as <-.
  pose proof (alloc_account_frame a s1 tt s2 Hrun2) as Hsf2.
  destruct (cache_geometry_frame _ _ Hsf2) as [Hg2 Huse2].
  pose proof (alloc_account_lists a s1 s2 Hrun2) as Hlists2.
  assert (Hlists : ∀ a', a' ∈ slab_lists (cache s2) ↔ a' ∈ slab_lists (cache s)).
  { intros a'. rewrite Hlists2. unfold slab_lists.
    by rewrite Hfull1, Hpartial1, Hempty1. }
  assert (Htr2 : ∃ evs, trace s2 = trace s ++ evs ∧ Forall quiet evs).
  { rewrite (af_trace _ _ Hframe2). destruct (hs_trace _ _ Hstep1) as (evs & -> & Hq).
    by exists evs. }
  destruct Htr2 as (evs & Htr2 & Hq).
  assert (HG2 : ∀ a', region_of_slab (trace s2) a' = G a').
  { intros a'. unfold G. rewrite Htr2. by apply region_of_slab_quiet. }
  assert (Hbc2 : bufctls s2 = bufctls s).
  { by rewrite (af_bufctls _ _ Hframe2), (hs_bufctls _ _ Hstep1). }
  assert (Hhash2 : hashed_bufctl_ptrs s2 ≡ₚ bc :: hashed_bufctl_ptrs s).
  { unfold hashed_bufctl_ptrs at 1. rewrite (af_cache _ _ Hframe2). cbn.
    apply (hi_content _ _ Hinv1). }
  exists r, s1, s2, sa, (set_num_busy_obj (num_busy_obj sa + 1) (set_bufctl_freelist rest sa)).
  split; [done|]. split; [done|]. split; [|split; [by rewrite Hnr2, Hnr1|]].
  2:{ split; [done|]. split; [done|]. split; [by rewrite Hsl2, lookup_insert_eq|].
      split; [done|]. split; [by apply Hlists|]. by rewrite Hg2, Hg1, HG2. }
  split.
  - by rewrite Hg2, Hg1.
  - rewrite Hg2, Hg1. fold g. unfold slabs_inv in *.
    eapply slabs_ok_records; [|exact Hslabs2].
    intros a' Ha'. split; [by apply HG2|]. split; [|by eauto].
    unfold with_free, free_addrs, freelist_of. rewrite Hbc2, Hsl2, Hsl1.
    destruct (decide (a' = a)) as [->|Hne].
    + rewrite lookup_insert_eq. cbn. by rewrite Hfr.
    + rewrite !lookup_insert_ne by done. done.
  - eapply hash_inv_content, hash_inv_ext; [| | |exact Hinv1].
    + by rewrite (af_cache _ _ Hframe2).
    + by rewrite (af_cache _ _ Hframe2).
    + intros ? ?. by rewrite (af_bufctls _ _ Hframe2).
  - intros a' bc' Ha' Hbc'. rewrite Hbc2. apply Hlists in Ha'.
    apply (bi_free _ _ Hinv a' bc' Ha').
    unfold freelist_of in *. rewrite Hsl2, Hsl1 in Hbc'.
    destruct (decide (a' = a)) as [->|Hne].
    + rewrite lookup_insert_eq in Hbc'. cbn in Hbc'. rewrite Hsa. cbn.
      rewrite Hfl. by right.
    + by rewrite !lookup_insert_ne in Hbc' by done.
  - intros bc' Hbc'. rewrite Hhash2 in Hbc'. rewrite Hbc2, Hg2, Hg1.
    apply elem_of_cons in Hbc' as [->|Hbc'].
    + exists b. split; [done|]. rewrite HG2, Hmy, Hr.
      split; [by apply Hlists|done].
    + destruct (bi_hashed _ _ Hinv bc' Hbc') as (b' & Hb' & Hl' & Hin').
      exists b'. split; [done|]. rewrite HG2. split; [by apply Hlists|done].
  - rewrite Hhash2, Hbc2, fmap_cons, (addr_of_lookup _ _ _ Hb), Hr.
    by rewrite (bi_addrs _ _ Hinv).
  - intros a' R'. rewrite Htr2, slab_imports_app_quiet by done.
    intros Himp. apply Hlists. by apply (bi_imported _ _ Hinv a' R').
  - rewrite Hg2, Hg1.
    eapply bufctl_env_ok_ext; [| | | | | |apply (bi_env _ _ Hinv)].
    + by rewrite (af_env _ _ Hframe2), (hs_env _ _ Hstep1).
    + by rewrite (af_env _ _ Hframe2), (hs_env _ _ Hstep1).
    + by rewrite (af_env _ _ Hframe2), (hs_env _ _ Hstep1).
    + intros a' _ Hnone. rewrite Hsl2, Hsl1.
      rewrite !lookup_insert_ne by congruence. done.
    + intros bc'. by rewrite Hbc2.
    + intros a' Ha'. split; [by apply Hlists|by apply HG2].
Qed.

(** [__kmem_free_to_slab] for a cache with bufctls and an object that is
    out of the slab layer: its bufctl moves from the hash to the free list
    of its slab. *)
Lemma free_bufctl_spec A A' s x :
  bufctl_inv A s →
  __use_bufctls (cache s) = true →
  A ≡ₚ x :: A' →
  ∃ a s1 s2 sa sa2,
    free_put_object x s = Ok a s1
    ∧ free_account a s1 = Ok tt s2
    ∧ bufctl_inv A' s2
    ∧ nr_cur_alloc (cache s2) = wrap SIZE_MAX (nr_cur_alloc (cache s) - 1)
    ∧ a ∈ slab_lists (cache s)
    ∧ in_region (cache_geometry (cache s)) (region_of_slab (trace s) a) x
    ∧ slabs s !! a = Some sa
    ∧ slabs s2 !! a = Some sa2
    ∧ num_busy_obj sa2 = num_busy_obj sa - 1.
Proof.
  intros Hinv Huse HA.
  pose proof (bi_geometry _ _ Hinv) as Hg.
  pose proof (bi_slabs _ _ Hinv) as Hslabs.
  set (g := cache_geometry (cache s)) in *.
  set (G := region_of_slab (trace s)) in *.
  set (F := free_addrs (slabs s) (bufctls s)) in *.
  assert (Hx : x ∈ addr_of (bufctls s) <$> hashed_bufctl_ptrs s).
  { rewrite (bi_addrs _ _ Hinv), HA. by left. }
  destruct (yank_bufctl_spec _ s x (bi_hash _ _ Hinv) Hx)
    as (bc & b & L' & s0 & Hrun0 & Hb & Haddr & HL & Hinv0 & Hstep0 & Henv0 & Htr0).
  destruct (bi_hashed _ _ Hinv bc) as (b' & Hb' & Hlisted & Hin).
  { rewrite HL. by left. }
  simplify_eq. set (a := my_slab b) in *.
  destruct (slab_ok _ _ _ _ _ _ _ _ Hslabs a Hlisted) as (sa & Hsa & Htot & Hbusy & Hperm).
  set (s1 := set_slabs (<[a:=set_bufctl_freelist (bc :: bufctl_freelist sa) sa]>
                          (slabs s0)) s0).
  assert (Hput : free_put_object (buf_addr b) s = Ok a s1).
  { unfold free_put_object.
    rewrite (bind_ok _ _ _ _ _ (get_cache_eq _)). rewrite Huse. cbn [negb].
    rewrite (bind_ok _ _ _ _ _ Hrun0).
    rewrite (bind_ok _ _ _ _ _ (read_bufctl_ok _ _ b ltac:(by rewrite (hs_bufctls _ _ Hstep0)))).
    rewrite (bind_ok _ _ _ _ _ (read_slab_ok _ _ sa ltac:(by rewrite (hs_slabs _ _ Hstep0)))).
    done. }
  pose proof (free_put_object_frame _ s a s1 Hput) as Hframe1.
  destruct (cache_geometry_frame _ _ Hframe1) as [Hg1 Huse1].
  assert (Hc1 : full_slab_list (cache s1) = full_slab_list (cache s)
                ∧ partial_slab_list (cache s1) = partial_slab_list (cache s)
                ∧ empty_slab_list (cache s1) = empty_slab_list (cache s)
                ∧ nr_cur_alloc (cache s1) = nr_cur_alloc (cache s)).
  { change (cache s1) with (cache s0). rewrite (hs_cache _ _ Hstep0).
    by destruct_state s. }
  destruct Hc1 as (Hfull1 & Hpartial1 & Hempty1 & Hnr1).
  assert (Hsl1 : slabs s1
                 = <[a:=set_bufctl_freelist (bc :: bufctl_freelist sa) sa]> (slabs s)).
  { unfold s1. cbn. by rewrite (hs_slabs _ _ Hstep0). }
  assert (Hslabs1 : slabs_inv g A G F s1).
  { unfold slabs_inv. rewrite Hfull1, Hpartial1, Hempty1, Hsl1.
    eapply slabs_ok_records; [|exact Hslabs].
    intros a' Ha'. split; [done|]. split; [done|]. intros sa' Hsa'.
    destruct (decide (a' = a)) as [->|Hne].
    - rewrite lookup_insert_eq. simplify_eq. by eexists.
    - rewrite lookup_insert_ne by done. by eexists. }
  assert (Ha1 : a ∈ slab_lists (cache s1)).
  { unfold slab_lists. by rewrite Hfull1, Hpartial1, Hempty1. }
  destruct (free_account_spec g A A' G F s1 a (buf_addr b) Hg Hslabs1 HA Ha1 Hin)
    as (s2 & sa1 & Hrun2 & Hslabs2 & Hframe2 & Hnr2 & Hsa1 & Hbusy1 & Hsl2).
  rewrite Hsl1, lookup_insert_eq in Hsa1. injection Hsa1 as <-.
  pose proof (free_account_frame a s1 tt s2 Hrun2) as Hsf2.
  destruct (cache_geometry_frame _ _ Hsf2) as [Hg2 Huse2].
  pose proof (free_account_lists a s1 s2 Hrun2) as Hlists2.
  assert (Hlists : ∀ a', a' ∈ slab_lists (cache s2) ↔ a' ∈ slab_lists (cache s)).
  { intros a'. rewrite Hlists2. unfold slab_lists.
    by rewrite Hfull1, Hpartial1, Hempty1. }
  assert (Htr2 : trace s2 = trace s).
  { by rewrite (af_trace _ _ Hframe2). }
  assert (Henv2 : env s2 = env s).
  { by rewrite (af_env _ _ Hframe2). }
  assert (Hbc2 : bufctls s2 = bufctls s).
  { rewrite (af_bufctls _ _ Hframe2). unfold s1. cbn. apply (hs_bufctls _ _ Hstep0). }
  assert (Hhash2 : hashed_bufctl_ptrs s2 ≡ₚ L').
  { unfold hashed_bufctl_ptrs at 1. rewrite (af_cache _ _ Hframe2). cbn.
    apply (hi_content _ _ Hinv0). }
  exists a, s1, s2, sa,
    (set_num_busy_obj (num_busy_obj sa - 1)
       (set_bufctl_freelist (bc :: bufctl_freelist sa) sa)).
  split; [done|]. split; [done|]. split; [|split; [by rewrite Hnr2, Hnr1|]].
  2:{ split; [done|]. split; [done|]. split; [done|]. split; [|done].
      by rewrite Hsl2, lookup_insert_eq. }
  split.
  - by rewrite Hg2, Hg1.
  - rewrite Hg2, Hg1, Htr2. fold g G. unfold slabs_inv in *.
    eapply slabs_ok_records; [|exact Hslabs2].
    intros a' Ha'. split; [done|]. split; [|by eauto].
    unfold with_free, F, free_addrs, freelist_of. rewrite Hbc2, Hsl2, Hsl1.
    destruct (decide (a' = a)) as [->|Hne].
    + rewrite lookup_insert_eq, Hsa. cbn. by rewrite (addr_of_lookup _ _ _ Hb).
    + rewrite !lookup_insert_ne by done. done.
  - eapply hash_inv_content, hash_inv_ext; [| | |exact Hinv0].
    + by rewrite (af_cache _ _ Hframe2).
    + by rewrite (af_cache _ _ Hframe2).
    + intros ? ?. by rewrite (af_bufctls _ _ Hframe2).
  - intros a' bc' Ha' Hbc'. rewrite Hbc2. apply Hlists in Ha'.
    unfold freelist_of in Hbc'. rewrite Hsl2, Hsl1 in Hbc'.
    destruct (decide (a' = a)) as [->|Hne].
    + rewrite lookup_insert_eq in Hbc'. cbn in Hbc'.
      apply elem_of_cons in Hbc' as [->|Hbc']; [by exists b|].
      apply (bi_free _ _ Hinv a bc' Ha').
      by rewrite (freelist_of_lookup _ _ _ Hsa).
    + rewrite !lookup_insert_ne in Hbc' by done.
      by apply (bi_free _ _ Hinv a' bc' Ha').
  - intros bc' Hbc'. rewrite Hhash2 in Hbc'. rewrite Hbc2, Hg2, Hg1, Htr2.
    destruct (bi_hashed _ _ Hinv bc') as (b' & Hb' & Hl' & Hin').
    { rewrite HL. by right. }
    exists b'. split; [done|]. split; [by apply Hlists|done].
  - rewrite Hhash2, Hbc2.
    pose proof (bi_addrs _ _ Hinv) as Haddrs. rewrite HL, fmap_cons, HA in Haddrs.
    rewrite (addr_of_lookup _ _ _ Hb) in Haddrs.
    by apply Permutation_cons_inv in Haddrs.
  - intros a' R'. rewrite Htr2.
    intros Himp. apply Hlists. by apply (bi_imported _ _ Hinv a' R').
  - rewrite Hg2, Hg1, Htr2.
    eapply bufctl_env_ok_ext; [| | | | | |apply (bi_env _ _ Hinv)].
    + by rewrite Henv2.
    + by rewrite Henv2.
    + by rewrite Henv2.
    + intros a' _ Hnone. rewrite Hsl2, Hsl1.
      rewrite !lookup_insert_ne by congruence. done.
    + intros bc'. by rewrite Hbc2.
    + intros a' Ha'. split; [by apply Hlists|done].
Qed.

End bufctl_ops.

Section bufctl_grow.
Context `{Platform} `{!PlatformOk}.

Lemma nonnull_cons x l : x ≠ 0 → nonnull (x :: l) = x :: nonnull l.
Proof. intros Hx. unfold nonnull. by rewrite filter_cons_True. Qed.

Lemma nonnull_tl l : hd 0 l ≠ 0 → nonnull l = hd 0 l :: nonnull (tl l).
Proof. destruct l as [|x l]; [done|]. cbn. apply nonnull_cons. Qed.

(** The loop of the bufctl branch of [kmem_cache_grow]: [n] fresh
    bufctls, the last one first on the slab's free list, for the buffers
    [buf], [buf + step], ... *)
Lemma make_bufctls_spec n : ∀ s s' a buf step sa,
  make_bufctls n a buf step s = Ok tt s' →
  slabs s !! a = Some sa →
  NoDup (nonnull (env_bufctl (env s))) →
  (∀ bc, bc ∈ nonnull (env_bufctl (env s)) → bufctls s !! bc = None) →
  ∃ bcs,
    length bcs = n
    ∧ slabs s' = <[a:=set_bufctl_freelist (reverse bcs ++ bufctl_freelist sa) sa]>
                   (slabs s)
    ∧ addr_of (bufctls s') <$> bcs
      = (λ i, buf + i * step) <$> seqZ 0 (Z.of_nat n)
    ∧ (∀ bc, bc ∈ bcs →
         bufctls s !! bc = None ∧ ∃ b, bufctls s' !! bc = Some b ∧ my_slab b = a)
    ∧ (∀ bc b, bufctls s !! bc = Some b → bufctls s' !! bc = Some b)
    ∧ (∀ bc, bufctls s !! bc = None → bc ∉ bcs → bufctls s' !! bc = None)
    ∧ NoDup (nonnull (env_bufctl (env s')))
    ∧ (∀ bc, bc ∈ nonnull (env_bufctl (env s')) → bufctls s' !! bc = None)
    ∧ cache s' = cache s ∧ magazines s' = magazines s ∧ mem s' = mem s
    ∧ env s' = set_env_bufctl (env_bufctl (env s')) (env s)
    ∧ ∃ evs, trace s' = trace s ++ evs ∧ Forall quiet evs.
Proof.
  induction n as [|n IH]; intros s s' a buf step sa Hrun Hsa Hnd Hnew.
  - injection Hrun as <-. exists []. split; [done|]. split.
    { destruct sa. cbn. by rewrite insert_id. }
    split; [done|]. split; [by intros bc ?%not_elem_of_nil|].
    split; [done|]. split; [done|]. split; [done|]. split; [done|].
    split; [done|]. split; [done|]. split; [done|].
    split; [by destruct s as [? ? ? ? ? [] ?]|].
    exists []. by rewrite app_nil_r.
  - cbn [make_bufctls] in Hrun.
    unfold bind at 1, bufctl_cache_alloc at 1 in Hrun.
    destruct (Z.eqb_spec (hd 0 (env_bufctl (env s))) 0) as [|Hbc]; [done|].
    set (bc := hd 0 (env_bufctl (env s))) in *.
    pose proof (nonnull_tl _ Hbc) as Hq. fold bc in Hq.
    rewrite Hq in Hnd, Hnew. apply NoDup_cons in Hnd as [Hfresh Hnd].
    set (sA := set_trace _ _) in Hrun.
    rewrite (bind_ok _ _ _ _ _ (read_slab_ok a sA sa Hsa)) in Hrun.
    unfold write_slab, write_bufctl in Hrun.
    unfold bind at 1, modify at 1 in Hrun. unfold bind at 1, modify at 1 in Hrun.
    set (sB := set_bufctls _ _) in Hrun.
    assert (Hbcnone : bufctls s !! bc = None) by (apply Hnew; by left).
    destruct (IH sB s' a (buf + step) step
                (set_bufctl_freelist (bc :: bufctl_freelist sa) sa) Hrun)
      as (bcs & Hlen & Hsl & Haddr & Hbcs & Hsome & Hnone & Hnd' & Hnew'
          & Hc & Hm & Hmem & Henv & evs & Htr & Hq').
    { unfold sB, sA. cbn. by rewrite lookup_insert_eq. }
    { done. }
    { intros bc' Hbc'. unfold sB, sA. cbn. rewrite lookup_insert_ne.
      - apply Hnew. by right.
      - intros <-. done. }
    assert (Hbc' : bufctls s' !! bc = Some {| buf_addr := buf; my_slab := a |}).
    { apply Hsome. unfold sB, sA. cbn. by rewrite lookup_insert_eq. }
    exists (bc :: bcs). split; [by rewrite <-Hlen|]. split.
    { rewrite Hsl.
      change (slabs sB)
        with (<[a:=set_bufctl_freelist (bc :: bufctl_freelist sa) sa]> (slabs s)).
      rewrite insert_insert_eq, reverse_cons, <-(assoc (++)). by destruct sa. }
    split.
    { rewrite fmap_cons, (addr_of_lookup _ _ _ Hbc'), Haddr.
      rewrite Nat2Z.inj_succ, (seqZ_cons 0 (Z.succ (Z.of_nat n))) by lia.
      rewrite fmap_cons.
      f_equal; [cbn; lia|].
      rewrite Z.pred_succ, <-(fmap_add_seqZ 1 0), <-list_fmap_compose.
      apply list_fmap_ext. intros i x _. cbn. lia. }
    split.
    { intros bc0 [->|Hbc0]%elem_of_cons.
      - split; [done|]. by eexists.
      - destruct (Hbcs bc0 Hbc0) as [Hn0 Hs0]. split; [|done].
        unfold sB, sA in Hn0. cbn in Hn0.
        by apply lookup_insert_None in Hn0 as [? _]. }
    split.
    { intros bc0 b0 Hb0. apply Hsome. unfold sB, sA. cbn.
      rewrite lookup_insert_ne; [done|]. intros <-. congruence. }
    split.
    { intros bc0 Hn0 Hnot. apply not_elem_of_cons in Hnot as [Hne Hnot].
      apply Hnone; [|done]. unfold sB, sA. cbn. by rewrite lookup_insert_ne. }
    split; [done|]. split; [done|].
    split; [rewrite Hc; unfold sB, sA; by destruct_state s|].
    split; [rewrite Hm; unfold sB, sA; by destruct_state s|].
    split; [rewrite Hmem; unfold sB, sA; by destruct_state s|].
    split; [rewrite Henv; unfold sB, sA; by destruct s as [? ? ? ? ? [] ?]|].
    eexists. rewrite Htr. unfold sB, sA. cbn. rewrite <-(assoc (++)).
    split; [done|]. by constructor.
Qed.

Lemma assoc_lookup_None a l :
  (∀ R, (a, R) ∉ l) → assoc_lookup a l = None.
Proof.
  induction l as [|[k v] l IH]; intros Hnot; [done|].
  cbn. destruct (decide (k = a)) as [->|Hne].
  - destruct (Hnot v). by left.
  - apply IH. intros R HR. apply (Hnot R). by right.
Qed.

Lemma apart_sym g R R' : apart g R R' → apart g R' R.
Proof. intros Hap x ? ?. by apply (Hap x). Qed.

(** [kmem_cache_grow] for a cache with bufctls: the new slab is the
    first of the empty list, its region is the one the arena answered
    with, and the slabs that were there are as they were. *)
Lemma grow_bufctl_inv A s s' :
  bufctl_inv A s →
  __use_bufctls (cache s) = true →
  kmem_cache_grow s = Ok true s' →
  bufctl_inv A s'
  ∧ nr_cur_alloc (cache s') = nr_cur_alloc (cache s)
  ∧ full_slab_list (cache s') = full_slab_list (cache s)
  ∧ partial_slab_list (cache s') = partial_slab_list (cache s)
  ∧ (∃ a, empty_slab_list (cache s') = a :: empty_slab_list (cache s))
  ∧ (∀ b, b ∈ slab_lists (cache s) → slabs s' !! b = slabs s !! b).
Proof.
  intros Hinv Huse Hrun.
  pose proof (kmem_cache_grow_frame s true s' Hrun) as Hframe.
  destruct (cache_geometry_frame _ _ Hframe) as [Hgeo Huse'].
  pose proof (bi_geometry _ _ Hinv) as Hg.
  pose proof (bi_slabs _ _ Hinv) as Hslabs.
  pose proof (bi_env _ _ Hinv) as [Hsnd Hsnew Hbnd Hbnew Haap Hapos Hanew].
  set (g := cache_geometry (cache s)) in *.
  set (G := region_of_slab (trace s)) in *.
  unfold kmem_cache_grow in Hrun.
  rewrite (bind_ok _ _ _ _ _ (get_cache_eq _)) in Hrun.
  destruct (obj_size (cache s) =? 0); [done|].
  rewrite Huse in Hrun. cbn [negb] in Hrun.
  unfold grow_bufctl in Hrun.
  rewrite bind_assoc, (bind_ok _ _ _ _ _ (get_cache_eq _)) in Hrun.
  rewrite bind_assoc in Hrun. unfold bind at 1, slab_cache_alloc at 1 in Hrun.
  set (a := hd 0 (env_slab (env s))) in *.
  destruct (Z.eqb_spec a 0) as [|Ha].
  { unfold bind, ret in Hrun. by rewrite Z.eqb_refl in Hrun. }
  set (sA := set_trace _ _) in Hrun.
  rewrite bind_assoc in Hrun. unfold bind at 1, arena_alloc at 1 in Hrun.
  change (env_arena (env sA)) with (env_arena (env s)) in Hrun.
  set (R := hd 0 (env_arena (env s))) in *.
  destruct (Z.eqb_spec R 0) as [|HR].
  { unfold bind, ret, meta_cache_free, emit, modify in Hrun.
    by rewrite Z.eqb_refl in Hrun. }
  set (sB := set_trace _ _) in Hrun.
  rewrite !bind_assoc in Hrun. unfold write_slab in Hrun.
  unfold bind at 1, modify at 1 in Hrun.
  set (sa := {| num_busy_obj := 0 |}) in Hrun.
  set (sC := set_slabs _ sB) in Hrun.
  apply bind_inv in Hrun as (a' & sD0 & Hmake & Hrun).
  apply bind_inv in Hmake as ([] & sD & Hmake & [= <- <-]).
  destruct (Z.eqb_spec a 0) as [|_]; [done|].
  rewrite (bind_ok _ _ _ _ _ (modify_cache_eq _ _)) in Hrun.
  unfold ret in Hrun. injection Hrun as <-.
  pose proof (nonnull_tl _ Ha) as Hqs. fold a in Hqs.
  pose proof (nonnull_tl _ HR) as Hqa. fold R in Hqa.
  rewrite Hqs in Hsnd, Hsnew. rewrite Hqa in Haap, Hapos, Hanew.
  apply NoDup_cons in Hsnd as [Hafresh Hsnd]. destruct Haap as [HRap Haap].
  assert (Hanone : slabs s !! a = None) by (apply Hsnew; by left).
  assert (Hanew' : a ∉ slab_lists (cache s)).
  { intros Hl. destruct (slab_ok _ _ _ _ _ _ _ _ Hslabs a Hl) as (? & ? & _). congruence. }
  destruct (make_bufctls_spec _ sC sD a R (obj_size (cache s)) sa Hmake)
    as (bcs & Hlen & Hsl & Haddr & Hbcs & Hsome & Hnone & Hnd' & Hnew'
        & Hc & Hm & Hmem & Henv & evs & Htr & Hq).
  { unfold sC. cbn. by rewrite lookup_insert_eq. }
  { exact Hbnd. }
  { exact Hbnew. }
  change (cache sC) with (cache s) in Hc.
  assert (Hcap : import_amt (cache s) / obj_size (cache s) = g_cap g).
  { unfold g, cache_geometry, slab_capacity. cbn. by rewrite Huse. }
  assert (HsD : slabs sD = <[a:=set_bufctl_freelist (reverse bcs) sa]> (slabs s)).
  { rewrite Hsl. unfold sC. cbn. by rewrite insert_insert_eq, app_nil_r. }
  assert (HtrD : trace sD = trace s
            ++ EvCacheAlloc kmem_slab_cache a
               :: EvArenaAlloc (import_amt (cache s)) R :: evs).
  { rewrite Htr. unfold sC, sB, sA. cbn. by rewrite <-!(assoc (++)). }
  assert (HG' : ∀ b, b ∈ slab_lists (cache s) → region_of_slab (trace sD) b = G b).
  { intros b Hb. rewrite HtrD, region_of_slab_grow by done.
    pose proof (regions_pos _ _ _ _ _ _ _ _ Hslabs b Hb) as Hpos.
    unfold G, region_of_slab in Hpos |- *.
    destruct (assoc_lookup b (slab_imports (trace s))); [done|]. cbn in Hpos. lia. }
  assert (HGa : region_of_slab (trace sD) a = R).
  { rewrite HtrD, region_of_slab_grow by done.
    rewrite assoc_lookup_None, decide_True; [done|done|].
    intros R' HR'. apply Hanew'. by apply (bi_imported _ _ Hinv a R'). }
  assert (Hfree : ∀ b, b ∈ slab_lists (cache s) →
            free_addrs (slabs sD) (bufctls sD) b = free_addrs (slabs s) (bufctls s) b).
  { intros b Hb. unfold free_addrs, freelist_of. rewrite HsD.
    rewrite lookup_insert_ne by (intros <-; done).
    apply list_fmap_ext. intros i bc Hbc. unfold addr_of.
    destruct (bi_free _ _ Hinv b bc Hb) as (bb & Hbb & _).
    { unfold freelist_of. by eapply list_elem_of_lookup_2. }
    rewrite Hbb. by rewrite (Hsome _ _ Hbb). }
  assert (Hlists : ∀ b, b ∈ a :: slab_lists (cache s) ↔
             b ∈ full_slab_list (cache s) ++ partial_slab_list (cache s)
                 ++ a :: empty_slab_list (cache s)).
  { intros b. unfold slab_lists. rewrite !elem_of_app, !elem_of_cons, !elem_of_app.
    tauto. }
  set (sE := set_cache _ sD).
  assert (HcE : cache sE
            = set_slab_lists (full_slab_list (cache s)) (partial_slab_list (cache s))
                (a :: empty_slab_list (cache s)) (cache s)).
  { unfold sE. cbn. by rewrite Hc. }
  assert (HgE : cache_geometry (cache sE) = g) by (by rewrite HcE).
  assert (HlE : ∀ b, b ∈ slab_lists (cache sE) ↔ b ∈ a :: slab_lists (cache s)).
  { intros b. rewrite HcE. unfold slab_lists. cbn.
    rewrite !elem_of_app, !elem_of_cons, !elem_of_app. tauto. }
  assert (HhE : hashed_bufctl_ptrs sE = hashed_bufctl_ptrs s).
  { unfold hashed_bufctl_ptrs. by rewrite HcE. }
  split; [|rewrite HcE; cbn; split; [done|]; split; [done|]; split; [done|];
           split; [by eexists|]].
  2:{ intros b Hb. change (slabs sE) with (slabs sD).
      rewrite HsD, lookup_insert_ne; [done|]. intros <-. done. }
  split.
  - by rewrite HgE.
  - unfold slabs_inv. rewrite HgE, HcE. cbn [full_slab_list partial_slab_list
      empty_slab_list set_slab_lists].
    eapply (slabs_ok_grow g A G _ (free_addrs (slabs s) (bufctls s)) _ _ _ _
              (slabs s) (slabs sD) a R (set_bufctl_freelist (reverse bcs) sa)).
    + exact Hg.
    + exact Hslabs.
    + exact Hanew'.
    + apply Hapos. by left.
    + intros b Hb. by apply (Hanew R b); [left|].
    + change (trace sE) with (trace sD). exact HGa.
    + change (slabs sE) with (slabs sD). change (bufctls sE) with (bufctls sD).
      unfold free_addrs, freelist_of. rewrite HsD, lookup_insert_eq. cbn.
      rewrite fmap_reverse, reverse_Permutation, Haddr.
      unfold slot_addrs. rewrite Z2Nat.id, Hcap; [done|].
      rewrite Hcap. pose proof (capacity_ok _ Hg). lia.
    + by rewrite HsD, lookup_insert_eq.
    + done.
    + done.
    + intros b Hb. change (trace sE) with (trace sD).
      change (slabs sE) with (slabs sD). change (bufctls sE) with (bufctls sD).
      split; [by apply HG'|]. split; [by rewrite Hfree|].
      intros sb Hsb. exists sb. rewrite HsD, lookup_insert_ne; [done|].
      intros <-. congruence.
  - eapply hash_inv_content, hash_inv_ext; [| | |apply (bi_hash _ _ Hinv)].
    + by rewrite HcE.
    + by rewrite HcE.
    + exact Hsome.
  - intros b bc Hb Hbc. change (bufctls sE) with (bufctls sD).
    change (slabs sE) with (slabs sD) in Hbc.
    apply HlE in Hb. apply elem_of_cons in Hb as [->|Hb].
    + unfold freelist_of in Hbc. rewrite HsD, lookup_insert_eq in Hbc. cbn in Hbc.
      rewrite elem_of_reverse in Hbc. by destruct (Hbcs bc Hbc) as [_ ?].
    + unfold freelist_of in Hbc. rewrite HsD, lookup_insert_ne in Hbc
        by (intros <-; done).
      destruct (bi_free _ _ Hinv b bc Hb Hbc) as (bb & Hbb & ?).
      exists bb. split; [by apply Hsome|done].
  - intros bc Hbc. rewrite HhE in Hbc. rewrite HgE.
    change (bufctls sE) with (bufctls sD). change (trace sE) with (trace sD).
    destruct (bi_hashed _ _ Hinv bc Hbc) as (bb & Hbb & Hl & Hin).
    exists bb. split; [by apply Hsome|]. rewrite HG' by done. split; [|done].
    apply HlE. by right.
  - rewrite <-(bi_addrs _ _ Hinv), HhE. change (bufctls sE) with (bufctls sD).
    assert (Heq : addr_of (bufctls sD) <$> hashed_bufctl_ptrs s
                  = addr_of (bufctls s) <$> hashed_bufctl_ptrs s); [|by rewrite Heq].
    apply list_fmap_ext. intros i bc Hbc.
    destruct (bi_hashed _ _ Hinv bc) as (bb & Hbb & _).
    { by eapply list_elem_of_lookup_2. }
    unfold addr_of. by rewrite Hbb, (Hsome _ _ Hbb).
  - intros b R'. change (trace sE) with (trace sD).
    rewrite HtrD, slab_imports_app_grow by done.
    intros [Himp|Himp]%elem_of_app; apply HlE.
    + right. by apply (bi_imported _ _ Hinv b R').
    + apply list_elem_of_singleton in Himp. injection Himp as -> _. by left.
  - assert (HenvD : env sE = set_env_bufctl (env_bufctl (env sD))
                      (set_env_arena (tl (env_arena (env s)))
                         (set_env_slab (tl (env_slab (env s))) (env s)))).
    { change (env sE) with (env sD). rewrite Henv. unfold sC, sB, sA. cbn.
      by destruct s as [? ? ? ? ? [] ?]. }
    rewrite HgE. change (trace sE) with (trace sD).
    split; change (slabs sE) with (slabs sD); change (bufctls sE) with (bufctls sD);
      rewrite ?HenvD; cbn [env_slab env_arena env_bufctl set_env_bufctl
                           set_env_arena set_env_slab].
    + done.
    + intros b Hb. rewrite HsD, lookup_insert_ne.
      * apply Hsnew. by right.
      * intros <-. done.
    + done.
    + done.
    + done.
    + intros R' HR'. apply Hapos. by right.
    + intros R' b HR' Hb. apply HlE in Hb.
      apply elem_of_cons in Hb as [->|Hb].
      * rewrite HGa. apply apart_sym.
        by apply (proj1 (Forall_forall _ _) HRap).
      * rewrite HG' by done. apply Hanew; [by right|done].
Qed.

End bufctl_grow.

Section pick.
Context `{Platform} `{!PlatformOk}.

(** The two ways through [alloc_pick_slab]: the first slab of the partial
    list, or the first of the empty list, which then heads the partial
    list, after a grow if the empty list had nothing. *)
Lemma alloc_pick_slab_inv fl s a s' :
  alloc_pick_slab fl s = Ok a s' →
  (s' = s ∧ ∃ rest, partial_slab_list (cache s) = a :: rest)
  ∨ (partial_slab_list (cache s) = []
     ∧ ∃ s1 rest,
         (s1 = s ∧ empty_slab_list (cache s) ≠ []
          ∨ empty_slab_list (cache s) = [] ∧ kmem_cache_grow s = Ok true s1)
         ∧ empty_slab_list (cache s1) = a :: rest
         ∧ s' = set_cache (set_slab_lists (full_slab_list (cache s1))
                             (a :: partial_slab_list (cache s1)) rest (cache s1))
                          s1).
Proof.
  unfold alloc_pick_slab. rewrite (bind_ok _ _ _ _ _ (get_cache_eq _)).
  destruct (partial_slab_list (cache s)) as [|a' rest'] eqn:Hpartial.
  2:{ intros [= <- <-]. left. eauto. }
  intros Hrun. right. split; [done|].
  apply bind_inv in Hrun as ([] & s1 & Hgrow & Hrun).
  rewrite (bind_ok _ _ _ _ _ (get_cache_eq _)) in Hrun.
  destruct (empty_slab_list (cache s1)) as [|a' rest] eqn:Hempty; [done|].
  rewrite (bind_ok _ _ _ _ _ (modify_cache_eq _ _)) in Hrun.
  injection Hrun as <- <-. exists s1, rest. split; [|done].
  destruct (empty_slab_list (cache s)) as [|a0 rest0] eqn:Hempty0.
  - right. split; [done|].
    apply bind_inv in Hgrow as (grown & s2 & Hgrow & Hrun).
    destruct grown; [by injection Hrun as <-|].
    by destruct (_ =? _) in Hrun.
  - left. by injection Hgrow as <-.
Qed.

Lemma slab_lists_pick_empty (full partial : list Z) a rest b :
  b ∈ full ++ (a :: partial) ++ rest ↔ b ∈ full ++ partial ++ a :: rest.
Proof. repeat (rewrite elem_of_app || rewrite elem_of_cons). tauto. Qed.

(** The invariant carries over to a state whose slab layer differs in the
    arrangement of the slab lists at most. *)
Lemma bufctl_inv_transfer A s s' :
  bufctl_inv A s →
  obj_size (cache s') = obj_size (cache s) →
  import_amt (cache s') = import_amt (cache s) →
  flags (cache s') = flags (cache s) →
  hh (cache s') = hh (cache s) →
  alloc_hash (cache s') = alloc_hash (cache s) →
  slabs s' = slabs s →
  bufctls s' = bufctls s →
  env_arena (env s') = env_arena (env s) →
  env_slab (env s') = env_slab (env s) →
  env_bufctl (env s') = env_bufctl (env s) →
  (∃ evs, trace s' = trace s ++ evs ∧ Forall quiet evs) →
  (∀ b, b ∈ slab_lists (cache s') ↔ b ∈ slab_lists (cache s)) →
  slabs_ok (cache_geometry (cache s)) A (region_of_slab (trace s))
    (free_addrs (slabs s) (bufctls s))
    (full_slab_list (cache s')) (partial_slab_list (cache s'))
    (empty_slab_list (cache s')) (slabs s) →
  bufctl_inv A s'.
Proof.
  intros Hinv Hobj Himp Hfl Hhh Hah Hsl Hbc Hea Hes Heb (evs & Htr & Hq) Hlists Hok.
  assert (Hg : cache_geometry (cache s') = cache_geometry (cache s)).
  { unfold cache_geometry, slab_capacity, region_size, __use_bufctls.
    by rewrite Hobj, Himp, Hfl. }
  assert (HG : ∀ b, region_of_slab (trace s') b = region_of_slab (trace s) b).
  { intros b. rewrite Htr. by apply region_of_slab_quiet. }
  assert (Hhashed : hashed_bufctl_ptrs s' = hashed_bufctl_ptrs s).
  { unfold hashed_bufctl_ptrs. by rewrite Hah. }
  split; rewrite ?Hg, ?Hhashed, ?Hbc.
  - apply (bi_geometry _ _ Hinv).
  - unfold slabs_inv. rewrite Hsl.
    eapply slabs_ok_records; [|exact Hok].
    intros b Hb. split; [by apply HG|]. split; [done|]. by eauto.
  - eapply (hash_inv_ext _ s s');
      [exact Hhh|exact Hah| |apply (bi_hash _ _ Hinv)].
    intros ? ?. by rewrite Hbc.
  - intros b bc Hb. rewrite Hsl. apply Hlists in Hb. by apply (bi_free _ _ Hinv).
  - intros bc Hbc'. destruct (bi_hashed _ _ Hinv bc Hbc') as (bb & Hbb & Hl & Hin).
    exists bb. split; [done|]. rewrite HG. split; [by apply Hlists|done].
  - apply (bi_addrs _ _ Hinv).
  - intros b R. rewrite Htr, slab_imports_app_quiet by done.
    intros Hi. apply Hlists. by apply (bi_imported _ _ Hinv b R).
  - eapply bufctl_env_ok_ext; [done|done|done| | | |apply (bi_env _ _ Hinv)].
    + intros b _. by rewrite Hsl.
    + intros bc. by rewrite Hbc.
    + intros b Hb. split; [by apply Hlists|by apply HG].
Qed.

Lemma bufctl_inv_back_eq A s s' :
  back_eq s s' → bufctl_inv A s → bufctl_inv A s'.
Proof.
  intros [Hobj Himp Hfl Hfull Hpartial Hempty Hhh Hah Hnr Hsl Hbc Hmem Hea Hes Heb Htr]
         Hinv.
  eapply bufctl_inv_transfer; try done.
  - intros b. unfold slab_lists. by rewrite Hfull, Hpartial, Hempty.
  - rewrite Hfull, Hpartial, Hempty. apply (bi_slabs _ _ Hinv).
Qed.

Lemma alloc_pick_slab_bufctl A s fl a s1 :
  bufctl_inv A s →
  __use_bufctls (cache s) = true →
  alloc_pick_slab fl s = Ok a s1 →
  bufctl_inv A s1
  ∧ a ∈ partial_slab_list (cache s1)
  ∧ nr_cur_alloc (cache s1) = nr_cur_alloc (cache s)
  ∧ (∀ b, b ∈ slab_lists (cache s) → slabs s1 !! b = slabs s !! b).
Proof.
  intros Hinv Huse Hrun.
  apply alloc_pick_slab_inv in Hrun
    as [[-> [rest Hp]]|(Hp & s0 & rest & Hgrow & Hempty & ->)].
  { split; [done|]. rewrite Hp. split; [by left|done]. }
  assert (Hinv0 : bufctl_inv A s0
            ∧ nr_cur_alloc (cache s0) = nr_cur_alloc (cache s)
            ∧ (∀ b, b ∈ slab_lists (cache s) → slabs s0 !! b = slabs s !! b)).
  { destruct Hgrow as [[-> _]|[_ Hgrow]]; [done|].
    destruct (grow_bufctl_inv A s s0 Hinv Huse Hgrow) as (? & ? & _ & _ & _ & ?).
    done. }
  destruct Hinv0 as (Hinv0 & Hnr0 & Hold).
  split; [|split; [by left|split; [by destruct_state s0|done]]].
  eapply bufctl_inv_transfer; [exact Hinv0|..]; try (by destruct_state s0).
  - exists []. by rewrite app_nil_r.
  - intros b. unfold slab_lists. cbn. rewrite Hempty.
    replace (full_slab_list _) with (full_slab_list (cache s0)) by (by destruct_state s0).
    replace (partial_slab_list (cache s0)) with (partial_slab_list (cache s0)) by done.
    apply slab_lists_pick_empty.
  - pose proof (bi_slabs _ _ Hinv0) as Hok. unfold slabs_inv in Hok.
    rewrite Hempty in Hok.
    apply slabs_ok_pick_empty in Hok; [|apply (bi_geometry _ _ Hinv0)].
    by destruct_state s0.
Qed.

End pick.

(** ** The slab layer keeps the invariant of a cache without bufctls *)

Section embedded_ops.
Context `{Platform} `{!PlatformOk}.

Lemma read_mem_ok a s v : mem s !! a = Some v → read_mem a s = Ok v s.
Proof. unfold read_mem, bind, get, defined. by intros ->. Qed.

(** A chain only depends on the memory of its slots. *)
Lemma chain_ext m m' x l :
  (∀ y, y ∈ l → m' !! y = m !! y) → chain m x l → chain m' x l.
Proof.
  revert x. induction l as [|y l IH]; intros x Hsame; [done|].
  intros (-> & Hy & next & Hnext & Hchain). split; [done|]. split; [done|].
  exists next. split.
  - rewrite Hsame; [done|by left].
  - apply IH; [|done]. intros z Hz. apply Hsame. by right.
Qed.

(** The page of an address, for an aligned page. *)
Lemma rounddown_in_page R x :
  page_aligned R → R ≤ x < R + PGSIZE → ROUNDDOWN x PGSIZE = R.
Proof.
  unfold page_aligned, ROUNDDOWN. intros HR Hx.
  pose proof pgsize_pos as Hpg.
  assert (Hmod : R mod PGSIZE = 0) by lia.
  apply Z.mod_divide in Hmod as [k Hk]; [|lia].
  assert (x mod PGSIZE = x - R); [|lia].
  symmetry. apply (Z.mod_unique x PGSIZE k (x - R)); [left; lia|lia].
Qed.

Lemma embedded_geometry s :
  __use_bufctls (cache s) = false →
  g_rsize (cache_geometry (cache s)) = PGSIZE
  ∧ g_cap (cache_geometry (cache s))
    = (PGSIZE - sizeof_kmem_slab) / obj_size (cache s)
  ∧ g_obj (cache_geometry (cache s)) = obj_size (cache s).
Proof.
  intros Huse. unfold cache_geometry, slab_capacity, region_size. cbn.
  by rewrite Huse.
Qed.

(** Lines 525-544 of [__kmem_alloc_from_slab] for a cache without
    bufctls and a slab on the partial list: the first slot of the slab's
    chain is out of the slab layer. *)
Lemma alloc_embedded_spec A F s a :
  embedded_inv A F s →
  __use_bufctls (cache s) = false →
  a ∈ partial_slab_list (cache s) →
  ∃ r fr s1 s2 sa sa2,
    alloc_take_object a s = Ok r s1
    ∧ alloc_account a s1 = Ok tt s2
    ∧ F a = r :: fr
    ∧ embedded_inv (r :: A) (with_free a fr F) s2
    ∧ nr_cur_alloc (cache s2) = wrap SIZE_MAX (nr_cur_alloc (cache s) + 1)
    ∧ in_region (cache_geometry (cache s)) (page_of_slab a) r
    ∧ slabs s !! a = Some sa
    ∧ slabs s2 !! a = Some sa2
    ∧ num_busy_obj sa2 = num_busy_obj sa + 1
    ∧ a ∈ slab_lists (cache s2)
    ∧ cache_geometry (cache s2) = cache_geometry (cache s).
Proof.
  intros Hinv Huse Ha.
  pose proof (ei_geometry _ _ _ Hinv) as Hg.
  pose proof (ei_slabs _ _ _ Hinv) as Hslabs.
  set (g := cache_geometry (cache s)) in *.
  assert (Hlisted : a ∈ slab_lists (cache s)).
  { unfold slab_lists. rewrite !elem_of_app. auto. }
  destruct (slab_ok _ _ _ _ _ _ _ _ Hslabs a Hlisted) as (sa & Hsa & Htot & Hbusy & Hperm).
  pose proof (partial_ok _ _ _ _ _ _ _ _ Hslabs a sa Ha Hsa) as Hlt.
  destruct (free_slot_exists _ _ _ _ _ _ _ _ a sa Hg Hslabs Hlisted Hsa Hlt)
    as (r & fr & HF).
  pose proof (ei_chain _ _ _ Hinv a sa Hlisted Hsa) as Hchain.
  rewrite HF in Hchain. destruct Hchain as (Hhead & Hr & next & Hnext & Hchain).
  set (s1 := set_slabs (<[a:=set_free_small_obj next sa]> (slabs s)) s).
  assert (Htake : alloc_take_object a s = Ok r s1).
  { unfold alloc_take_object.
    rewrite (bind_ok _ _ _ _ _ (get_cache_eq _)).
    rewrite (bind_ok _ _ _ _ _ (read_slab_ok _ _ _ Hsa)).
    rewrite Huse, Hhead. cbn [negb].
    destruct (Z.eqb_spec r 0); [done|].
    by rewrite (bind_ok _ _ _ _ _ (read_mem_ok _ _ _ Hnext)). }
  assert (Hslabs1 : slabs_inv g A page_of_slab F s1).
  { unfold slabs_inv. change (cache s1) with (cache s).
    eapply slabs_ok_records; [|exact Hslabs].
    intros a' Ha'. split; [done|]. split; [done|]. intros sa' Hsa'.
    unfold s1. cbn. destruct (decide (a' = a)) as [->|Hne].
    - rewrite lookup_insert_eq. simplify_eq. by eexists.
    - rewrite lookup_insert_ne by done. by eexists. }
  destruct (alloc_account_spec g A page_of_slab F s1 a r fr Hg Hslabs1 Ha HF)
    as (s2 & sa1 & Hrun2 & Hslabs2 & Hin & Hframe2 & Hnr2 & Hsa1 & Hsl2).
  unfold s1 in Hsa1. cbn in Hsa1. rewrite lookup_insert_eq in Hsa1.
  injection Hsa1 as <-.
  pose proof (alloc_account_frame a s1 tt s2 Hrun2) as Hsf2.
  destruct (cache_geometry_frame _ _ Hsf2) as [Hg2 Huse2].
  change (cache s1) with (cache s) in Hg2, Huse2.
  pose proof (alloc_account_lists a s1 s2 Hrun2) as Hlists2.
  change (cache s1) with (cache s) in Hlists2.
  assert (Hlists : ∀ a', a' ∈ slab_lists (cache s2) ↔ a' ∈ slab_lists (cache s)).
  { intros a'. by rewrite Hlists2. }
  exists r, fr, s1, s2, sa,
    (set_num_busy_obj (num_busy_obj sa + 1) (set_free_small_obj next sa)).
  split; [done|]. split; [done|]. split; [done|].
  split; [|split; [done|split; [done|split; [done|split; [|split; [done|
           split; [by apply Hlists|done]]]]]]].
  2:{ by rewrite Hsl2, lookup_insert_eq. }
  split.
  - by rewrite Hg2.
  - by rewrite Hg2.
  - intros a' sa' Ha' Hsa'. rewrite (af_mem _ _ Hframe2). change (mem s1) with (mem s).
    apply Hlists in Ha'. rewrite Hsl2 in Hsa'. unfold with_free.
    destruct (decide (a' = a)) as [->|Hne].
    + rewrite lookup_insert_eq in Hsa'. by injection Hsa' as <-.
    + unfold s1 in Hsa'. cbn in Hsa'. rewrite !lookup_insert_ne in Hsa' by done.
      by apply (ei_chain _ _ _ Hinv).
  - intros a' Ha'. apply Hlists in Ha'. by apply (ei_aligned _ _ _ Hinv).
  - eapply (hash_inv_ext _ s s2); [| | |apply (ei_hash _ _ _ Hinv)].
    + by rewrite (af_cache _ _ Hframe2).
    + by rewrite (af_cache _ _ Hframe2).
    + intros ? ?. by rewrite (af_bufctls _ _ Hframe2).
  - rewrite Hg2. destruct (ei_env _ _ _ Hinv) as [? ? ? Hnew].
    split; rewrite (af_env _ _ Hframe2); try done.
    intros R a' HR Ha'. apply Hlists in Ha'. by apply Hnew.
Qed.

(** [__kmem_free_to_slab] for a cache without bufctls and an object that
    is out of the slab layer: the object heads the chain of its slab. *)
Lemma free_embedded_spec A A' F s x :
  embedded_inv A F s →
  __use_bufctls (cache s) = false →
  A ≡ₚ x :: A' →
  ∃ a s1 s2 sa sa2,
    free_put_object x s = Ok a s1
    ∧ free_account a s1 = Ok tt s2
    ∧ embedded_inv A' (with_free a (x :: F a) F) s2
    ∧ nr_cur_alloc (cache s2) = wrap SIZE_MAX (nr_cur_alloc (cache s) - 1)
    ∧ a ∈ slab_lists (cache s)
    ∧ in_region (cache_geometry (cache s)) (page_of_slab a) x
    ∧ slabs s !! a = Some sa
    ∧ slabs s2 !! a = Some sa2
    ∧ num_busy_obj sa2 = num_busy_obj sa - 1.
Proof.
  intros Hinv Huse HA.
  pose proof (ei_geometry _ _ _ Hinv) as Hg.
  pose proof (ei_slabs _ _ _ Hinv) as Hslabs.
  destruct (embedded_geometry s Huse) as (Hrsize & _ & _).
  set (g := cache_geometry (cache s)) in *.
  assert (HxA : x ∈ A) by (rewrite HA; by left).
  destruct (outstanding_owned _ _ _ _ _ _ _ _ Hslabs x HxA) as (a & Hlisted & Hin).
  fold (slab_lists (cache s)) in Hlisted.
  destruct (slab_ok _ _ _ _ _ _ _ _ Hslabs a Hlisted) as (sa & Hsa & Htot & Hbusy & Hperm).
  pose proof (regions_pos _ _ _ _ _ _ _ _ Hslabs a Hlisted) as Hpos.
  assert (Hslab : ROUNDDOWN x PGSIZE + PGSIZE - sizeof_kmem_slab = a).
  { rewrite (rounddown_in_page (page_of_slab a)).
    - unfold page_of_slab. lia.
    - by apply (ei_aligned _ _ _ Hinv).
    - unfold in_region in Hin. by rewrite Hrsize in Hin. }
  set (s1 := set_slabs (<[a:=set_free_small_obj x sa]> (slabs s))
               (set_mem (<[x:=free_small_obj sa]> (mem s)) s)).
  assert (Hput : free_put_object x s = Ok a s1).
  { unfold free_put_object.
    rewrite (bind_ok _ _ _ _ _ (get_cache_eq _)). rewrite Huse. cbn [negb].
    rewrite Hslab. by rewrite (bind_ok _ _ _ _ _ (read_slab_ok _ _ _ Hsa)). }
  assert (Hslabs1 : slabs_inv g A page_of_slab F s1).
  { unfold slabs_inv. change (cache s1) with (cache s).
    eapply slabs_ok_records; [|exact Hslabs].
    intros a' Ha'. split; [done|]. split; [done|]. intros sa' Hsa'.
    unfold s1. cbn. destruct (decide (a' = a)) as [->|Hne].
    - rewrite lookup_insert_eq. simplify_eq. by eexists.
    - rewrite lookup_insert_ne by done. by eexists. }
  destruct (free_account_spec g A A' page_of_slab F s1 a x Hg Hslabs1 HA Hlisted Hin)
    as (s2 & sa1 & Hrun2 & Hslabs2 & Hframe2 & Hnr2 & Hsa1 & Hbusy1 & Hsl2).
  unfold s1 in Hsa1. cbn in Hsa1. rewrite lookup_insert_eq in Hsa1.
  injection Hsa1 as <-.
  pose proof (free_account_frame a s1 tt s2 Hrun2) as Hsf2.
  destruct (cache_geometry_frame _ _ Hsf2) as [Hg2 Huse2].
  change (cache s1) with (cache s) in Hg2, Huse2.
  pose proof (free_account_lists a s1 s2 Hrun2) as Hlists2.
  change (cache s1) with (cache s) in Hlists2.
  assert (Hlists : ∀ a', a' ∈ slab_lists (cache s2) ↔ a' ∈ slab_lists (cache s)).
  { intros a'. by rewrite Hlists2. }
  assert (Hfresh : ∀ a', a' ∈ slab_lists (cache s) → x ∉ F a').
  { intros a' Ha' Hx.
    by destruct (free_slot_in_region _ _ _ _ _ _ _ _ a' x Hg Hslabs Ha' Hx). }
  exists a, s1, s2, sa, (set_num_busy_obj (num_busy_obj sa - 1) (set_free_small_obj x sa)).
  split; [done|]. split; [done|].
  split; [|split; [done|split; [done|split; [done|split; [done|split; [|done]]]]]].
  2:{ by rewrite Hsl2, lookup_insert_eq. }
  split.
  - by rewrite Hg2.
  - by rewrite Hg2.
  - intros a' sa' Ha' Hsa'. rewrite (af_mem _ _ Hframe2).
    change (mem s1) with (<[x:=free_small_obj sa]> (mem s)).
    apply Hlists in Ha'. rewrite Hsl2 in Hsa'. unfold with_free.
    destruct (decide (a' = a)) as [->|Hne].
    + rewrite lookup_insert_eq in Hsa'. injection Hsa' as <-. cbn.
      split; [done|]. split; [unfold in_region in Hin; lia|].
      exists (free_small_obj sa). rewrite lookup_insert_eq. split; [done|].
      eapply chain_ext; [|by apply (ei_chain _ _ _ Hinv a sa)].
      intros y Hy. rewrite lookup_insert_ne; [done|]. intros <-.
      by apply (Hfresh a).
    + unfold s1 in Hsa'. cbn in Hsa'. rewrite !lookup_insert_ne in Hsa' by done.
      eapply chain_ext; [|by apply (ei_chain _ _ _ Hinv a' sa')].
      intros y Hy. rewrite lookup_insert_ne; [done|]. intros <-.
      by apply (Hfresh a').
  - intros a' Ha'. apply Hlists in Ha'. by apply (ei_aligned _ _ _ Hinv).
  - eapply (hash_inv_ext _ s s2); [| | |apply (ei_hash _ _ _ Hinv)].
    + by rewrite (af_cache _ _ Hframe2).
    + by rewrite (af_cache _ _ Hframe2).
    + intros ? ?. by rewrite (af_bufctls _ _ Hframe2).
  - rewrite Hg2. destruct (ei_env _ _ _ Hinv) as [? ? ? Hnew].
    split; rewrite (af_env _ _ Hframe2); try done.
    intros R a' HR Ha'. apply Hlists in Ha'. by apply Hnew.
Qed.

End embedded_ops.

Section embedded_grow.
Context `{Platform} `{!PlatformOk}.

(** The loop of the small-object branch of [kmem_cache_grow]: slot [i]
    of the page holds the address of slot [i + 1]. *)
Lemma link_objects_run n : ∀ buf step s,
  0 < step →
  ∃ s', link_objects n buf step s = Ok (buf + Z.of_nat n * step) s'
    ∧ (∀ i, 0 ≤ i < Z.of_nat n →
         mem s' !! (buf + i * step) = Some (buf + (i + 1) * step))
    ∧ (∀ x, (∀ i, 0 ≤ i < Z.of_nat n → x ≠ buf + i * step) →
         mem s' !! x = mem s !! x)
    ∧ cache s' = cache s ∧ slabs s' = slabs s ∧ bufctls s' = bufctls s
    ∧ magazines s' = magazines s ∧ env s' = env s ∧ trace s' = trace s.
Proof.
  induction n as [|n IH]; intros buf step s Hstep.
  - exists s. cbn. rewrite Z.add_0_r. split; [done|]. split; [lia|]. done.
  - cbn [link_objects]. unfold write_mem. unfold bind at 1, modify at 1.
    set (s0 := set_mem _ s).
    destruct (IH (buf + step) step s0 Hstep)
      as (s' & Hrun & Hlinks & Hother & Hc & Hsl & Hbc & Hm & Henv & Htr).
    exists s'. rewrite Hrun. split; [f_equal; lia|].
    split; [|split].
    + intros i Hi. destruct (decide (i = 0)) as [->|Hne].
      * rewrite Hother.
        -- unfold s0. cbn. rewrite Z.add_0_r, lookup_insert_eq. f_equal. lia.
        -- intros j Hj. nia.
      * replace (buf + i * step) with (buf + step + (i - 1) * step) by lia.
        rewrite Hlinks by lia. f_equal. lia.
    + intros x Hx. rewrite Hother.
      * unfold s0. cbn. rewrite lookup_insert_ne; [done|].
        specialize (Hx 0). lia.
      * intros j Hj. specialize (Hx (j + 1)). lia.
    + by destruct_state s.
Qed.

(** Linked slots are a chain. *)
Lemma chain_slots m R step n : ∀ j,
  0 < step → 0 < R → 0 ≤ j →
  (∀ i, j ≤ i < j + Z.of_nat n →
     m !! (R + i * step) = Some (R + (i + 1) * step)) →
  m !! (R + (j + Z.of_nat n) * step) = Some 0 →
  chain m (R + j * step)
    ((λ i, R + i * step) <$> seqZ j (Z.of_nat (S n))).
Proof.
  induction n as [|n IH]; intros j Hstep HR Hj Hlinks Hlast.
  - cbn. split; [done|]. split; [nia|]. exists 0.
    rewrite Z.add_0_r in Hlast. done.
  - rewrite (seqZ_cons j) by lia. rewrite fmap_cons.
    split; [done|]. split; [nia|]. exists (R + (j + 1) * step).
    split; [apply Hlinks; lia|].
    replace (Z.pred (Z.of_nat (S (S n)))) with (Z.of_nat (S n)) by lia.
    apply IH; try lia.
    + intros i Hi. apply Hlinks. lia.
    + rewrite <-Hlast. f_equal. lia.
Qed.

(** [kmem_cache_grow] for a cache without bufctls: the new slab is the
    first of the empty list, its slots are chained in the page the arena
    answered with, and the slabs that were there are as they were. *)
Lemma grow_small_inv A F s s' :
  embedded_inv A F s →
  __use_bufctls (cache s) = false →
  kmem_cache_grow s = Ok true s' →
  ∃ a,
    embedded_inv A
      (with_free a (slot_addrs (cache_geometry (cache s)) (page_of_slab a)) F) s'
    ∧ nr_cur_alloc (cache s') = nr_cur_alloc (cache s)
    ∧ full_slab_list (cache s') = full_slab_list (cache s)
    ∧ partial_slab_list (cache s') = partial_slab_list (cache s)
    ∧ empty_slab_list (cache s') = a :: empty_slab_list (cache s)
    ∧ (∀ b, b ∈ slab_lists (cache s) → slabs s' !! b = slabs s !! b).
Proof.
  intros Hinv Huse Hrun.
  pose proof (ei_geometry _ _ _ Hinv) as Hg.
  pose proof (ei_slabs _ _ _ Hinv) as Hslabs.
  pose proof (ei_env _ _ _ Hinv) as [Haap Hapos Haal Hanew].
  destruct (embedded_geometry s Huse) as (Hrsize & Hcap & Hobj).
  set (g := cache_geometry (cache s)) in *.
  pose proof (obj_size_pos _ Hg) as Hstep. rewrite Hobj in Hstep.
  pose proof (capacity_ok _ Hg) as Hcapok.
  pose proof (slots_fit _ Hg) as Hfit. rewrite Hrsize, Hobj in Hfit.
  pose proof slab_record_fits as Hrec.
  unfold kmem_cache_grow in Hrun.
  rewrite (bind_ok _ _ _ _ _ (get_cache_eq _)) in Hrun.
  destruct (obj_size (cache s) =? 0); [done|].
  rewrite Huse in Hrun. cbn [negb] in Hrun.
  apply bind_inv in Hrun as (a & sD & Hgrow & Hrun).
  unfold grow_small in Hgrow.
  rewrite (bind_ok _ _ _ _ _ (get_cache_eq _)) in Hgrow.
  unfold bind at 1, arena_alloc at 1 in Hgrow.
  set (R := hd 0 (env_arena (env s))) in *.
  destruct (Z.eqb_spec R 0) as [|HR].
  { injection Hgrow as <- <-. by rewrite Z.eqb_refl in Hrun. }
  set (sA := set_trace _ _) in Hgrow.
  pose proof (nonnull_tl _ HR) as Hqa. fold R in Hqa.
  rewrite Hqa in Haap, Hapos, Haal, Hanew. destruct Haap as [HRap Haap].
  assert (HRpos : 0 < R) by (apply Hapos; by left).
  assert (HRal : page_aligned R) by (apply Haal; by left).
  unfold write_slab in Hgrow. unfold bind at 1, modify at 1 in Hgrow.
  set (sa := {| num_busy_obj := 0 |}) in Hgrow.
  set (sB := set_slabs _ sA) in Hgrow.
  set (total := (PGSIZE - sizeof_kmem_slab) / obj_size (cache s)) in *.
  assert (Htotal : total = g_cap g) by done.
  rewrite (wrap_small SIZE_MAX) in Hgrow by lia.
  destruct (link_objects_run (Z.to_nat (total - 1)) R (obj_size (cache s)) sB Hstep)
    as (sC & HrunC & Hlinks & Hother & HcC & HslC & HbcC & HmC & HenvC & HtrC).
  rewrite (bind_ok _ _ _ _ _ HrunC) in Hgrow.
  rewrite Z2Nat.id in Hgrow, Hlinks, Hother by lia.
  unfold write_mem in Hgrow. unfold bind at 1, modify at 1 in Hgrow.
  injection Hgrow as <- <-.
  set (a := R + PGSIZE - sizeof_kmem_slab) in *.
  destruct (Z.eqb_spec a 0) as [|_]; [unfold a in *; lia|].
  rewrite (bind_ok _ _ _ _ _ (modify_cache_eq _ _)) in Hrun.
  unfold ret in Hrun. injection Hrun as <-.
  set (last := R + (total - 1) * obj_size (cache s)) in *.
  set (sD := set_mem (<[last:=0]> (mem sC)) sC).
  set (sE := set_cache _ sD).
  assert (Hpage : page_of_slab a = R) by (unfold page_of_slab, a; lia).
  assert (HcE : cache sE
            = set_slab_lists (full_slab_list (cache s)) (partial_slab_list (cache s))
                (a :: empty_slab_list (cache s)) (cache s)).
  { unfold sE, sD. cbn. by rewrite HcC. }
  assert (HgE : cache_geometry (cache sE) = g) by (by rewrite HcE).
  assert (HlE : ∀ b, b ∈ slab_lists (cache sE) ↔ b ∈ a :: slab_lists (cache s)).
  { intros b. rewrite HcE. unfold slab_lists. cbn.
    repeat (rewrite elem_of_app || rewrite elem_of_cons). tauto. }
  assert (HslE : slabs sE = <[a:=sa]> (slabs s)).
  { change (slabs sE) with (slabs sC). by rewrite HslC. }
  assert (Hinreg : in_region g R R).
  { unfold in_region. rewrite Hrsize. pose proof pgsize_pos. lia. }
  assert (Hanew' : a ∉ slab_lists (cache s)).
  { intros Hl. apply (Hanew R a (ltac:(by left)) Hl R); [done|by rewrite Hpage]. }
  assert (Hmem : ∀ y, ¬ in_region g R y → mem sE !! y = mem s !! y).
  { intros y Hy. change (mem sE) with (<[last:=0]> (mem sC)).
    assert (Hslot : ∀ i, 0 ≤ i < total → y ≠ R + i * obj_size (cache s)).
    { intros i Hi ->. apply Hy. unfold in_region. rewrite Hrsize. nia. }
    rewrite lookup_insert_ne by (apply not_eq_sym, Hslot; lia).
    rewrite Hother; [done|]. intros i Hi. apply Hslot. lia. }
  exists a.
  split; [|split; [by rewrite HcE|split; [by rewrite HcE|split; [by rewrite HcE|
           split; [by rewrite HcE|]]]]].
  2:{ intros b Hb. rewrite HslE, lookup_insert_ne; [done|]. intros <-. done. }
  split.
  - by rewrite HgE.
  - unfold slabs_inv. rewrite HgE, HcE. cbn [full_slab_list partial_slab_list
      empty_slab_list set_slab_lists].
    eapply (slabs_ok_grow g A page_of_slab _ F _ _ _ _ (slabs s) (slabs sE) a R sa).
    + exact Hg.
    + exact Hslabs.
    + exact Hanew'.
    + exact HRpos.
    + intros b Hb. by apply (Hanew R b); [left|].
    + exact Hpage.
    + unfold with_free. by rewrite decide_True, Hpage.
    + by rewrite HslE, lookup_insert_eq.
    + done.
    + done.
    + intros b Hb. split; [done|]. split.
      * unfold with_free. rewrite decide_False; [done|]. intros ->. done.
      * intros sb Hsb. exists sb. rewrite HslE, lookup_insert_ne; [done|].
        intros <-. done.
  - intros b sb Hb Hsb. apply HlE in Hb. rewrite HslE in Hsb. unfold with_free.
    destruct (decide (b = a)) as [->|Hne].
    + rewrite lookup_insert_eq in Hsb. injection Hsb as <-. cbn.
      rewrite Hpage. unfold slot_addrs. rewrite Hobj, <-Htotal.
      replace R with (R + 0 * obj_size (cache s)) at 1 by lia.
      replace total with (Z.of_nat (S (Z.to_nat (total - 1)))) by lia.
      apply chain_slots; try lia.
      * intros i Hi. change (mem sE) with (<[last:=0]> (mem sC)).
        rewrite lookup_insert_ne by (unfold last; nia).
        apply Hlinks. lia.
      * change (mem sE) with (<[last:=0]> (mem sC)).
        replace (R + (0 + Z.of_nat (Z.to_nat (total - 1))) * obj_size (cache s))
          with last by (unfold last; rewrite Z2Nat.id by lia; lia).
        by rewrite lookup_insert_eq.
    + rewrite lookup_insert_ne in Hsb by done.
      apply elem_of_cons in Hb as [|Hb]; [done|].
      eapply chain_ext; [|by apply (ei_chain _ _ _ Hinv b sb)].
      intros y Hy. apply Hmem. intros HyR.
      destruct (free_slot_in_region _ _ _ _ _ _ _ _ b y Hg Hslabs Hb Hy) as [Hyb _].
      by apply (Hanew R b (ltac:(by left)) Hb y).
  - intros b [->|Hb]%HlE%elem_of_cons.
    + by rewrite Hpage.
    + by apply (ei_aligned _ _ _ Hinv).
  - eapply (hash_inv_ext _ s sE); [| | |apply (ei_hash _ _ _ Hinv)].
    + by rewrite HcE.
    + by rewrite HcE.
    + intros ? ?. change (bufctls sE) with (bufctls sC). by rewrite HbcC.
  - rewrite HgE.
    assert (HenvE : env_arena (env sE) = tl (env_arena (env s))).
    { change (env sE) with (env sC). rewrite HenvC. unfold sB, sA. cbn.
      by destruct s as [? ? ? ? ? [] ?]. }
    split; rewrite HenvE.
    + done.
    + intros R' HR'. apply Hapos. by right.
    + intros R' HR'. apply Haal. by right.
    + intros R' b HR' [->|Hb]%HlE%elem_of_cons.
      * rewrite Hpage. apply apart_sym. by apply (proj1 (Forall_forall _ _) HRap).
      * apply Hanew; [by right|done].
Qed.

End embedded_grow.

(** ** The slab layer in either mode *)

Section back.
Context `{Platform} `{!PlatformOk}.

Lemma embedded_inv_transfer A F s s' :
  embedded_inv A F s →
  obj_size (cache s') = obj_size (cache s) →
  import_amt (cache s') = import_amt (cache s) →
  flags (cache s') = flags (cache s) →
  hh (cache s') = hh (cache s) →
  alloc_hash (cache s') = alloc_hash (cache s) →
  slabs s' = slabs s →
  bufctls s' = bufctls s →
  mem s' = mem s →
  env_arena (env s') = env_arena (env s) →
  (∀ b, b ∈ slab_lists (cache s') ↔ b ∈ slab_lists (cache s)) →
  slabs_ok (cache_geometry (cache s)) A page_of_slab F
    (full_slab_list (cache s')) (partial_slab_list (cache s'))
    (empty_slab_list (cache s')) (slabs s) →
  embedded_inv A F s'.
Proof.
  intros Hinv Hobj Himp Hfl Hhh Hah Hsl Hbc Hmem Hea Hlists Hok.
  assert (Hg : cache_geometry (cache s') = cache_geometry (cache s)).
  { unfold cache_geometry, slab_capacity, region_size, __use_bufctls.
    by rewrite Hobj, Himp, Hfl. }
  split; rewrite ?Hg.
  - apply (ei_geometry _ _ _ Hinv).
  - unfold slabs_inv. by rewrite Hsl.
  - intros b sb Hb. rewrite Hsl, Hmem. apply Hlists in Hb.
    by apply (ei_chain _ _ _ Hinv).
  - intros b Hb. apply Hlists in Hb. by apply (ei_aligned _ _ _ Hinv).
  - eapply (hash_inv_ext _ s s'); [exact Hhh|exact Hah| |apply (ei_hash _ _ _ Hinv)].
    intros ? ?. by rewrite Hbc.
  - destruct (ei_env _ _ _ Hinv) as [? ? ? Hnew]. split; rewrite Hea; try done.
    intros R b HR Hb. apply Hlists in Hb. by apply Hnew.
Qed.

Lemma embedded_inv_back_eq A F s s' :
  back_eq s s' → embedded_inv A F s → embedded_inv A F s'.
Proof.
  intros [Hobj Himp Hfl Hfull Hpartial Hempty Hhh Hah Hnr Hsl Hbc Hmem Hea Hes Heb Htr]
         Hinv.
  eapply embedded_inv_transfer; try done.
  - intros b. unfold slab_lists. by rewrite Hfull, Hpartial, Hempty.
  - rewrite Hfull, Hpartial, Hempty. apply (ei_slabs _ _ _ Hinv).
Qed.

Lemma alloc_pick_slab_embedded A F s fl a s1 :
  embedded_inv A F s →
  __use_bufctls (cache s) = false →
  alloc_pick_slab fl s = Ok a s1 →
  ∃ F', embedded_inv A F' s1
    ∧ a ∈ partial_slab_list (cache s1)
    ∧ nr_cur_alloc (cache s1) = nr_cur_alloc (cache s)
    ∧ (∀ b, b ∈ slab_lists (cache s) → slabs s1 !! b = slabs s !! b).
Proof.
  intros Hinv Huse Hrun.
  apply alloc_pick_slab_inv in Hrun
    as [[-> [rest Hp]]|(Hp & s0 & rest & Hgrow & Hempty & ->)].
  { exists F. split; [done|]. rewrite Hp. split; [by left|done]. }
  assert (Hinv0 : ∃ F', embedded_inv A F' s0
            ∧ nr_cur_alloc (cache s0) = nr_cur_alloc (cache s)
            ∧ (∀ b, b ∈ slab_lists (cache s) → slabs s0 !! b = slabs s !! b)).
  { destruct Hgrow as [[-> _]|[_ Hgrow]]; [by exists F|].
    destruct (grow_small_inv A F s s0 Hinv Huse Hgrow) as (a' & ? & ? & _ & _ & _ & ?).
    by eexists. }
  destruct Hinv0 as (F' & Hinv0 & Hnr0 & Hold). exists F'.
  split; [|split; [by left|split; [by destruct_state s0|done]]].
  eapply embedded_inv_transfer; [exact Hinv0|..]; try (by destruct_state s0).
  - intros b. unfold slab_lists. cbn. rewrite Hempty.
    replace (full_slab_list _) with (full_slab_list (cache s0)) by (by destruct_state s0).
    apply slab_lists_pick_empty.
  - pose proof (ei_slabs _ _ _ Hinv0) as Hok. unfold slabs_inv in Hok.
    rewrite Hempty in Hok.
    apply slabs_ok_pick_empty in Hok; [|apply (ei_geometry _ _ _ Hinv0)].
    by destruct_state s0.
Qed.

Lemma back_eq_use s s' :
  back_eq s s' →
  __use_bufctls (cache s') = __use_bufctls (cache s)
  ∧ cache_geometry (cache s') = cache_geometry (cache s)
  ∧ ∀ a, slab_region s' a = slab_region s a.
Proof.
  intros Heq.
  assert (Huse : __use_bufctls (cache s') = __use_bufctls (cache s)).
  { unfold __use_bufctls. by rewrite (bq_flags _ _ Heq). }
  split; [done|]. split.
  - unfold cache_geometry, slab_capacity, region_size. rewrite Huse.
    by rewrite (bq_obj_size _ _ Heq), (bq_import_amt _ _ Heq).
  - intros a. unfold slab_region. rewrite Huse.
    destruct (bq_trace _ _ Heq) as (evs & -> & Hq).
    by rewrite region_of_slab_quiet.
Qed.

Lemma back_inv_back_eq A s s' : back_eq s s' → back_inv A s → back_inv A s'.
Proof.
  intros Heq. unfold back_inv. destruct (back_eq_use _ _ Heq) as (-> & _).
  destruct (__use_bufctls (cache s)).
  - by apply bufctl_inv_back_eq.
  - intros [F Hinv]. exists F. by eapply embedded_inv_back_eq.
Qed.

Lemma back_inv_perm A A' s : A ≡ₚ A' → back_inv A s → back_inv A' s.
Proof.
  intros HA. unfold back_inv. destruct (__use_bufctls (cache s)).
  - intros [? Hsl ? ? ? Haddrs ? ?]. split; try done.
    + by eapply slabs_ok_perm.
    + by rewrite Haddrs.
  - intros [F [? Hsl ? ? ? ?]]. exists F. split; try done.
    by eapply slabs_ok_perm.
Qed.

(** What the slab layer's invariant says of its slab lists, whatever the
    mode. *)
Lemma back_inv_slabs A s :
  back_inv A s →
  geometry_ok (cache_geometry (cache s))
  ∧ ∃ F, slabs_inv (cache_geometry (cache s)) A (slab_region s) F s.
Proof.
  unfold back_inv, slab_region. destruct (__use_bufctls (cache s)).
  - intros Hinv. split; [apply (bi_geometry _ _ Hinv)|].
    eexists. apply (bi_slabs _ _ Hinv).
  - intros [F Hinv]. split; [apply (ei_geometry _ _ _ Hinv)|].
    exists F. apply (ei_slabs _ _ _ Hinv).
Qed.

Lemma back_pick A s fl a s1 :
  back_inv A s →
  alloc_pick_slab fl s = Ok a s1 →
  back_inv A s1
  ∧ a ∈ partial_slab_list (cache s1)
  ∧ nr_cur_alloc (cache s1) = nr_cur_alloc (cache s)
  ∧ (∀ b, b ∈ slab_lists (cache s) → slabs s1 !! b = slabs s !! b).
Proof.
  intros Hinv Hrun.
  pose proof (alloc_pick_slab_frame fl s a s1 Hrun) as Hframe.
  destruct (cache_geometry_frame _ _ Hframe) as [_ Huse].
  unfold back_inv in *. rewrite Huse.
  destruct (__use_bufctls (cache s)) eqn:Huse0.
  - by eapply alloc_pick_slab_bufctl.
  - destruct Hinv as [F Hinv].
    destruct (alloc_pick_slab_embedded A F s fl a s1 Hinv Huse0 Hrun)
      as (F' & ? & ? & ? & ?).
    split; [by exists F'|done].
Qed.

Lemma back_take A s a :
  back_inv A s →
  a ∈ partial_slab_list (cache s) →
  ∃ r s1 s2 sa sa2,
    alloc_take_object a s = Ok r s1
    ∧ alloc_account a s1 = Ok tt s2
    ∧ back_inv (r :: A) s2
    ∧ nr_cur_alloc (cache s2) = wrap SIZE_MAX (nr_cur_alloc (cache s) + 1)
    ∧ slabs s !! a = Some sa
    ∧ slabs s2 !! a = Some sa2
    ∧ num_busy_obj sa2 = num_busy_obj sa + 1
    ∧ a ∈ slab_lists (cache s2)
    ∧ in_region (cache_geometry (cache s2)) (slab_region s2 a) r.
Proof.
  intros Hinv Ha. unfold back_inv, slab_region in *.
  destruct (__use_bufctls (cache s)) eqn:Huse.
  - destruct (alloc_bufctl_spec A s a Hinv Huse Ha)
      as (r & s1 & s2 & sa & sa2 & Hrun1 & Hrun2 & Hinv2 & Hnr & _ & Hsa & Hsa2
          & Hbusy & Hl2 & Hin2).
    pose proof (alloc_take_object_frame a s r s1 Hrun1) as Hf1.
    pose proof (alloc_account_frame a s1 tt s2 Hrun2) as Hf2.
    destruct (cache_geometry_frame _ _ Hf1) as [_ Hu1].
    destruct (cache_geometry_frame _ _ Hf2) as [_ Hu2].
    exists r, s1, s2, sa, sa2. rewrite Hu2, Hu1, Huse. done.
  - destruct Hinv as [F Hinv].
    destruct (alloc_embedded_spec A F s a Hinv Huse Ha)
      as (r & fr & s1 & s2 & sa & sa2 & Hrun1 & Hrun2 & HF & Hinv2 & Hnr & Hin & Hsa
          & Hsa2 & Hbusy & Hl2 & Hg2).
    pose proof (alloc_take_object_frame a s r s1 Hrun1) as Hf1.
    pose proof (alloc_account_frame a s1 tt s2 Hrun2) as Hf2.
    destruct (cache_geometry_frame _ _ Hf1) as [_ Hu1].
    destruct (cache_geometry_frame _ _ Hf2) as [_ Hu2].
    exists r, s1, s2, sa, sa2. rewrite Hu2, Hu1, Huse, Hg2.
    split; [done|]. split; [done|]. split; [by eexists|]. done.
Qed.

Lemma back_free A A' s x :
  back_inv A s →
  A ≡ₚ x :: A' →
  ∃ a s1 s2 sa sa2,
    free_put_object x s = Ok a s1
    ∧ free_account a s1 = Ok tt s2
    ∧ back_inv A' s2
    ∧ nr_cur_alloc (cache s2) = wrap SIZE_MAX (nr_cur_alloc (cache s) - 1)
    ∧ a ∈ slab_lists (cache s)
    ∧ in_region (cache_geometry (cache s)) (slab_region s a) x
    ∧ slabs s !! a = Some sa
    ∧ slabs s2 !! a = Some sa2
    ∧ num_busy_obj sa2 = num_busy_obj sa - 1.
Proof.
  intros Hinv HA. unfold back_inv, slab_region in *.
  destruct (__use_bufctls (cache s)) eqn:Huse.
  - destruct (free_bufctl_spec A A' s x Hinv Huse HA)
      as (a & s1 & s2 & sa & sa2 & Hrun1 & Hrun2 & Hinv2 & Hrest).
    pose proof (free_put_object_frame x s a s1 Hrun1) as Hf1.
    pose proof (free_account_frame a s1 tt s2 Hrun2) as Hf2.
    destruct (cache_geometry_frame _ _ Hf1) as [_ Hu1].
    destruct (cache_geometry_frame _ _ Hf2) as [_ Hu2].
    exists a, s1, s2, sa, sa2. rewrite Hu2, Hu1, Huse. done.
  - destruct Hinv as [F Hinv].
    destruct (free_embedded_spec A A' F s x Hinv Huse HA)
      as (a & s1 & s2 & sa & sa2 & Hrun1 & Hrun2 & Hinv2 & Hrest).
    pose proof (free_put_object_frame x s a s1 Hrun1) as Hf1.
    pose proof (free_account_frame a s1 tt s2 Hrun2) as Hf2.
    destruct (cache_geometry_frame _ _ Hf1) as [_ Hu1].
    destruct (cache_geometry_frame _ _ Hf2) as [_ Hu2].
    exists a, s1, s2, sa, sa2. rewrite Hu2, Hu1, Huse.
    split; [done|]. split; [done|]. split; [by eexists|]. done.
Qed.

End back.

(** ** Whole allocations and frees of the slab layer *)

Section slab_layer.
Context `{Platform} `{!PlatformOk}.

(** No object is out of the slab layer twice. *)
Lemma slabs_ok_nodup g A G F full partial empty sl :
  geometry_ok g → slabs_ok g A G F full partial empty sl → NoDup A.
Proof.
  intros Hg Hok.
  assert (Hcover : ∀ x, x ∈ A → ∃ R, in_region g R x ∧ NoDup (filter (in_region g R) A)).
  { intros x Hx.
    destruct (outstanding_owned _ _ _ _ _ _ _ _ Hok x Hx) as (a & Ha & Hin).
    exists (G a). split; [done|].
    destruct (slab_ok _ _ _ _ _ _ _ _ Hok a Ha) as (sa & _ & _ & _ & Hperm).
    pose proof (slot_addrs_nodup g (G a) Hg) as Hnd. rewrite <-Hperm in Hnd.
    by apply NoDup_app in Hnd as (_ & _ & ?). }
  clear Hok. induction A as [|y A IH]; [constructor|].
  apply NoDup_cons. split.
  - destruct (Hcover y) as (R & Hin & Hnd); [by left|].
    rewrite filter_cons_True in Hnd by done.
    apply NoDup_cons in Hnd as [Hnot _]. intros Hy. apply Hnot.
    by apply list_elem_of_filter.
  - apply IH. intros x Hx. destruct (Hcover x) as (R & Hin & Hnd); [by right|].
    exists R. split; [done|]. rewrite filter_cons in Hnd.
    destruct (decide (in_region g R y)); [|done].
    by apply NoDup_cons in Hnd as [_ ?].
Qed.

Lemma back_inv_nodup A s : back_inv A s → NoDup A ∧ ∀ x, x ∈ A → 0 < x.
Proof.
  intros Hinv. destruct (back_inv_slabs A s Hinv) as (Hg & F & Hok). split.
  - by eapply slabs_ok_nodup.
  - intros x Hx. by eapply outstanding_nonnull.
Qed.

Lemma back_eq_refl s : back_eq s s.
Proof. split; try done. exists []. by rewrite app_nil_r. Qed.

Lemma back_eq_trans s1 s2 s3 : back_eq s1 s2 → back_eq s2 s3 → back_eq s1 s3.
Proof.
  intros [? ? ? ? ? ? ? ? ? ? ? ? ? ? ? (e1 & Ht1 & Hq1)]
         [? ? ? ? ? ? ? ? ? ? ? ? ? ? ? (e2 & Ht2 & Hq2)].
  split; try congruence.
  exists (e1 ++ e2). rewrite Ht2, Ht1, (assoc (++)). split; [done|].
  by apply Forall_app.
Qed.

Lemma back_eq_emit e s : quiet e → emit e s = Ok tt (set_trace (trace s ++ [e]) s)
  ∧ back_eq s (set_trace (trace s ++ [e]) s).
Proof.
  intros Hq. split; [done|]. split; try done. exists [e]. split; [done|].
  by constructor.
Qed.

Lemma back_same_eq s s' : back_same s s' → back_eq s s'.
Proof.
  intros [Hc ? ? ? ? ? ? ? ?]. split; try done; rewrite Hc; done.
Qed.

(** The constructor step of [__kmem_alloc_from_slab], lines 546-553, on
    an object [r] that has just left the slab layer. *)
Lemma alloc_construct_spec A s r fl :
  back_inv (r :: A) s →
  ∃ r' s', alloc_construct r fl s = Ok r' s'
    ∧ ((r' = r ∧ back_eq s s'
        ∧ (ctor (cache s) = None ∨ ∃ f, ctor (cache s) = Some f ∧ f r fl = 0))
       ∨ (r' = 0 ∧ back_inv A s'
          ∧ nr_cur_alloc (cache s') = wrap SIZE_MAX (nr_cur_alloc (cache s) - 1)
          ∧ (∃ f, ctor (cache s) = Some f ∧ f r fl ≠ 0)
          ∧ ∃ a sa sa', a ∈ slab_lists (cache s)
              ∧ in_region (cache_geometry (cache s)) (slab_region s a) r
              ∧ slabs s !! a = Some sa ∧ slabs s' !! a = Some sa'
              ∧ num_busy_obj sa' = num_busy_obj sa - 1)).
Proof.
  intros Hinv. unfold alloc_construct.
  rewrite (bind_ok _ _ _ _ _ (get_cache_eq _)).
  destruct (ctor (cache s)) as [f|] eqn:Hctor.
  2:{ exists r, s. split; [done|]. left. split; [done|]. split; [apply back_eq_refl|].
      by left. }
  destruct (back_eq_emit (EvCtor r fl (f r fl)) s I) as [Hemit Heq1].
  rewrite (bind_ok _ _ _ _ _ Hemit).
  set (s1 := set_trace _ s) in *.
  destruct (Z.eqb_spec (f r fl) 0) as [Hz|Hnz].
  { exists r, s1. split; [done|]. left. split; [done|]. split; [done|].
    right. by exists f. }
  destruct (back_eq_emit EvWarn s1 I) as [Hwarn Heq2].
  rewrite (bind_ok _ _ _ _ _ Hwarn).
  set (s2 := set_trace _ s1) in *.
  pose proof (back_eq_trans _ _ _ Heq1 Heq2) as Heq.
  pose proof (back_inv_back_eq _ _ _ Heq Hinv) as Hinv2.
  destruct (back_free (r :: A) A s2 r Hinv2 (reflexivity _))
    as (a & s3 & s4 & sa & sa' & Hput & Hacc & Hinv4 & Hnr & Ha & Hin & Hsa & Hsa' & Hbusy).
  assert (Hfree : __kmem_free_to_slab r s2 = Ok tt s4).
  { unfold __kmem_free_to_slab. by rewrite (bind_ok _ _ _ _ _ Hput). }
  exists 0, s4. split; [by rewrite (bind_ok _ _ _ _ _ Hfree)|].
  right. split; [done|]. split; [done|]. split; [done|]. split; [by exists f|].
  destruct (back_eq_use _ _ Heq) as (_ & Hg & Hreg).
  exists a, sa, sa'. rewrite <-Hg, <-Hreg. done.
Qed.

(** [__kmem_alloc_from_slab] once it has a slab to take from. *)
Lemma kmem_alloc_from_slab_spec A s fl a s1 :
  back_inv A s →
  alloc_pick_slab fl s = Ok a s1 →
  ∃ r s2 s3 r' s' sa sa3,
    alloc_take_object a s1 = Ok r s2
    ∧ alloc_account a s2 = Ok tt s3
    ∧ alloc_construct r fl s3 = Ok r' s'
    ∧ __kmem_alloc_from_slab fl s = Ok r' s'
    ∧ 0 < r ∧ (r ∉ A)
    ∧ slabs s1 !! a = Some sa
    ∧ ((r' = r ∧ back_inv (r :: A) s'
        ∧ nr_cur_alloc (cache s') = wrap SIZE_MAX (nr_cur_alloc (cache s) + 1)
        ∧ (ctor (cache s) = None ∨ ∃ f, ctor (cache s) = Some f ∧ f r fl = 0))
       ∨ (r' = 0 ∧ back_inv A s'
          ∧ nr_cur_alloc (cache s')
            = wrap SIZE_MAX (wrap SIZE_MAX (nr_cur_alloc (cache s) + 1) - 1)
          ∧ (∃ f, ctor (cache s) = Some f ∧ f r fl ≠ 0)
          ∧ slabs s' !! a = Some sa3
          ∧ num_busy_obj sa3 = num_busy_obj sa)).
Proof.
  intros Hinv Hpick.
  destruct (back_pick A s fl a s1 Hinv Hpick) as (Hinv1 & Ha & Hnr1 & Hold).
  destruct (back_take A s1 a Hinv1 Ha)
    as (r & s2 & s3 & sa & sa2 & Htake & Hacc & Hinv3 & Hnr3 & Hsa & Hsa2 & Hbusy
        & Hl3 & Hin3).
  destruct (back_inv_nodup _ _ Hinv3) as [Hnd Hpos].
  apply NoDup_cons in Hnd as [Hfresh _].
  destruct (alloc_construct_spec A s3 r fl Hinv3) as (r' & s' & Hcon & Hcases).
  assert (Hctor : ctor (cache s3) = ctor (cache s)).
  { pose proof (alloc_pick_slab_frame fl s a s1 Hpick) as F1.
    pose proof (alloc_take_object_frame a s1 r s2 Htake) as F2.
    pose proof (alloc_account_frame a s2 tt s3 Hacc) as F3.
    by rewrite (sf_ctor _ _ F3), (sf_ctor _ _ F2), (sf_ctor _ _ F1). }
  assert (Hrun : __kmem_alloc_from_slab fl s = Ok r' s').
  { unfold __kmem_alloc_from_slab. rewrite (bind_ok _ _ _ _ _ Hpick).
    rewrite (bind_ok _ _ _ _ _ Htake). by rewrite (bind_ok _ _ _ _ _ Hacc). }
  destruct Hcases as [(-> & Heq & Hc)|(-> & Hinv' & Hnr' & Hc & a' & sa0 & sa' & Ha' & Hin'
                                        & Hsa0 & Hsa' & Hbusy')].
  - exists r, s2, s3, r, s', sa, sa2. rewrite Hctor in Hc.
    split; [done|]. split; [done|]. split; [done|]. split; [done|].
    split; [apply Hpos; by left|]. split; [done|]. split; [done|]. left.
    split; [done|]. split; [by eapply back_inv_back_eq|].
    split; [|done]. by rewrite (bq_nr_cur_alloc _ _ Heq), Hnr3, Hnr1.
  - assert (a' = a) as ->.
    { destruct (back_inv_slabs _ _ Hinv3) as (Hg3 & F & Hok3).
      by apply (regions_apart _ _ _ _ _ _ _ _ Hok3 a' a r). }
    simplify_eq.
    exists r, s2, s3, 0, s', sa, sa'. rewrite Hctor in Hc.
    split; [done|]. split; [done|]. split; [done|]. split; [done|].
    split; [apply Hpos; by left|]. split; [done|]. split; [done|]. right.
    split; [done|]. split; [done|]. split; [by rewrite Hnr', Hnr3, Hnr1|].
    split; [done|]. split; [done|]. lia.
Qed.

(** [__kmem_free_to_slab] of an object that is out of the slab layer. *)
Lemma kmem_free_to_slab_spec A A' s x :
  back_inv A s →
  A ≡ₚ x :: A' →
  ∃ s', __kmem_free_to_slab x s = Ok tt s'
    ∧ back_inv A' s'
    ∧ nr_cur_alloc (cache s') = wrap SIZE_MAX (nr_cur_alloc (cache s) - 1).
Proof.
  intros Hinv HA.
  destruct (back_free A A' s x Hinv HA)
    as (a & s1 & s2 & sa & sa' & Hput & Hacc & Hinv2 & Hnr & _).
  exists s2. split; [|done]. unfold __kmem_free_to_slab.
  by rewrite (bind_ok _ _ _ _ _ Hput).
Qed.

End slab_layer.

(** ** Creation sets the invariant up *)

Section create.
Context `{Platform} `{!PlatformOk}.

Lemma store_magazines_other q : ∀ mags a,
  a ∉ fst <$> q → store_magazines mags q !! a = mags !! a.
Proof.
  induction q as [|[k v] q IH]; intros mags a Ha; [done|].
  rewrite fmap_cons in Ha. apply not_elem_of_cons in Ha as [Hne Ha].
  cbn. unfold store_magazines in IH. rewrite IH by done.
  by rewrite lookup_insert_ne.
Qed.

Lemma store_magazines_lookup q : ∀ mags a m,
  NoDup (fst <$> q) → (a, m) ∈ q → store_magazines mags q !! a = Some m.
Proof.
  induction q as [|[k v] q IH]; intros mags a m Hnd Hin.
  { by apply not_elem_of_nil in Hin. }
  rewrite fmap_cons in Hnd. apply NoDup_cons in Hnd as [Hk Hnd].
  apply elem_of_cons in Hin as [[= -> ->]|Hin].
  - cbn. fold (store_magazines (<[k:=v]> mags) q).
    rewrite store_magazines_other by done. by rewrite lookup_insert_eq.
  - cbn. by apply IH.
Qed.

Lemma magazine_cache_alloc_reply fl s a m q :
  env_magazine (env s) = (a, m) :: q → a ≠ 0 →
  magazine_cache_alloc fl s
  = Ok a (set_trace (trace s ++ [EvCacheAlloc kmem_magazine_cache a])
            (set_magazines (<[a:=m]> (magazines s))
               (set_env (set_env_magazine q (env s)) s))).
Proof.
  intros Hq Ha. unfold magazine_cache_alloc. rewrite Hq. cbn.
  by destruct (Z.eqb_spec a 0).
Qed.

(** [build_pcpu_caches]: two magazines for each CPU, in the order the
    magazine cache hands them out. *)
Lemma build_pcpu_caches_spec n : ∀ s q0 q1,
  env_magazine (env s) = q0 ++ q1 →
  length q0 = (2 * n)%nat →
  Forall (λ am, fst am ≠ 0) q0 →
  ∃ pccs s', build_pcpu_caches n s = Ok pccs s'
    ∧ pccs ≫= pcc_magazines = fst <$> q0
    ∧ (∀ p, p ∈ pccs → magsize p = KMC_MAG_MIN_SZ)
    ∧ length pccs = n
    ∧ magazines s' = store_magazines (magazines s) q0
    ∧ env s' = set_env_magazine q1 (env s)
    ∧ cache s' = cache s ∧ slabs s' = slabs s ∧ bufctls s' = bufctls s
    ∧ mem s' = mem s
    ∧ ∃ evs, trace s' = trace s ++ evs ∧ Forall quiet evs.
Proof.
  induction n as [|n IH]; intros s q0 q1 Hq Hlen Hnz.
  - destruct q0; [|done]. exists [], s. cbn in Hq.
    split; [done|]. split; [done|]. split; [by intros p ?%not_elem_of_nil|].
    split; [done|]. split; [done|].
    split; [rewrite <-Hq; by destruct s as [? ? ? ? ? [] ?]|].
    split; [done|]. split; [done|]. split; [done|]. split; [done|].
    exists []. by rewrite app_nil_r.
  - destruct q0 as [|[l ml] [|[p mp] q0]]; [done|cbn in Hlen; lia|].
    apply Forall_cons in Hnz as [Hl Hnz]. apply Forall_cons in Hnz as [Hp Hnz].
    cbn in Hl, Hp. cbn [build_pcpu_caches].
    rewrite (bind_ok _ _ _ _ _ (magazine_cache_alloc_reply _ s l ml _ Hq Hl)).
    set (s1 := set_trace _ _).
    assert (Hq1 : env_magazine (env s1) = (p, mp) :: q0 ++ q1).
    { unfold s1. cbn. by destruct s as [? ? ? ? ? [] ?]. }
    rewrite (bind_ok _ _ _ _ _ (magazine_cache_alloc_reply _ s1 p mp _ Hq1 Hp)).
    set (s2 := set_trace _ _).
    destruct (IH s2 q0 q1) as (pccs & s' & Hrun & Hmags & Hsize & Hlen' & Hstore & Henv
                              & Hc & Hsl & Hbc & Hmem & evs & Htr & Hquiet).
    { unfold s2, s1. cbn. by destruct s as [? ? ? ? ? [] ?]. }
    { cbn in Hlen. lia. }
    { done. }
    rewrite (bind_ok _ _ _ _ _ Hrun). eexists _, s'. split; [done|].
    split; [by rewrite bind_cons, Hmags|].
    split; [by intros p' [->|?]%elem_of_cons; [|apply Hsize]|].
    split; [cbn; by rewrite Hlen'|]. split; [by rewrite Hstore|].
    split; [rewrite Henv; unfold s2, s1; cbn; by destruct s as [? ? ? ? ? [] ?]|].
    split; [by rewrite Hc|]. split; [by rewrite Hsl|]. split; [by rewrite Hbc|].
    split; [by rewrite Hmem|].
    eexists. rewrite Htr. unfold s2, s1. cbn. rewrite <-!(assoc (++)).
    split; [done|]. by repeat constructor.
Qed.

Lemma bind_nil_all {A B} (f : A → list B) (l : list A) :
  (∀ a, a ∈ l → f a = []) → l ≫= f = [].
Proof.
  induction l as [|a l IH]; intros Hf; [done|].
  rewrite bind_cons, Hf, IH; [done| |by left]. intros b Hb. apply Hf. by right.
Qed.

Lemma future_magazines_app q0 q1 :
  future_magazines (q0 ++ q1) = future_magazines q0 ++ future_magazines q1.
Proof. unfold future_magazines. by rewrite fmap_app, filter_app. Qed.

Lemma future_magazines_all q0 :
  Forall (λ am, fst am ≠ 0) q0 → future_magazines q0 = fst <$> q0.
Proof.
  induction 1 as [|[a m] q0 Ha Hq IH]; [done|].
  rewrite future_magazines_cons. cbn in Ha. rewrite decide_True by done.
  by rewrite IH.
Qed.

(** A cache fresh from [__kmem_cache_create] keeps no object and owes
    none. *)
Lemma create_inv size algn fl qcache_max ctr dtr e s :
  __kmem_cache_create size algn fl qcache_max ctr dtr (boot e) = Ok tt s →
  geometry_ok (cache_geometry (cache s)) →
  env_ok (cache_geometry (cache s)) e →
  cache_inv [] s ∧ cached_objects s = [].
Proof.
  intros Hrun Hg [(q0 & q1 & Hq & Hlen & Hnz) Hfresh Hmok Hsnd Hbnd Hap Hpos Hal].
  unfold __kmem_cache_create in Hrun.
  destruct (algn =? 0); [done|]. destruct (PGSIZE <? algn); [done|].
  unfold bind at 1, modify at 1 in Hrun.
  set (s0 := set_cache _ (boot e)) in Hrun.
  destruct (build_pcpu_caches_spec num_cores s0 q0 q1 Hq Hlen Hnz)
    as (pccs & s1 & Hbuild & Hmags & Hsize & Hlen' & Hstore & Henv & Hc & Hsl & Hbc
        & Hmem & evs & Htr & Hquiet).
  rewrite (bind_ok _ _ _ _ _ Hbuild) in Hrun.
  rewrite modify_cache_eq in Hrun. injection Hrun as <-.
  set (s := set_cache _ s1) in *.
  rewrite Hq, future_magazines_app, (future_magazines_all _ Hnz) in Hfresh.
  apply NoDup_app in Hfresh as (Hnd0 & Hdisj & Hnd1).
  assert (Howned : owned_magazines (pcpu_caches (cache s)) (depot (cache s))
                   = fst <$> q0).
  { unfold s, owned_magazines. cbn. rewrite Hc. cbn. by rewrite Hmags, app_nil_r. }
  assert (Hmag : ∀ a, a ∈ fst <$> q0 →
            ∃ m, magazines s !! a = Some m ∧ nr_rounds m = 0 ∧ mag_ok m).
  { intros a Ha. apply list_elem_of_fmap in Ha as ([a' m] & -> & Hin).
    exists m. change (magazines s) with (magazines s1). rewrite Hstore.
    split; [by apply store_magazines_lookup|].
    apply (Hmok a' m).
    - rewrite Hq, elem_of_app. by left.
    - by apply (proj1 (Forall_forall _ _) Hnz (a', m)). }
  assert (Hcached : cached_objects s = []).
  { unfold cached_objects. rewrite Howned. apply bind_nil_all. intros a Ha.
    destruct (Hmag a Ha) as (m & Hm & Hr & _). unfold held_by. rewrite Hm. cbn.
    unfold mag_contents. by rewrite Hr. }
  assert (Hcache : cache s = set_pcpu_caches pccs (cache s0)).
  { unfold s. cbn. by rewrite Hc. }
  assert (Htrace : slab_imports (trace s) = []).
  { change (trace s) with (trace s1). rewrite Htr. by apply slab_imports_quiet. }
  assert (Hhash : hash_inv [] s).
  { destruct hash_init_ok as (Hbits & Hlists & Hptr). split; rewrite Hcache; cbn.
    - rewrite length_replicate. lia.
    - done.
    - by rewrite concat_replicate_nil.
    - intros i bucket bc [-> _]%lookup_replicate. by intros ?%not_elem_of_nil. }
  assert (Hslabs : ∀ G F, slabs_inv (cache_geometry (cache s)) [] G F s).
  { intros G F. unfold slabs_inv. rewrite Hcache. cbn.
    split; cbn; try done; try (by intros ? ?%not_elem_of_nil);
      try (by intros ? ? ?%not_elem_of_nil).
    - constructor.
    - by intros ? ? ? ?%not_elem_of_nil. }
  assert (Hlists : slab_lists (cache s) = []) by (by rewrite Hcache).
  assert (Henvs : env_arena (env s) = env_arena e ∧ env_slab (env s) = env_slab e
                  ∧ env_bufctl (env s) = env_bufctl e ∧ env_magazine (env s) = q1).
  { change (env s) with (env s1). rewrite Henv. unfold s0. cbn. by destruct e. }
  destruct Henvs as (Hea & Hes & Heb & Hem).
  assert (Hhashed : hashed_bufctl_ptrs s = []).
  { unfold hashed_bufctl_ptrs. rewrite Hcache. cbn. apply concat_replicate_nil. }
  assert (Hheap : slabs s = ∅ ∧ bufctls s = ∅ ∧ mem s = ∅).
  { change (slabs s) with (slabs s1). change (bufctls s) with (bufctls s1).
    change (mem s) with (mem s1). by rewrite Hsl, Hbc, Hmem. }
  destruct Hheap as (Hslabs0 & Hbufctls0 & Hmem0).
  split; [|done]. split.
  - unfold front_inv. split; rewrite ?Howned, ?Hem.
    + done.
    + intros a Ha. destruct (Hmag a Ha) as (m & ? & _ & ?). by exists m.
    + rewrite Hcache. cbn. by intros a m ?%not_elem_of_nil.
    + rewrite Hcache. cbn. pose proof mag_min_max. lia.
    + rewrite Hcache. cbn. intros p Hp. rewrite (Hsize p Hp).
      pose proof mag_min_max. lia.
    + done.
    + intros a Ha Ha'. by apply (Hdisj a Ha').
    + intros a m Ham. apply (Hmok a m). rewrite Hq, elem_of_app. by right.
  - rewrite Hcached. cbn [app]. unfold back_inv.
    destruct (__use_bufctls (cache s)).
    + split; rewrite ?Hhashed, ?Hlists, ?Htrace.
      * done.
      * apply Hslabs.
      * done.
      * by intros a bc ?%not_elem_of_nil.
      * by intros bc ?%not_elem_of_nil.
      * done.
      * by intros a R ?%not_elem_of_nil.
      * split; rewrite ?Hea, ?Hes, ?Heb, ?Hslabs0, ?Hbufctls0, ?Hlists; try done.
        by intros R a _ ?%not_elem_of_nil.
    + exists (λ _, []). split; rewrite ?Hlists.
      * done.
      * apply Hslabs.
      * by intros a sa ?%not_elem_of_nil.
      * by intros a ?%not_elem_of_nil.
      * done.
      * split; rewrite ?Hea, ?Hlists; try done.
        by intros R a _ ?%not_elem_of_nil.
  - rewrite Hcached, Hcache. done.
Qed.

End create.

(** ** Caches in use keep the invariant *)

Section reach_inv.
Context `{Platform} `{!PlatformOk}.

Lemma front_inv_slab_frame s s' :
  slab_frame s s' →
  front_inv s → front_inv s' ∧ cached_objects s' = cached_objects s.
Proof.
  intros [Hm Hp Hd Hq _ _ _ _ _ _ _] Hinv.
  unfold front_inv, cached_objects. by rewrite Hm, Hp, Hd, Hq.
Qed.

Lemma wrap_wrap_add max a b :
  0 < max → wrap max (wrap max a + b) = wrap max (a + b).
Proof. intros. unfold wrap. apply Z.add_mod_idemp_l. lia. Qed.

Lemma wrap_wrap_sub max a b :
  0 < max → wrap max (wrap max a - b) = wrap max (a - b).
Proof. intros. unfold wrap. apply Zminus_mod_idemp_l. Qed.

(** [kmem_cache_alloc] on a cache in use. *)
Lemma kmem_cache_alloc_inv out s fuel cpu fl r s' :
  cache_inv out s →
  kmem_cache_alloc fuel cpu fl s = Ok r s' →
  cache_inv (if decide (r = 0) then out else r :: out) s'
  ∧ (r ≠ 0 → 0 < r ∧ r ∉ out).
Proof.
  intros [Hfront Hback Hnr] Hrun.
  destruct (kmem_cache_alloc_front fuel cpu fl s r s' Hfront Hrun)
    as (s1 & Hfront1 & Hcached1 & Hsame1 & Hcases).
  pose proof (back_same_eq _ _ Hsame1) as Heq1.
  assert (Hback1 : back_inv (out ++ cached_objects s1) s1).
  { eapply back_inv_perm; [|by eapply back_inv_back_eq]. by rewrite Hcached1. }
  destruct Hcases as [(pcc & l & Hpcc & Hl & Hnz & Hr & ->)|Hslab].
  - destruct (front_inv_pop s1 cpu pcc l r Hfront1 Hpcc Hl Hnz Hr)
      as (Hfront' & Hcached' & Hsame').
    set (s' := state_after_pop cpu pcc l s1) in *.
    pose proof (back_same_eq _ _ Hsame') as Heq'.
    destruct (back_inv_nodup _ _ Hback1) as [Hnd Hpos].
    assert (Hrpos : 0 < r).
    { apply Hpos. rewrite Hcached', elem_of_app. right. by left. }
    assert (Hperm : (r :: out) ++ cached_objects s' ≡ₚ out ++ cached_objects s1).
    { rewrite Hcached'. solve_Permutation. }
    rewrite decide_False by lia. split.
    + split.
      * done.
      * eapply back_inv_perm; [symmetry; exact Hperm|].
        by eapply back_inv_back_eq.
      * rewrite (bq_nr_cur_alloc _ _ Heq'), (bq_nr_cur_alloc _ _ Heq1), Hnr.
        by rewrite Hperm, Hcached1.
    + intros _. split; [done|]. intros Hout.
      rewrite Hcached' in Hnd. apply NoDup_app in Hnd as (_ & Hdisj & _).
      apply (Hdisj r Hout). by left.
  - pose proof (kmem_alloc_from_slab_frame fl s1 r s' Hslab) as Hframe.
    destruct (front_inv_slab_frame _ _ Hframe Hfront1) as [Hfront' Hcached'].
    pose proof Hslab as Hslab'. unfold __kmem_alloc_from_slab in Hslab'.
    apply bind_inv in Hslab' as (a & s2 & Hpick & _).
    destruct (kmem_alloc_from_slab_spec _ s1 fl a s2 Hback1 Hpick)
      as (r0 & s3 & s4 & r' & s'' & sa & sa3 & _ & _ & _ & Hrun' & Hpos & Hfresh & _
          & Hcases).
    rewrite Hslab in Hrun'. injection Hrun' as <- <-.
    assert (Hnr1 : nr_cur_alloc (cache s1)
                   = wrap SIZE_MAX (Z.of_nat (length (out ++ cached_objects s1)))).
    { by rewrite (bq_nr_cur_alloc _ _ Heq1), Hnr, Hcached1. }
    pose proof size_max_pos as Hmax.
    destruct Hcases as [(-> & Hback' & Hnr' & _)|(-> & Hback' & Hnr' & _)].
    + rewrite decide_False by lia. split.
      * split; [done|by rewrite Hcached'|].
        rewrite Hcached', Hnr', Hnr1, wrap_wrap_add by done. f_equal.
        cbn [app length]. lia.
      * intros _. split; [done|]. intros Hout. apply Hfresh.
        rewrite elem_of_app. by left.
    + rewrite decide_True by done. split; [|done].
      split; [done|by rewrite Hcached'|].
      rewrite Hcached', Hnr', wrap_succ_pred; [done|].
      rewrite Hnr1. apply wrap_range. lia.
Qed.

(** [kmem_cache_free] of an object a caller holds. *)
Lemma kmem_cache_free_inv out out' s fuel cpu x s' :
  cache_inv out s →
  out ≡ₚ x :: out' →
  kmem_cache_free fuel cpu x s = Ok tt s' →
  cache_inv out' s'.
Proof.
  intros [Hfront Hback Hnr] Hout Hrun.
  destruct (kmem_cache_free_front fuel cpu x s s' Hfront Hrun)
    as (s1 & pcc & l & Hfront1 & Hcached1 & Hsame1 & Hpcc & Hl & Hroom & ->).
  pose proof (back_same_eq _ _ Hsame1) as Heq1.
  assert (Hback1 : back_inv (out ++ cached_objects s1) s1).
  { eapply back_inv_perm; [|by eapply back_inv_back_eq]. by rewrite Hcached1. }
  assert (Hnr1 : nr_cur_alloc (cache s1)
                 = wrap SIZE_MAX (Z.of_nat (length (out ++ cached_objects s1)))).
  { by rewrite (bq_nr_cur_alloc _ _ Heq1), Hnr, Hcached1. }
  destruct (front_inv_push s1 cpu pcc l x Hfront1 Hpcc Hl Hroom)
    as (Hfront' & Hcached' & Hsame').
  set (s' := set_magazines _ s1) in *.
  pose proof (back_same_eq _ _ Hsame') as Heq'.
  assert (Hperm : out' ++ cached_objects s' ≡ₚ out ++ cached_objects s1).
  { rewrite Hcached', Hout. solve_Permutation. }
  split.
  - done.
  - eapply back_inv_perm; [symmetry; exact Hperm|]. by eapply back_inv_back_eq.
  - by rewrite (bq_nr_cur_alloc _ _ Heq'), Hnr1, Hperm.
Qed.

Lemma reachable_inv out s : reachable out s → cache_inv out s.
Proof.
  induction 1 as [size algn fl qmax ctr dtr e s Hrun Hg Henv
                 |out s fuel cpu fl r s' _ IH Hrun
                 |out out' s fuel cpu x s' _ IH Hout Hrun].
  - by destruct (create_inv _ _ _ _ _ _ _ _ Hrun Hg Henv).
  - by destruct (kmem_cache_alloc_inv _ _ _ _ _ _ _ IH Hrun).
  - by eapply kmem_cache_free_inv.
Qed.

End reach_inv.

(** ** The example caches are caches in use *)

Lemma apart_far g R R' : R + g_rsize g ≤ R' → apart g R R'.
Proof. intros Hfar x [? ?] [? ?]. lia. Qed.

Lemma plain_env_ok g :
  g_rsize g ≤ 8192 → env_ok (H := x86_64) g plain_env.
Proof.
  intros Hg. split.
  - exists [(4096, empty_magazine); (4608, empty_magazine)], []. split; [done|].
    split; [done|]. by repeat constructor.
  - vm_compute. apply (bool_decide_unpack _). by vm_compute.
  - intros a m Hin Ha. cbn in Hin.
    assert (m = empty_magazine) as ->.
    { by repeat (apply elem_of_cons in Hin as [[= ? ?]|Hin]; [done|]);
        apply not_elem_of_nil in Hin. }
    split; [done|]. by vm_compute.
  - vm_compute. constructor.
  - vm_compute. constructor.
  - change (nonnull (env_arena plain_env)) with [65536; 131072]. cbn.
    split; [|split; [|done]]; [|done].
    constructor; [|constructor]. apply apart_far. lia.
  - change (nonnull (env_arena plain_env)) with [65536; 131072].
    intros R HR. repeat (apply elem_of_cons in HR as [->|HR]; [lia|]).
    by apply not_elem_of_nil in HR.
  - change (nonnull (env_arena plain_env)) with [65536; 131072].
    intros R HR. repeat (apply elem_of_cons in HR as [->|HR]; [by vm_compute|]).
    by apply not_elem_of_nil in HR.
Qed.

Lemma bufctl_env_is_ok g :
  g_rsize g ≤ 8192 → env_ok (H := x86_64) g bufctl_env.
Proof.
  intros Hg. split.
  - exists [(4096, empty_magazine); (4608, empty_magazine)], []. split; [done|].
    split; [done|]. by repeat constructor.
  - vm_compute. apply (bool_decide_unpack _). by vm_compute.
  - intros a m Hin Ha. cbn in Hin.
    assert (m = empty_magazine) as ->.
    { by repeat (apply elem_of_cons in Hin as [[= ? ?]|Hin]; [done|]);
        apply not_elem_of_nil in Hin. }
    split; [done|]. by vm_compute.
  - apply (bool_decide_unpack _). by vm_compute.
  - apply (bool_decide_unpack _). by vm_compute.
  - change (nonnull (env_arena bufctl_env)) with [65536; 131072]. cbn.
    split; [|split; [|done]]; [|done].
    constructor; [|constructor]. apply apart_far. lia.
  - change (nonnull (env_arena bufctl_env)) with [65536; 131072].
    intros R HR. repeat (apply elem_of_cons in HR as [->|HR]; [lia|]).
    by apply not_elem_of_nil in HR.
  - change (nonnull (env_arena bufctl_env)) with [65536; 131072].
    intros R HR. repeat (apply elem_of_cons in HR as [->|HR]; [by vm_compute|]).
    by apply not_elem_of_nil in HR.
Qed.

Lemma geometry_ok_concrete (g : geometry) :
  (0 <? g_obj g) && (1 <=? g_cap g) && (g_cap g <=? UINT64_MAX)
    && (g_cap g * g_obj g <=? g_rsize g) = true →
  geometry_ok (H := x86_64) g.
Proof.
  intros Hb. repeat (apply andb_prop in Hb as [Hb ?]).
  split; cbn; lia.
Qed.

Lemma reachable_small_cache : reachable (H := x86_64) [] small_cache.
Proof.
  eapply (reach_create (H := x86_64) 64 64 0 0 None false plain_env).
  - by vm_compute.
  - apply geometry_ok_concrete. by vm_compute.
  - apply plain_env_ok. by vm_compute.
Qed.

Lemma reachable_bufctl_cache : reachable (H := x86_64) [] bufctl_cache.
Proof.
  eapply (reach_create (H := x86_64) 1024 64 0 0 None false bufctl_env).
  - by vm_compute.
  - apply geometry_ok_concrete. by vm_compute.
  - apply bufctl_env_is_ok. by vm_compute.
Qed.

Lemma reachable_failing_ctor_cache : reachable (H := x86_64) [] failing_ctor_cache.
Proof.
  eapply (reach_create (H := x86_64) 64 64 0 0 (Some (λ _ _, 1)) false plain_env).
  - by vm_compute.
  - apply geometry_ok_concrete. by vm_compute.
  - apply plain_env_ok. by vm_compute.
Qed.

Lemma reachable_small_cache_busy :
  reachable (H := x86_64) [65536] small_cache_busy.
Proof.
  apply (reach_alloc (H := x86_64) [] small_cache 3 0%nat 0 65536 small_cache_busy
           reachable_small_cache).
  by vm_compute.
Qed.

Lemma reachable_bufctl_cache_busy :
  reachable (H := x86_64) [72704] bufctl_cache_busy.
Proof.
  apply (reach_alloc (H := x86_64) [] bufctl_cache 3 0%nat 0 72704 bufctl_cache_busy
           reachable_bufctl_cache).
  by vm_compute.
Qed.



Lemma reachable_small_cache_balanced :
  reachable (H := x86_64) [] small_cache_balanced.
Proof.
  apply (reach_free (H := x86_64) [65536] [] small_cache_busy 3 0%nat 65536
           small_cache_balanced reachable_small_cache_busy).
  - reflexivity.
  - by vm_compute.
Qed.

Lemma reachable_bufctl_cache_balanced :
  reachable (H := x86_64) [] bufctl_cache_balanced.
Proof.
  apply (reach_free (H := x86_64) [72704] [] bufctl_cache_busy 3 0%nat 72704
           bufctl_cache_balanced reachable_bufctl_cache_busy).
  - reflexivity.
  - by vm_compute.
Qed.

(** * Properties of caches in use *)

Section in_use.
Context `{Platform} `{!PlatformOk}.

(** X1: in a cache that was created and then only allocated from and
    freed to, the live-allocation counter [nr_cur_alloc] is the number of
    objects the callers hold plus the number of objects that sit in the
    magazines, as a [size_t]: only the slab layer counts, and a free that
    ends in a magazine does not reach it. *)
Theorem live_counter_counts_held_and_cached out s :
  reachable out s →
  nr_cur_alloc (cache s)
  = wrap SIZE_MAX (Z.of_nat (length out + length (cached_objects s))).
Proof.
  intros Hreach. rewrite (ci_counter _ _ (reachable_inv _ _ Hreach)).
  by rewrite length_app.
Qed.

(** X2: in a cache in use that has bufctls, the buffers of the bufctls
    in the hash are, one entry each, the objects the callers hold
    together with the objects cached in the magazines; in a cache without
    bufctls the hash has no entry. *)
Theorem hash_index_tracks_objects out s :
  reachable out s →
  if __use_bufctls (cache s)
  then addr_of (bufctls s) <$> hashed_bufctl_ptrs s ≡ₚ out ++ cached_objects s
  else hashed_bufctl_ptrs s = [].
Proof.
  intros Hreach. pose proof (ci_back _ _ (reachable_inv _ _ Hreach)) as Hback.
  unfold back_inv in Hback. destruct (__use_bufctls (cache s)).
  - apply (bi_addrs _ _ Hback).
  - destruct Hback as [F Hinv].
    apply Permutation_nil_r. apply (hi_content _ _ (ei_hash _ _ _ Hinv)).
Qed.

(** X3: [kmem_cache_alloc] on a cache in use never hands out an object
    that a caller still holds: a result other than NULL is a positive
    address that is neither among the objects held nor, after the call,
    in a magazine; and the objects held are pairwise distinct. *)
Theorem alloc_returns_unheld_object out s fuel cpu fl r s' :
  reachable out s →
  kmem_cache_alloc fuel cpu fl s = Ok r s' →
  r ≠ 0 →
  0 < r ∧ (r ∉ out) ∧ (r ∉ cached_objects s') ∧ NoDup out.
Proof.
  intros Hreach Hrun Hr. pose proof (reachable_inv _ _ Hreach) as Hinv.
  destruct (kmem_cache_alloc_inv _ _ _ _ _ _ _ Hinv Hrun) as [Hinv' Hfresh].
  destruct (Hfresh Hr) as [Hpos Hout]. rewrite decide_False in Hinv' by done.
  destruct (back_inv_nodup _ _ (ci_back _ _ Hinv')) as [Hnd _].
  cbn in Hnd. apply NoDup_cons in Hnd as [Hnot Hnd].
  split; [done|]. split; [done|]. split.
  - intros Hc. apply Hnot. rewrite elem_of_app. by right.
  - by apply NoDup_app in Hnd as (? & _).
Qed.

(** X4: when the constructor fails on the object that
    [__kmem_alloc_from_slab] took from slab [a], the call returns NULL,
    the object is a free slot of the slab layer again, and the busy count
    of the slab and the cache's [nr_cur_alloc] are what they were before
    the object was taken. *)
Theorem alloc_from_slab_ctor_failure A s fl f a s1 r s2 :
  back_inv A s →
  0 ≤ nr_cur_alloc (cache s) ≤ SIZE_MAX →
  ctor (cache s) = Some f →
  alloc_pick_slab fl s = Ok a s1 →
  alloc_take_object a s1 = Ok r s2 →
  f r fl ≠ 0 →
  ∃ s' sa sa',
    __kmem_alloc_from_slab fl s = Ok 0 s'
    ∧ back_inv A s'
    ∧ nr_cur_alloc (cache s') = nr_cur_alloc (cache s)
    ∧ slabs s1 !! a = Some sa
    ∧ slabs s' !! a = Some sa'
    ∧ num_busy_obj sa' = num_busy_obj sa.
Proof.
  intros Hinv Hnr Hctor Hpick Htake Hfail.
  destruct (kmem_alloc_from_slab_spec A s fl a s1 Hinv Hpick)
    as (r0 & s2' & s3 & r' & s' & sa & sa3 & Htake' & _ & _ & Hrun & _ & _ & Hsa
        & Hcases).
  rewrite Htake in Htake'. injection Htake' as <- <-.
  destruct Hcases as [(_ & _ & _ & [Hnone|(f' & Hf' & Hz)])
                     |(-> & Hinv' & Hnr' & _ & Hsa3 & Hbusy)].
  - congruence.
  - rewrite Hctor in Hf'. injection Hf' as <-. done.
  - exists s', sa, sa3. split; [done|]. split; [done|].
    split; [by rewrite Hnr', wrap_succ_pred|]. done.
Qed.

(** X5: a successful [kmem_cache_grow] keeps the invariant of the slab
    layer and adds one slab, at the head of the empty list, that has all
    its slots free: no busy object and as many slots as the geometry of
    the cache gives a slab.  The other lists, the records of the slabs
    that were there and [nr_cur_alloc] are untouched. *)
Theorem grow_adds_an_empty_slab A s s' :
  back_inv A s →
  kmem_cache_grow s = Ok true s' →
  back_inv A s'
  ∧ nr_cur_alloc (cache s') = nr_cur_alloc (cache s)
  ∧ full_slab_list (cache s') = full_slab_list (cache s)
  ∧ partial_slab_list (cache s') = partial_slab_list (cache s)
  ∧ (∀ b, b ∈ slab_lists (cache s) → slabs s' !! b = slabs s !! b)
  ∧ ∃ a sa, empty_slab_list (cache s') = a :: empty_slab_list (cache s)
      ∧ (a ∉ slab_lists (cache s))
      ∧ slabs s' !! a = Some sa
      ∧ num_busy_obj sa = 0
      ∧ num_total_obj sa = slab_capacity (cache s).
Proof.
  intros Hinv Hrun.
  pose proof (kmem_cache_grow_frame s true s' Hrun) as Hframe.
  destruct (cache_geometry_frame _ _ Hframe) as [Hgeo Huse].
  assert (Hgrow : back_inv A s'
            ∧ nr_cur_alloc (cache s') = nr_cur_alloc (cache s)
            ∧ full_slab_list (cache s') = full_slab_list (cache s)
            ∧ partial_slab_list (cache s') = partial_slab_list (cache s)
            ∧ (∃ a, empty_slab_list (cache s') = a :: empty_slab_list (cache s))
            ∧ (∀ b, b ∈ slab_lists (cache s) → slabs s' !! b = slabs s !! b)).
  { unfold back_inv in *. rewrite Huse.
    destruct (__use_bufctls (cache s)) eqn:Huse0.
    - by apply grow_bufctl_inv.
    - destruct Hinv as [F Hinv].
      destruct (grow_small_inv A F s s' Hinv Huse0 Hrun) as (a & ? & ? & ? & ? & ? & ?).
      split; [by eexists|]. split; [done|]. split; [done|]. split; [done|].
      split; [by exists a|done]. }
  destruct Hgrow as (Hinv' & Hnr & Hfull & Hpartial & [a Hempty] & Hold).
  split; [done|]. split; [done|]. split; [done|]. split; [done|]. split; [done|].
  destruct (back_inv_slabs _ _ Hinv') as (Hg' & F' & Hok').
  unfold slabs_inv in Hok'. rewrite Hfull, Hpartial, Hempty in Hok'.
  assert (Ha : a ∈ full_slab_list (cache s) ++ partial_slab_list (cache s)
                   ++ a :: empty_slab_list (cache s)).
  { rewrite !elem_of_app, elem_of_cons. auto. }
  destruct (slab_ok _ _ _ _ _ _ _ _ Hok' a Ha) as (sa & Hsa & Htot & _).
  exists a, sa. split; [done|]. split.
  - pose proof (lists_nodup _ _ _ _ _ _ _ _ Hok') as Hnd.
    assert (Hp : full_slab_list (cache s) ++ partial_slab_list (cache s)
                   ++ a :: empty_slab_list (cache s)
                 ≡ₚ a :: slab_lists (cache s))
      by (unfold slab_lists; solve_Permutation).
    rewrite Hp in Hnd. by apply NoDup_cons in Hnd as [? _].
  - split; [done|]. split.
    + apply (empty_ok _ _ _ _ _ _ _ _ Hok' a sa); [by left|done].
    + rewrite Htot, Hgeo. done.
Qed.

End in_use.

(** ** The properties on the example caches *)

Lemma live_counter_counts_held_and_cached_witness :
  nr_cur_alloc (cache small_cache_busy)
  = wrap (SIZE_MAX (Platform := x86_64))
      (Z.of_nat (length [65536] + length (cached_objects small_cache_busy))).
Proof.
  exact (live_counter_counts_held_and_cached (H := x86_64) [65536] small_cache_busy
           reachable_small_cache_busy).
Defined.

Lemma hash_index_tracks_objects_witness :
  if __use_bufctls (H := x86_64) (cache bufctl_cache_busy)
  then addr_of (bufctls bufctl_cache_busy) <$> hashed_bufctl_ptrs bufctl_cache_busy
       ≡ₚ [72704] ++ cached_objects bufctl_cache_busy
  else hashed_bufctl_ptrs bufctl_cache_busy = [].
Proof.
  exact (hash_index_tracks_objects (H := x86_64) [72704] bufctl_cache_busy
           reachable_bufctl_cache_busy).
Defined.

Lemma alloc_returns_unheld_object_witness :
  0 < 65600
  ∧ (65600 ∉ [65536])
  ∧ (65600 ∉ cached_objects
               (state_of (kmem_cache_alloc (H := x86_64) 3 0 0) small_cache_busy))
  ∧ NoDup [65536].
Proof.
  apply (alloc_returns_unheld_object (H := x86_64) [65536] small_cache_busy
           3 0%nat 0 65600
           (state_of (kmem_cache_alloc (H := x86_64) 3 0 0) small_cache_busy)
           reachable_small_cache_busy).
  - vm_compute. reflexivity.
  - discriminate.
Defined.

Lemma alloc_from_slab_ctor_failure_witness :
  ∃ s' sa sa',
    __kmem_alloc_from_slab (H := x86_64) 0 failing_ctor_cache = Ok 0 s'
    ∧ back_inv (H := x86_64) ([] ++ cached_objects failing_ctor_cache) s'
    ∧ nr_cur_alloc (cache s') = nr_cur_alloc (cache failing_ctor_cache)
    ∧ slabs (state_of (alloc_pick_slab (H := x86_64) 0) failing_ctor_cache) !! 69592
      = Some sa
    ∧ slabs s' !! 69592 = Some sa'
    ∧ num_busy_obj sa' = num_busy_obj sa.
Proof.
  apply (alloc_from_slab_ctor_failure (H := x86_64)
           ([] ++ cached_objects failing_ctor_cache) failing_ctor_cache 0
           (λ _ _, 1) 69592
           (state_of (alloc_pick_slab (H := x86_64) 0) failing_ctor_cache)
           65536
           (state_of (alloc_take_object (H := x86_64) 69592)
              (state_of (alloc_pick_slab (H := x86_64) 0) failing_ctor_cache))).
  - apply (ci_back _ _ (reachable_inv _ _ reachable_failing_ctor_cache)).
  - by vm_compute.
  - by vm_compute.
  - by vm_compute.
  - by vm_compute.
  - done.
Defined.

Lemma grow_adds_an_empty_slab_witness :
  let s := small_cache in
  let s' := state_of (kmem_cache_grow (H := x86_64)) small_cache in
  back_inv (H := x86_64) ([] ++ cached_objects s) s'
  ∧ nr_cur_alloc (cache s') = nr_cur_alloc (cache s)
  ∧ full_slab_list (cache s') = full_slab_list (cache s)
  ∧ partial_slab_list (cache s') = partial_slab_list (cache s)
  ∧ (∀ b, b ∈ slab_lists (cache s) → slabs s' !! b = slabs s !! b)
  ∧ ∃ a sa, empty_slab_list (cache s') = a :: empty_slab_list (cache s)
      ∧ (a ∉ slab_lists (cache s))
      ∧ slabs s' !! a = Some sa
      ∧ num_busy_obj sa = 0
      ∧ num_total_obj sa = slab_capacity (H := x86_64) (cache s).
Proof.
  apply (grow_adds_an_empty_slab (H := x86_64) ([] ++ cached_objects small_cache)
           small_cache (state_of (kmem_cache_grow (H := x86_64)) small_cache)).
  - apply (ci_back _ _ (reachable_inv _ _ reachable_small_cache)).
  - by vm_compute.
Defined.

(** * Properties of the bufctl hash *)

Section hash_properties.
Context `{Platform} `{!PlatformOk}.

Lemma yank_from_none bucket buf s :
  (∀ bc, bc ∈ bucket → ∃ b, bufctls s !! bc = Some b ∧ buf_addr b ≠ buf) →
  yank_from bucket buf s = Ok None s.
Proof.
  induction bucket as [|bc bucket IH]; intros Hall; [done|].
  destruct (Hall bc) as (b & Hb & Hne); [by left|].
  cbn [yank_from]. rewrite (bind_ok _ _ _ _ _ (read_bufctl_ok _ _ _ Hb)).
  destruct (Z.eqb_spec (buf_addr b) buf); [done|].
  rewrite (bind_ok _ _ _ _ _ (IH ltac:(intros bc' ?; apply Hall; by right))).
  done.
Qed.

(** X6: tracking and yanking are a round trip.  When the hash holds the
    bufctls [L], each in the bucket of its buffer, and [bc] is a bufctl
    for a buffer that none of them has, then after [__track_alloc bc] (a
    resize of the table included, if the load asks for one)
    [__yank_bufctl] on the buffer finds [bc] itself and leaves the hash
    holding [L] again. *)
Theorem track_then_yank L s bc b :
  hash_inv L s →
  bufctls s !! bc = Some b →
  buf_addr b ∉ addr_of (bufctls s) <$> L →
  ∃ s1 s2,
    __track_alloc bc s = Ok tt s1
    ∧ __yank_bufctl (buf_addr b) s1 = Ok bc s2
    ∧ hash_inv L s2.
Proof.
  intros Hinv Hb Hfresh.
  destruct (track_alloc_spec L s bc b Hinv Hb) as (s1 & Hrun1 & Hinv1 & Hstep1).
  pose proof (hs_bufctls _ _ Hstep1) as Hbcs.
  destruct (yank_bufctl_spec (bc :: L) s1 (buf_addr b) Hinv1)
    as (bc' & b' & L' & s2 & Hrun2 & Hb' & Haddr & Hperm & Hinv2 & _).
  { rewrite fmap_cons. apply elem_of_cons. left. unfold addr_of.
    by rewrite Hbcs, Hb. }
  assert (bc' = bc) as ->.
  { assert (Hin : bc' ∈ bc :: L) by (rewrite Hperm; by left).
    apply elem_of_cons in Hin as [->|Hin]; [done|].
    destruct Hfresh. apply list_elem_of_fmap. exists bc'. split; [|done].
    rewrite Hbcs in Hb'. unfold addr_of. by rewrite Hb'. }
  apply Permutation_cons_inv in Hperm.
  exists s1, s2. split; [done|]. split; [done|].
  eapply hash_inv_perm; [symmetry; exact Hperm|done].
Qed.

(** X7: [__yank_bufctl] on a buffer that no bufctl of the hash is for
    (a free of a pointer the cache did not hand out, or a second free)
    panics. *)
Theorem yank_of_untracked_buffer_panics L s buf :
  hash_inv L s →
  buf ∉ addr_of (bufctls s) <$> L →
  __yank_bufctl buf s = Fault Panic.
Proof.
  intros Hinv Hnot.
  destruct (hash_bucket L s buf Hinv) as (bucket & Hbucket).
  unfold __yank_bufctl. rewrite (bind_ok _ _ _ _ _ (get_cache_eq _)).
  rewrite Hbucket. cbn [defined]. unfold bind at 1, ret at 1.
  assert (Hnone : yank_from bucket buf s = Ok None s).
  { apply yank_from_none. intros bc Hbc.
    destruct (hi_placed _ _ Hinv _ _ bc Hbucket Hbc) as (b & Hb & _).
    exists b. split; [done|]. intros Heq. apply Hnot.
    apply list_elem_of_fmap. exists bc. split.
    - unfold addr_of. by rewrite Hb.
    - rewrite <-(hi_content _ _ Hinv). apply elem_of_concat. eauto. }
  by rewrite (bind_ok _ _ _ _ _ Hnone).
Qed.

(** X8: [__try_hash_resize] always returns, and whether it resizes or
    not the hash holds the same bufctls afterwards, each in the bucket of
    its buffer under the table's new size.  It leaves the table alone when
    the load does not ask for more lists or when the base allocator has
    no memory for the new table. *)
Theorem hash_resize_keeps_entries L s :
  hash_inv L s →
  ∃ s', __try_hash_resize s = Ok tt s'
    ∧ hash_inv L s'
    ∧ bufctls s' = bufctls s
    ∧ slabs s' = slabs s
    ∧ (hash_needs_more (hh (cache s)) = false → s' = s)
    ∧ (hash_needs_more (hh (cache s)) = true →
       hd false (env_base (env s)) = false →
       cache s' = cache s).
Proof.
  intros Hinv.
  destruct (try_hash_resize_spec L s Hinv) as (s' & Hrun & Hinv' & Hstep).
  exists s'. split; [done|]. split; [done|].
  split; [apply (hs_bufctls _ _ Hstep)|]. split; [apply (hs_slabs _ _ Hstep)|].
  unfold __try_hash_resize in Hrun.
  rewrite (bind_ok _ _ _ _ _ (get_cache_eq _)) in Hrun.
  split.
  - intros Hno. rewrite Hno in Hrun. cbn in Hrun. by injection Hrun as <-.
  - intros Hyes Hoom. rewrite Hyes in Hrun. cbn [negb] in Hrun.
    unfold bind at 1, base_zalloc at 1 in Hrun. rewrite Hoom in Hrun.
    cbn [negb] in Hrun. injection Hrun as <-. by destruct_state s.
Qed.

End hash_properties.

(** * Running out of memory, and the depot lock *)

Section edges.
Context `{Platform} `{!PlatformOk}.




(** X11: taking the depot lock always succeeds; it never shrinks the
    depot's magazine size and never takes it past [KMC_MAG_MAX_SZ], and it
    leaves the depot's lists and their counts, the per-CPU caches, the
    magazines and the slab layer alone.  An acquisition that was not
    contended changes nothing in the depot. *)
Theorem lock_depot_grows_magsize_only s :
  0 < depot_magsize (depot (cache s)) ≤ KMC_MAG_MAX_SZ →
  ∃ s', lock_depot s = Ok tt s'
    ∧ depot_magsize (depot (cache s)) ≤ depot_magsize (depot (cache s'))
        ≤ KMC_MAG_MAX_SZ
    ∧ not_empty (depot (cache s')) = not_empty (depot (cache s))
    ∧ depot_empty (depot (cache s')) = depot_empty (depot (cache s))
    ∧ nr_not_empty (depot (cache s')) = nr_not_empty (depot (cache s))
    ∧ nr_empty (depot (cache s')) = nr_empty (depot (cache s))
    ∧ back_same s s'
    ∧ pcpu_caches (cache s') = pcpu_caches (cache s)
    ∧ magazines s' = magazines s
    ∧ (hd None (env_trylock (env s)) = None →
       depot (cache s') = depot (cache s)).
Proof.
  intros Hsize. exists (depot_locked s). split; [apply lock_depot_eq|].
  unfold depot_locked.
  destruct (hd None (env_trylock (env s))) as [time|].
  - destruct (lock_depot_contended_lists time (depot (cache s))) as (? & ? & ? & ?).
    split; [by apply lock_depot_contended_magsize|].
    split; [done|]. split; [done|]. split; [done|]. split; [done|].
    split; [solve_back_same|]. done.
  - split; [cbn; lia|]. split; [done|]. split; [done|]. split; [done|].
    split; [done|]. split; [solve_back_same|]. done.
Qed.

End edges.

(** ** The hash and the edge cases on the example caches *)

Lemma bufctl_cache_busy_hash :
  hash_inv (H := x86_64) (hashed_bufctl_ptrs bufctl_cache_busy) bufctl_cache_busy.
Proof.
  pose proof (ci_back _ _ (reachable_inv _ _ reachable_bufctl_cache_busy)) as Hback.
  unfold back_inv in Hback.
  replace (__use_bufctls (cache bufctl_cache_busy)) with true in Hback
    by (by vm_compute).
  apply (bi_hash _ _ Hback).
Qed.

Lemma track_then_yank_witness :
  ∃ s1 s2,
    __track_alloc (H := x86_64) 200704 bufctl_cache_busy = Ok tt s1
    ∧ __yank_bufctl (H := x86_64) 65536 s1 = Ok 200704 s2
    ∧ hash_inv (H := x86_64) (hashed_bufctl_ptrs bufctl_cache_busy) s2.
Proof.
  apply (track_then_yank (H := x86_64) (hashed_bufctl_ptrs bufctl_cache_busy)
           bufctl_cache_busy 200704 {| buf_addr := 65536; my_slab := 196608 |}).
  - apply bufctl_cache_busy_hash.
  - by vm_compute.
  - apply (bool_decide_unpack _). by vm_compute.
Defined.

Lemma yank_of_untracked_buffer_panics_witness :
  __yank_bufctl (H := x86_64) 65536 bufctl_cache_busy = Fault Panic.
Proof.
  apply (yank_of_untracked_buffer_panics (H := x86_64)
           (hashed_bufctl_ptrs bufctl_cache_busy) bufctl_cache_busy 65536).
  - apply bufctl_cache_busy_hash.
  - apply (bool_decide_unpack _). by vm_compute.
Defined.

Lemma hash_resize_keeps_entries_witness :
  ∃ s', __try_hash_resize (H := x86_64) bufctl_cache_busy = Ok tt s'
    ∧ hash_inv (H := x86_64) (hashed_bufctl_ptrs bufctl_cache_busy) s'.
Proof.
  destruct (hash_resize_keeps_entries (H := x86_64)
              (hashed_bufctl_ptrs bufctl_cache_busy) bufctl_cache_busy
              bufctl_cache_busy_hash) as (s' & Hrun & Hinv & _).
  exists s'. split; [exact Hrun|exact Hinv].
Defined.



Lemma lock_depot_grows_magsize_only_witness :
  ∃ s', lock_depot (H := x86_64) small_cache = Ok tt s'
    ∧ 8 ≤ depot_magsize (depot (cache s')) ≤ 62
    ∧ depot (cache s') = depot (cache small_cache).
Proof.
  destruct (lock_depot_grows_magsize_only (H := x86_64) small_cache)
    as (s' & Hrun & Hsize & _ & _ & _ & _ & _ & _ & _ & Hquiet).
  - by vm_compute.
  - exists s'. split; [exact Hrun|]. split; [exact Hsize|]. apply Hquiet.
    reflexivity.
Defined.

(** * Destroying a slab *)

Section destroy.
Context `{Platform} `{!PlatformOk}.




End destroy.

(** * A free followed by an allocation on the same CPU *)

Section lifo.
Context `{Platform} `{!PlatformOk}.








End lifo.
(** * The magazine layer and the slab layer together *)

Section cache_in_use.
Context `{Platform} `{!PlatformOk}.

Lemma concat_nil_buckets {A} (t : list (list A)) :
  concat t = [] → Forall (λ bucket, bucket = []) t.
Proof.
  induction t as [|b t IH]; intros Hc; [constructor|].
  cbn in Hc. apply app_eq_nil in Hc as [-> Ht]. constructor; [done|by apply IH].
Qed.


(** C4 (amended): in a cache in use that has bufctls, the hash holds
    exactly one bufctl for each object that a caller holds or that sits in
    a magazine of the cache, and none besides; in a cache without bufctls
    every list of the hash is empty. *)
Theorem hash_holds_held_and_cached out s :
  reachable out s →
  if __use_bufctls (cache s)
  then NoDup (addr_of (bufctls s) <$> hashed_bufctl_ptrs s)
       ∧ ∀ x, x ∈ addr_of (bufctls s) <$> hashed_bufctl_ptrs s
              ↔ x ∈ out ∨ x ∈ cached_objects s
  else Forall (λ bucket, bucket = []) (alloc_hash (cache s)).
Proof.
  intros Hreach. pose proof (ci_back _ _ (reachable_inv _ _ Hreach)) as Hback.
  destruct (back_inv_nodup _ _ Hback) as [Hnd _].
  unfold back_inv in Hback. destruct (__use_bufctls (cache s)).
  - pose proof (bi_addrs _ _ Hback) as Hperm. split.
    + by rewrite Hperm.
    + intros x. by rewrite Hperm, elem_of_app.
  - destruct Hback as [F Hinv]. apply concat_nil_buckets.
    apply Permutation_nil_r. apply (hi_content _ _ (ei_hash _ _ _ Hinv)).
Qed.

(** C5 (amended): in a cache in use none of whose objects is held, as
    after a balanced sequence of allocations and frees, [nr_cur_alloc] is
    the number of objects that sit in the magazines of the cache, as a
    [size_t]. *)
Theorem balanced_counter_counts_cached s :
  reachable [] s →
  nr_cur_alloc (cache s) = wrap SIZE_MAX (Z.of_nat (length (cached_objects s))).
Proof.
  intros Hreach. exact (ci_counter _ _ (reachable_inv _ _ Hreach)).
Qed.

(** C6: on a cache in use with constructor [f], when [f] fails on the
    object [r] that [__kmem_alloc_from_slab] took from slab [a], the call
    returns NULL; the busy count of the slab and [nr_cur_alloc] are what
    they were before the call, and the cache is in use as before, with
    the same objects held: the slot is a free slot of its slab again. *)
Theorem ctor_failure_gives_slot_back out s fl f a s1 r s2 :
  reachable out s →
  ctor (cache s) = Some f →
  alloc_pick_slab fl s = Ok a s1 →
  alloc_take_object a s1 = Ok r s2 →
  f r fl ≠ 0 →
  ∃ s' sa sa',
    __kmem_alloc_from_slab fl s = Ok 0 s'
    ∧ nr_cur_alloc (cache s') = nr_cur_alloc (cache s)
    ∧ slabs s1 !! a = Some sa
    ∧ slabs s' !! a = Some sa'
    ∧ num_busy_obj sa' = num_busy_obj sa
    ∧ cache_inv out s'.
Proof.
  intros Hreach Hctor Hpick Htake Hfail.
  destruct (reachable_inv _ _ Hreach) as [Hfront Hback Hnr].
  destruct (kmem_alloc_from_slab_spec _ s fl a s1 Hback Hpick)
    as (r0 & s2' & s3 & r' & s' & sa & sa3 & Htake' & _ & _ & Hrun & _ & _ & Hsa
        & Hcases).
  rewrite Htake in Htake'. injection Htake' as <- <-.
  destruct Hcases as [(_ & _ & _ & [Hnone|(f' & Hf' & Hz)])
                     |(-> & Hinv' & Hnr' & _ & Hsa3 & Hbusy)].
  - congruence.
  - rewrite Hctor in Hf'. injection Hf' as <-. done.
  - assert (Hsame : nr_cur_alloc (cache s') = nr_cur_alloc (cache s)).
    { rewrite Hnr'. apply wrap_succ_pred. rewrite Hnr. apply wrap_range.
      pose proof size_max_pos. lia. }
    destruct (front_inv_slab_frame _ _ (kmem_alloc_from_slab_frame fl s 0 s' Hrun)
                Hfront) as [Hfront' Hcached'].
    exists s', sa, sa3. split; [done|]. split; [done|]. split; [done|].
    split; [done|]. split; [done|].
    split; [done|by rewrite Hcached'|by rewrite Hcached', Hsame].
Qed.

End cache_in_use.

(** ** On the example caches *)


(** C4 as claimed fails: in the cache with bufctls the object allocated
    and freed on CPU 0 sits in the loaded magazine; no object is held, and
    the hash still holds the bufctl of the object. *)
Lemma freed_object_stays_in_hash :
  __kmem_cache_create (H := x86_64) 1024 64 0 0 None false (boot bufctl_env)
    = Ok tt bufctl_cache
  ∧ kmem_cache_alloc (H := x86_64) 3 0 0 bufctl_cache = Ok 72704 bufctl_cache_busy
  ∧ kmem_cache_free (H := x86_64) 3 0 72704 bufctl_cache_busy
    = Ok tt bufctl_cache_balanced
  ∧ __use_bufctls (H := x86_64) (cache bufctl_cache_balanced) = true
  ∧ hashed_bufctl_ptrs bufctl_cache_balanced = [200816]
  ∧ (buf_addr <$> bufctls bufctl_cache_balanced !! 200816) = Some 72704
  ∧ cached_objects bufctl_cache_balanced = [72704].
Proof. repeat apply conj; vm_compute; reflexivity. Qed.

Lemma hash_holds_held_and_cached_witness :
  if __use_bufctls (H := x86_64) (cache bufctl_cache_balanced)
  then NoDup (addr_of (bufctls bufctl_cache_balanced)
                <$> hashed_bufctl_ptrs bufctl_cache_balanced)
       ∧ ∀ x, x ∈ addr_of (bufctls bufctl_cache_balanced)
                    <$> hashed_bufctl_ptrs bufctl_cache_balanced
              ↔ x ∈ [] ∨ x ∈ cached_objects bufctl_cache_balanced
  else Forall (λ bucket, bucket = []) (alloc_hash (cache bufctl_cache_balanced)).
Proof.
  exact (hash_holds_held_and_cached (H := x86_64) [] bufctl_cache_balanced
           reachable_bufctl_cache_balanced).
Defined.

(** C5 as claimed fails: after one allocation and the free of its
    object, the object sits in the loaded magazine of CPU 0 and
    [nr_cur_alloc] is 1. *)
Lemma balanced_run_leaves_counter_at_one :
  __kmem_cache_create (H := x86_64) 64 64 0 0 None false (boot plain_env)
    = Ok tt small_cache
  ∧ kmem_cache_alloc (H := x86_64) 3 0 0 small_cache = Ok 65536 small_cache_busy
  ∧ kmem_cache_free (H := x86_64) 3 0 65536 small_cache_busy
    = Ok tt small_cache_balanced
  ∧ nr_cur_alloc (cache small_cache_balanced) = 1
  ∧ cached_objects small_cache_balanced = [65536].
Proof. repeat apply conj; vm_compute; reflexivity. Qed.

Lemma balanced_counter_counts_cached_witness :
  nr_cur_alloc (cache small_cache_balanced)
  = wrap (SIZE_MAX (Platform := x86_64))
      (Z.of_nat (length (cached_objects small_cache_balanced))).
Proof.
  exact (balanced_counter_counts_cached (H := x86_64) small_cache_balanced
           reachable_small_cache_balanced).
Defined.

(** C6 on the cache whose constructor fails on every object: the
    allocation takes 65536 from the slab at 69592 and gives it back. *)
Lemma ctor_failure_gives_slot_back_witness :
  ∃ s' sa sa',
    __kmem_alloc_from_slab (H := x86_64) 0 failing_ctor_cache = Ok 0 s'
    ∧ nr_cur_alloc (cache s') = nr_cur_alloc (cache failing_ctor_cache)
    ∧ slabs (state_of (alloc_pick_slab (H := x86_64) 0) failing_ctor_cache) !! 69592
      = Some sa
    ∧ slabs s' !! 69592 = Some sa'
    ∧ num_busy_obj sa' = num_busy_obj sa
    ∧ cache_inv (H := x86_64) [] s'.
Proof.
  apply (ctor_failure_gives_slot_back (H := x86_64) [] failing_ctor_cache 0
           (λ _ _, 1) 69592
           (state_of (alloc_pick_slab (H := x86_64) 0) failing_ctor_cache)
           65536
           (state_of (alloc_take_object (H := x86_64) 69592)
              (state_of (alloc_pick_slab (H := x86_64) 0) failing_ctor_cache))
           reachable_failing_ctor_cache).
  - vm_compute. reflexivity.
  - vm_compute. reflexivity.
  - vm_compute. reflexivity.
  - discriminate.
Defined.
(** * What a free leaves alone, and when an allocation answers NULL *)

Section more_in_use.
Context `{Platform} `{!PlatformOk}.

(** X13: a [kmem_cache_free] that returns, on a cache in use, has put
    the object in a magazine and has not reached the slab layer: the
    objects in the magazines are the ones there were and the object
    freed, and [nr_cur_alloc], the slab lists, the slab records, the
    bufctls, the hash and the object memory are what they were. *)
Theorem free_caches_the_object out s fuel cpu x s1 :
  reachable out s →
  kmem_cache_free fuel cpu x s = Ok tt s1 →
  cached_objects s1 ≡ₚ x :: cached_objects s
  ∧ nr_cur_alloc (cache s1) = nr_cur_alloc (cache s)
  ∧ full_slab_list (cache s1) = full_slab_list (cache s)
  ∧ partial_slab_list (cache s1) = partial_slab_list (cache s)
  ∧ empty_slab_list (cache s1) = empty_slab_list (cache s)
  ∧ alloc_hash (cache s1) = alloc_hash (cache s)
  ∧ slabs s1 = slabs s
  ∧ bufctls s1 = bufctls s
  ∧ mem s1 = mem s.
Proof.
  intros Hreach Hrun.
  pose proof (ci_front _ _ (reachable_inv _ _ Hreach)) as Hfront.
  destruct (kmem_cache_free_front fuel cpu x s s1 Hfront Hrun)
    as (s0 & pcc & l & Hfront0 & Hcached0 & Hsame0 & Hpcc & Hl & Hroom & ->).
  destruct (front_inv_push s0 cpu pcc l x Hfront0 Hpcc Hl Hroom)
    as (_ & Hcached1 & _).
  destruct Hsame0 as [Hc Hsl Hbc Hmem _ _ _ _ _].
  split; [by rewrite Hcached1, Hcached0|].
  cbn. rewrite Hc, Hsl, Hbc, Hmem. done.
Qed.


End more_in_use.

(** ** On the example caches *)

Lemma free_caches_the_object_witness :
  cached_objects small_cache_balanced ≡ₚ 65536 :: cached_objects small_cache_busy
  ∧ nr_cur_alloc (cache small_cache_balanced) = nr_cur_alloc (cache small_cache_busy)
  ∧ full_slab_list (cache small_cache_balanced)
    = full_slab_list (cache small_cache_busy)
  ∧ partial_slab_list (cache small_cache_balanced)
    = partial_slab_list (cache small_cache_busy)
  ∧ empty_slab_list (cache small_cache_balanced)
    = empty_slab_list (cache small_cache_busy)
  ∧ alloc_hash (cache small_cache_balanced) = alloc_hash (cache small_cache_busy)
  ∧ slabs small_cache_balanced = slabs small_cache_busy
  ∧ bufctls small_cache_balanced = bufctls small_cache_busy
  ∧ mem small_cache_balanced = mem small_cache_busy.
Proof.
  apply (free_caches_the_object (H := x86_64) [65536] small_cache_busy 3 0%nat 65536
           small_cache_balanced reachable_small_cache_busy).
  vm_compute. reflexivity.
Defined.

